(** * CDP Runbooker: the credential subsystem ([core/secure_token_manager.py])

    A shallow embedding of [SecureTokenManager] and of the pieces of
    [utils/user_interface.py] it calls, followed by the properties of the
    credential life cycle: encryption round trip, key binding, the on-disk
    record, legacy-token migration, remote validation with retries and the
    diagnostics battery.

    Conventions:
    - a Python [str] is a list of code points ([N]); [bytes] is a list of
      [byte];
    - a Python function that may raise returns an [outcome]; a function whose
      body is wrapped in [try: ... except Exception: return None] returns an
      [option];
    - everything the program reads from outside (standard input, the remote
      API, the resolver, the clock, the random source) is scripted in the
      state or given by oracles of the environment, so every run is a
      function of its inputs;
    - the [while True] loops that wait for input run on fuel, set to the
      length of the input script plus one; that this fuel is never used up is
      proved ([FlowFacts]).

    Left out: logging and printing (they change nothing the properties
    speak about, except the few events kept in the trace), the file
    permissions, and the launch of the browser. A file that exists can be
    read; writing or removing the credential file fails when the state says
    so, and rewriting a shell configuration file fails when the environment
    says so; an interrupt arrives only while a prompt waits. *)

From Stdlib Require Import NArith ZArith Lia List String Ascii Bool.
From Stdlib.Strings Require Import Byte.
From stdpp Require Import base option list gmap.
Import ListNotations.
Open Scope N_scope.

(** Linear arithmetic with division and remainder by constants. *)
Ltac nlia := zify; Z.to_euclidean_division_equations; lia.

(** ** Python values: [str] and [bytes] *)

Definition char := N.
Definition str := list N.
Definition bytes := list byte.

(** A [str] literal of the source, written as an ASCII Rocq string. *)
Definition py (s : string) : str :=
  map (fun a => N_of_ascii a) (list_ascii_of_string s).

(** The byte with value [n mod 256]. *)
Definition b8 (n : N) : byte :=
  match Byte.of_N (n mod 256) with
  | Some b => b
  | None => x00
  end.

#[global] Instance byte_eq_dec : EqDecision byte := Byte.byte_eq_dec.

(** ASCII [bytes] literal. *)
Definition pyb (s : string) : bytes := map b8 (py s).

(** ** [str.encode()] and [bytes.decode()]: strict UTF-8 *)
Module Utf8.

Definition is_surrogate (c : char) : bool := (0xD800 <=? c) && (c <=? 0xDFFF).

(** A code point that UTF-8 can encode: a Unicode scalar value. *)
Definition is_scalar (c : char) : bool := (c <? 0x110000) && negb (is_surrogate c).

(** One code point; [None] is [UnicodeEncodeError] (lone surrogate). *)
Definition encode_char (c : char) : option bytes :=
  if c <? 0x80 then Some [b8 c]
  else if c <? 0x800 then Some [b8 (0xC0 + c / 64); b8 (0x80 + c mod 64)]
  else if c <? 0x10000 then
    if is_surrogate c then None
    else Some [b8 (0xE0 + c / 4096); b8 (0x80 + (c / 64) mod 64);
               b8 (0x80 + c mod 64)]
  else if c <? 0x110000 then
    Some [b8 (0xF0 + c / 262144); b8 (0x80 + (c / 4096) mod 64);
          b8 (0x80 + (c / 64) mod 64); b8 (0x80 + c mod 64)]
  else None.

(** [s.encode()] *)
Fixpoint encode (s : str) : option bytes :=
  match s with
  | [] => Some []
  | c :: s' =>
      match encode_char c, encode s' with
      | Some e, Some r => Some (e ++ r)
      | _, _ => None
      end
  end.

Definition is_cont (b : byte) : bool :=
  (0x80 <=? Byte.to_N b) && (Byte.to_N b <? 0xC0).

Definition cont (b : byte) : N := Byte.to_N b - 0x80.

(** [b.decode()]; [None] is [UnicodeDecodeError]: a stray continuation
    byte, a truncated or overlong sequence, an encoded surrogate or a value
    above U+10FFFF. *)
Fixpoint decode (bs : bytes) : option str :=
  match bs with
  | [] => Some []
  | b0 :: r0 =>
      let n0 := Byte.to_N b0 in
      if n0 <? 0x80 then cons n0 <$> decode r0
      else if n0 <? 0xC2 then None
      else if n0 <? 0xE0 then
        match r0 with
        | b1 :: r1 =>
            if is_cont b1
            then cons ((n0 - 0xC0) * 64 + cont b1) <$> decode r1
            else None
        | _ => None
        end
      else if n0 <? 0xF0 then
        match r0 with
        | b1 :: b2 :: r2 =>
            let c := (n0 - 0xE0) * 4096 + cont b1 * 64 + cont b2 in
            if is_cont b1 && is_cont b2 && (0x800 <=? c) && negb (is_surrogate c)
            then cons c <$> decode r2
            else None
        | _ => None
        end
      else if n0 <? 0xF5 then
        match r0 with
        | b1 :: b2 :: b3 :: r3 =>
            let c := (n0 - 0xF0) * 262144 + cont b1 * 4096
                     + cont b2 * 64 + cont b3 in
            if is_cont b1 && is_cont b2 && is_cont b3
               && (0x10000 <=? c) && (c <? 0x110000)
            then cons c <$> decode r3
            else None
        | _ => None
        end
      else None
  end.

End Utf8.

(** ** [base64.urlsafe_b64encode] and [base64.urlsafe_b64decode]

    The encoder is [binascii.b2a_base64] without the trailing newline; the
    decoder is [binascii.a2b_base64] in its default, lenient mode: bytes
    outside the alphabet are skipped, the first complete padding ends the
    input, and leftover sextets are [binascii.Error] ([None]). *)
Module Base64.

Definition PAD : N := 61.                                  (* '=' *)

Definition table_b2a (i : N) : byte :=
  if i <? 26 then b8 (65 + i)                              (* A-Z *)
  else if i <? 52 then b8 (97 + (i - 26))                  (* a-z *)
  else if i <? 62 then b8 (48 + (i - 52))                  (* 0-9 *)
  else if i =? 62 then b8 43 else b8 47.                   (* + / *)

Definition table_a2b (b : byte) : option N :=
  let n := Byte.to_N b in
  if (65 <=? n) && (n <=? 90) then Some (n - 65)
  else if (97 <=? n) && (n <=? 122) then Some (n - 97 + 26)
  else if (48 <=? n) && (n <=? 57) then Some (n - 48 + 52)
  else if n =? 43 then Some 62
  else if n =? 47 then Some 63
  else None.

Fixpoint b2a_base64 (data : bytes) : bytes :=
  match data with
  | [] => []
  | [a] =>
      let a := Byte.to_N a in
      [table_b2a (a / 4); table_b2a (a mod 4 * 16); b8 PAD; b8 PAD]
  | [a; b] =>
      let a := Byte.to_N a in
      let b := Byte.to_N b in
      [table_b2a (a / 4); table_b2a (a mod 4 * 16 + b / 16);
       table_b2a (b mod 16 * 4); b8 PAD]
  | a :: b :: c :: rest =>
      let a := Byte.to_N a in
      let b := Byte.to_N b in
      let c := Byte.to_N c in
      table_b2a (a / 4) :: table_b2a (a mod 4 * 16 + b / 16)
        :: table_b2a (b mod 16 * 4 + c / 64) :: table_b2a (c mod 64)
        :: b2a_base64 rest
  end.

(** The decoding loop, in state [(quad_pos, leftchar, pads)]. *)
Fixpoint a2b_loop (data : bytes) (quad_pos leftchar pads : N) : option bytes :=
  match data with
  | [] => if quad_pos =? 0 then Some [] else None
  | ch :: rest =>
      if Byte.to_N ch =? PAD then
        if 2 <=? quad_pos then
          if 4 <=? quad_pos + (pads + 1) then Some []
          else a2b_loop rest quad_pos leftchar (pads + 1)
        else a2b_loop rest quad_pos leftchar pads
      else
        match table_a2b ch with
        | None => a2b_loop rest quad_pos leftchar pads
        | Some v =>
            if quad_pos =? 0 then a2b_loop rest 1 v 0
            else if quad_pos =? 1 then
              cons (b8 (leftchar * 4 + v / 16)) <$> a2b_loop rest 2 (v mod 16) 0
            else if quad_pos =? 2 then
              cons (b8 (leftchar * 16 + v / 4)) <$> a2b_loop rest 3 (v mod 4) 0
            else
              cons (b8 (leftchar * 64 + v)) <$> a2b_loop rest 0 0 0
        end
  end.

Definition a2b_base64 (data : bytes) : option bytes := a2b_loop data 0 0 0.

(** [bytes.maketrans(b'+/', b'-_')] and its inverse. *)
Definition urlsafe_encode_translation (b : byte) : byte :=
  if Byte.to_N b =? 43 then b8 45 else if Byte.to_N b =? 47 then b8 95 else b.

Definition urlsafe_decode_translation (b : byte) : byte :=
  if Byte.to_N b =? 45 then b8 43 else if Byte.to_N b =? 95 then b8 47 else b.

Definition urlsafe_b64encode (s : bytes) : bytes :=
  map urlsafe_encode_translation (b2a_base64 s).

Definition urlsafe_b64decode (s : bytes) : option bytes :=
  a2b_base64 (map urlsafe_decode_translation s).

End Base64.

(** ** [hashlib.sha256] (FIPS 180-4), on 32-bit words held in [N] *)
Module SHA256.

Definition w32 (x : N) : N := x mod 0x100000000.
Definition add32 (x y : N) : N := w32 (x + y).
Definition rotr (n x : N) : N :=
  N.lor (N.shiftr x n) (w32 (N.shiftl x (32 - n))).
Definition not32 (x : N) : N := N.lxor x 0xFFFFFFFF.

Definition Ch (x y z : N) : N := N.lxor (N.land x y) (N.land (not32 x) z).
Definition Maj (x y z : N) : N :=
  N.lxor (N.lxor (N.land x y) (N.land x z)) (N.land y z).
Definition Sigma0 (x : N) : N :=
  N.lxor (N.lxor (rotr 2 x) (rotr 13 x)) (rotr 22 x).
Definition Sigma1 (x : N) : N :=
  N.lxor (N.lxor (rotr 6 x) (rotr 11 x)) (rotr 25 x).
Definition sigma0 (x : N) : N :=
  N.lxor (N.lxor (rotr 7 x) (rotr 18 x)) (N.shiftr x 3).
Definition sigma1 (x : N) : N :=
  N.lxor (N.lxor (rotr 17 x) (rotr 19 x)) (N.shiftr x 10).

(** The constants are the first 32 bits of the fractional parts of the
    cube roots (round constants) and square roots (initial hash value) of
    the first primes. *)
Definition is_prime (n : N) : bool :=
  (1 <? n)
  && forallb (fun d => (n <? d * d) || negb (n mod d =? 0))
             (map N.of_nat (seq 2 (N.to_nat n - 2))).

Definition primes (count : nat) : list N :=
  firstn count (List.filter is_prime (map N.of_nat (seq 2 400))).

(** The integer cube root, found bit by bit from bit [bits - 1] down. *)
Fixpoint cube_root_bits (bits : nat) (x r : N) : N :=
  match bits with
  | O => r
  | S b =>
      let r' := r + 2 ^ N.of_nat b in
      if r' * r' * r' <=? x then cube_root_bits b x r' else cube_root_bits b x r
  end.

Definition cube_root_fraction (p : N) : N :=
  w32 (cube_root_bits 48 (p * 2 ^ 96) 0).

Definition square_root_fraction (p : N) : N := w32 (N.sqrt (p * 2 ^ 64)).

Definition K : list N := map cube_root_fraction (primes 64).

Record state := State {
  ha : N; hb : N; hc : N; hd : N; he : N; hf : N; hg : N; hh : N }.

Definition H0 : state :=
  match map square_root_fraction (primes 8) with
  | [a; b; c; d; e; f; g; h] => State a b c d e f g h
  | _ => State 0 0 0 0 0 0 0 0
  end.

(** Big-endian bytes of a word. *)
Definition be32 (x : N) : bytes :=
  [b8 (x / 0x1000000); b8 (x / 0x10000); b8 (x / 0x100); b8 x].
Definition be64 (x : N) : bytes := be32 (x / 0x100000000) ++ be32 x.

Definition pad (msg : bytes) : bytes :=
  let l := N.of_nat (length msg) in
  let zeros := (64 - (l + 9) mod 64) mod 64 in
  msg ++ [b8 0x80] ++ repeat x00 (N.to_nat zeros) ++ be64 (8 * l).

(** The sixteen words of a block. *)
Fixpoint words (n : nat) (block : bytes) : list N :=
  match n, block with
  | S n', a :: b :: c :: d :: rest =>
      (Byte.to_N a * 0x1000000 + Byte.to_N b * 0x10000
       + Byte.to_N c * 0x100 + Byte.to_N d) :: words n' rest
  | _, _ => []
  end.

Definition word_at (w : list N) (i : nat) : N := nth i w 0.

(** Extend the message schedule by [n] more words. *)
Fixpoint schedule (n : nat) (w : list N) : list N :=
  match n with
  | O => w
  | S n' =>
      let t := length w in
      let x := add32 (add32 (sigma1 (word_at w (t - 2))) (word_at w (t - 7)))
                     (add32 (sigma0 (word_at w (t - 15))) (word_at w (t - 16))) in
      schedule n' (w ++ [x])
  end.

Definition round (s : state) (kw : N * N) : state :=
  let t1 := add32 (add32 (add32 (hh s) (Sigma1 (he s)))
                         (add32 (Ch (he s) (hf s) (hg s)) (fst kw))) (snd kw) in
  let t2 := add32 (Sigma0 (ha s)) (Maj (ha s) (hb s) (hc s)) in
  State (add32 t1 t2) (ha s) (hb s) (hc s) (add32 (hd s) t1) (he s) (hf s) (hg s).

Definition compress (h : state) (block : bytes) : state :=
  let w := schedule 48 (words 16 block) in
  let s := fold_left round (combine K w) h in
  State (add32 (ha h) (ha s)) (add32 (hb h) (hb s)) (add32 (hc h) (hc s))
        (add32 (hd h) (hd s)) (add32 (he h) (he s)) (add32 (hf h) (hf s))
        (add32 (hg h) (hg s)) (add32 (hh h) (hh s)).

Fixpoint blocks (n : nat) (h : state) (data : bytes) : state :=
  match n with
  | O => h
  | S n' => blocks n' (compress h (firstn 64 data)) (skipn 64 data)
  end.

(** [hashlib.sha256(msg).digest()] *)
Definition sha256 (msg : bytes) : bytes :=
  let data := pad msg in
  let h := blocks (length data / 64) H0 data in
  be32 (ha h) ++ be32 (hb h) ++ be32 (hc h) ++ be32 (hd h)
    ++ be32 (he h) ++ be32 (hf h) ++ be32 (hg h) ++ be32 (hh h).

End SHA256.

(** ** Exceptions and results *)

(** The exception classes that occur; [SystemExit] is the only one that is
    not a subclass of [Exception]. *)
Inductive exn :=
| ValueError (message : str)
| UnicodeError
| NameError                        (* a global name that was never bound *)
| EOFError
| OSError
| SystemExit (code : N).

Definition is_Exception (e : exn) : bool :=
  match e with
  | SystemExit _ => false
  | _ => true
  end.

(** What a call does: return, raise, or (for the loops that are run on
    fuel) not finish within the fuel. *)
Inductive outcome (A : Type) :=
| Ret (a : A)
| Raise (e : exn)
| OutOfFuel.
Arguments Ret {A} a.
Arguments Raise {A} e.
Arguments OutOfFuel {A}.

(** [try: v = m ... except Exception: return None], for a computation
    without loops. *)
Definition to_option {A} (m : outcome A) : option A :=
  match m with
  | Ret a => Some a
  | _ => None
  end.

Notation "'let?' x ':=' m 'in' k" :=
  (match m with Some x => k | None => None end)
  (at level 10, x name, m at level 100, k at level 200, only parsing).

Notation "'let!' x ':=' m 'in' k" :=
  (match m with Ret x => k | Raise e => Raise e | OutOfFuel => OutOfFuel end)
  (at level 10, x name, m at level 100, k at level 200, only parsing).

(** [s.encode()] and [b.decode()] as calls that may raise. *)
Definition str_encode (s : str) : outcome bytes :=
  match Utf8.encode s with
  | Some b => Ret b
  | None => Raise UnicodeError
  end.

Definition bytes_decode (b : bytes) : outcome str :=
  match Utf8.decode b with
  | Some s => Ret s
  | None => Raise UnicodeError
  end.

(** ** The cryptography library

    [PBKDF2HMAC] and [Fernet] are taken as an interface.  [Fernet] is used
    through its raw 32-byte key; [entropy] stands for the initialisation
    vector and time stamp that [encrypt] draws. *)
Class Cipher := {
  (** [PBKDF2HMAC(SHA256, length, salt, iterations).derive(password)] *)
  pbkdf2_hmac_sha256 : N -> bytes -> N -> bytes -> bytes;
  (** [Fernet(key).encrypt(data)] *)
  fernet_encrypt : bytes -> bytes -> bytes -> bytes;
  (** [Fernet(key).decrypt(token)]; [None] is [InvalidToken] *)
  fernet_decrypt : bytes -> bytes -> option bytes
}.

(** What the program relies on: the derived key has the length asked for,
    decryption inverts encryption under the same key, and a token made under
    one key is rejected under another (the token is authenticated). *)
Class CipherLaws (C : Cipher) := {
  pbkdf2_length : forall salt iterations password,
    length (pbkdf2_hmac_sha256 32 salt iterations password) = 32%nat;
  fernet_correct : forall key entropy data,
    length key = 32%nat ->
    fernet_decrypt key (fernet_encrypt key entropy data) = Some data;
  fernet_authentic : forall key1 key2 entropy data,
    length key1 = 32%nat -> length key2 = 32%nat -> key1 <> key2 ->
    fernet_decrypt key2 (fernet_encrypt key1 entropy data) = None
}.

(** A reference instance, for running the model: the key derivation hashes
    salt and password, and a token carries the key it was made under. *)
Definition ref_pbkdf2 (len : N) (salt : bytes) (iterations : N) (password : bytes)
  : bytes := SHA256.sha256 (salt ++ password).

Definition ref_encrypt (key entropy data : bytes) : bytes :=
  b8 0x80 :: key ++ data.

Definition ref_decrypt (key token : bytes) : option bytes :=
  match token with
  | v :: rest =>
      if bool_decide (v = b8 0x80 /\ firstn (length key) rest = key)
      then Some (skipn (length key) rest)
      else None
  | [] => None
  end.

Definition ref_cipher : Cipher :=
  {| pbkdf2_hmac_sha256 := ref_pbkdf2;
     fernet_encrypt := ref_encrypt;
     fernet_decrypt := ref_decrypt |}.

(** ** Key derivation and the encryption contract *)

(** The identifier tuple read from the machine: [platform.node()],
    [getpass.getuser()] and [str(Path.home())]. *)
Record Host := {
  node : str;
  user : str;
  home : str
}.

(** [x or default] on strings. *)
Definition str_or (x default : str) : str :=
  match x with
  | [] => default
  | _ => x
  end.

Section Encryption.
Context {C : Cipher}.

(** The module flag set by the import of [cryptography]. The module
    imports [base64] in the same [try] block, after [cryptography]: when
    the flag is [False] the name [base64] is not bound, and every use of it
    raises [NameError]. *)
Variable CRYPTO_AVAILABLE : bool.

Definition identifier (h : Host) : str :=
  str_or (node h) (py "unknown-machine") ++ py ":"
    ++ str_or (user h) (py "unknown-user") ++ py ":"
    ++ home h ++ py ":cdp-runbooker-v1".

Definition _generate_encryption_key (h : Host) : outcome bytes :=
  let! ident := str_encode (identifier h) in
  let salt := firstn 16 (SHA256.sha256 ident) in
  if CRYPTO_AVAILABLE then
    Ret (Base64.urlsafe_b64encode (pbkdf2_hmac_sha256 32 salt 100000 ident))
  else
    Raise NameError.                       (* [base64.urlsafe_b64encode] *)

(** [Fernet(key)]: the raw key, or [ValueError]. *)
Definition Fernet (key : bytes) : outcome bytes :=
  match Base64.urlsafe_b64decode key with
  | Some raw =>
      if (length raw =? 32)%nat then Ret raw
      else Raise (ValueError (py "Fernet key must be 32 url-safe base64-encoded bytes."))
  | None => Raise (ValueError (py "Fernet key must be 32 url-safe base64-encoded bytes."))
  end.

Definition _encrypt_token (h : Host) (entropy : bytes) (token : str)
  : outcome str :=
  if CRYPTO_AVAILABLE then
    let! key := _generate_encryption_key h in
    let! f := Fernet key in
    let! data := str_encode token in
    let encrypted := fernet_encrypt f entropy data in
    bytes_decode (Base64.urlsafe_b64encode encrypted)
  else
    Raise NameError.                       (* [base64.urlsafe_b64encode] *)

(** The whole body is under [try ... except Exception: return None];
    that includes the [NameError] of the fallback branch. *)
Definition _decrypt_token (h : Host) (encrypted_token : str) : option str :=
  if CRYPTO_AVAILABLE then
    let? key := to_option (_generate_encryption_key h) in
    let? f := to_option (Fernet key) in
    let? raw := Utf8.encode encrypted_token in
    let? encrypted_bytes := Base64.urlsafe_b64decode raw in
    let? decrypted := fernet_decrypt f encrypted_bytes in
    Utf8.decode decrypted
  else
    None.                                  (* [base64.urlsafe_b64decode] *)

End Encryption.

(** ** The [str] methods the program calls *)
Module PyStr.

(** [c.isspace()]: what [strip()] removes. *)
Definition isspace (c : char) : bool :=
  ((0x09 <=? c) && (c <=? 0x0D)) || ((0x1C <=? c) && (c <=? 0x20))
  || (c =? 0x85) || (c =? 0xA0) || (c =? 0x1680)
  || ((0x2000 <=? c) && (c <=? 0x200A))
  || (c =? 0x2028) || (c =? 0x2029) || (c =? 0x202F) || (c =? 0x205F)
  || (c =? 0x3000).

Fixpoint lstrip (s : str) : str :=
  match s with
  | c :: r => if isspace c then lstrip r else s
  | [] => []
  end.

Definition rstrip (s : str) : str := rev (lstrip (rev s)).

(** [s.strip()] *)
Definition strip (s : str) : str := rstrip (lstrip s).

(** [s.startswith(prefix)] *)
Fixpoint startswith (prefix s : str) : bool :=
  match prefix, s with
  | [], _ => true
  | p :: ps, c :: cs => (p =? c) && startswith ps cs
  | _ :: _, [] => false
  end.

(** [s.endswith(suffix)] *)
Definition endswith (suffix s : str) : bool := startswith (rev suffix) (rev s).

(** [sub in s] *)
Fixpoint contains (sub s : str) : bool :=
  startswith sub s ||
  match s with
  | [] => false
  | _ :: r => contains sub r
  end.

(** [s.split(sep, 1)] for a one-character [sep] that occurs in [s]: the
    text before and after its first occurrence; [None] when [sep] does not
    occur. *)
Fixpoint split1 (sep : char) (s : str) : option (str * str) :=
  match s with
  | [] => None
  | c :: r =>
      if c =? sep then Some ([], r)
      else match split1 sep r with
           | Some (a, b) => Some (c :: a, b)
           | None => None
           end
  end.

(** [s.split(sep)] for a one-character [sep]. *)
Fixpoint split (sep : char) (s : str) : list str :=
  match s with
  | [] => [[]]
  | c :: r =>
      if c =? sep then [] :: split sep r
      else match split sep r with
           | part :: parts => (c :: part) :: parts
           | [] => [[c]]
           end
  end.

(** [s[1:-1]] *)
Definition slice_1_m1 (s : str) : str := removelast (tl s).

(** [s.lower()], as far as a comparison with ASCII text can tell: the
    ASCII letters, and the two characters outside ASCII whose lower case
    contains an ASCII character (U+0130, U+212A). Other cased characters
    outside ASCII are left as they are, where [str.lower] gives another
    character outside ASCII; so [lower s] and [s.lower()] are equal to, and
    contain, the same ASCII strings, and they are the same string when [s]
    is ASCII. The program compares lowered text with ASCII text only (the
    answers "y" and "n", the keywords of the error classification). *)
Definition lower_char (c : char) : str :=
  if (0x41 <=? c) && (c <=? 0x5A) then [c + 32]
  else if c =? 0x130 then [0x69; 0x307]
  else if c =? 0x212A then [0x6B]
  else [c].

Definition lower (s : str) : str := flat_map lower_char s.

(** [s.isascii()] *)
Definition isascii (s : str) : bool := forallb (fun c => c <? 128) s.

Definition eqb (a b : str) : bool := bool_decide (a = b).

End PyStr.

(** ** Legacy tokens in shell configuration files *)

(** A text file as [readlines()] gives it: its lines, each with its line
    end. *)
Definition text := list str.

Definition SENTINEL : str := py "# Added by CDP Runbooker".
Definition EXPORT_PREFIX : str := py "export QUIP_API_TOKEN=".
Definition DQUOTE : str := [34].
Definition SQUOTE : str := [39].
Definition EQUALS : char := 61.

Definition _extract_token_from_line (line : str) : option str :=
  match PyStr.split1 EQUALS line with
  | None => None                                   (* '=' not in line *)
  | Some (_, token_part) =>
      let token_part := PyStr.strip token_part in
      let token :=
        if PyStr.startswith DQUOTE token_part && PyStr.endswith DQUOTE token_part
        then PyStr.slice_1_m1 token_part
        else if PyStr.startswith SQUOTE token_part
                && PyStr.endswith SQUOTE token_part
        then PyStr.slice_1_m1 token_part
        else token_part in
      if negb (PyStr.eqb token []) && (30 <? length token)%nat
      then Some token
      else None
  end.

Definition is_sentinel (line : str) : bool :=
  PyStr.eqb (PyStr.strip line) SENTINEL.

Definition is_export (line : str) : bool :=
  PyStr.startswith EXPORT_PREFIX (PyStr.strip line).

(** The scan of one file in [_detect_legacy_tokens]: the loop over
    [enumerate(lines)], left at the first sentinel line whose next line
    yields a token. *)
Fixpoint scan_lines (lines : text) : option str :=
  match lines with
  | [] => None
  | line :: rest =>
      if is_sentinel line then
        match rest with
        | next :: _ =>
            if is_export next then
              match _extract_token_from_line (PyStr.strip next) with
              | Some token => Some token
              | None => scan_lines rest
              end
            else scan_lines rest
        | [] => scan_lines rest
        end
      else scan_lines rest
  end.

(** The rewrite of one file in [_cleanup_legacy_tokens]: the [while] loop
    that builds [new_lines]. *)
Fixpoint cleanup_lines (lines : text) : text :=
  match lines with
  | [] => []
  | line :: rest =>
      if is_sentinel line then
        match rest with
        | next :: rest' =>
            if is_export next then cleanup_lines rest' else cleanup_lines rest
        | [] => cleanup_lines rest
        end
      else line :: cleanup_lines rest
  end.

(** The lines that the rewrite is described to drop: a sentinel line, and
    an export line that comes right after a sentinel line. *)
Definition dropped (prev : option str) (line : str) : bool :=
  is_sentinel line
  || (is_export line && match prev with Some p => is_sentinel p | None => false end).

Fixpoint kept_lines (prev : option str) (lines : text) : text :=
  match lines with
  | [] => []
  | line :: rest =>
      if dropped prev line then kept_lines (Some line) rest
      else line :: kept_lines (Some line) rest
  end.

(** ** Concrete inputs for the examples *)

Definition host_a : Host :=
  {| node := py "build-01"; user := py "alice"; home := py "/home/alice" |}.

Definition host_b : Host :=
  {| node := py "build-02"; user := py "bob"; home := py "/home/bob" |}.

(** ["X" * 40] *)
Definition token_x40 : str := repeat 88 40.

(** A 30-character and a 31-character token. *)
Definition token_a30 : str := repeat 97 30.
Definition token_a31 : str := repeat 97 31.

Definition nl (s : str) : str := s ++ [10].

(** A shell configuration file with two entries written by the tool. *)
Definition rc_two_entries : text :=
  [ nl SENTINEL;
    nl (EXPORT_PREFIX ++ DQUOTE ++ token_x40 ++ DQUOTE);
    nl (py "alias ll=ls");
    nl SENTINEL;
    nl (EXPORT_PREFIX ++ DQUOTE ++ token_a31 ++ DQUOTE) ].

(** A shell configuration file whose entry holds a token of exactly 30
    characters. *)
Definition rc_token_30 : text :=
  [ nl (py "export PATH=$HOME/bin:$PATH");
    nl SENTINEL;
    nl (EXPORT_PREFIX ++ DQUOTE ++ token_a30 ++ DQUOTE) ].

(** ** The world the program runs in *)

(** JSON values as far as the program looks at them: scalars, and
    containers up to emptiness. A JSON object is a [dict]. *)
Inductive jvalue :=
| JNull
| JBool (b : bool)
| JNum (z : Z)
| JStr (s : str)
| JContainer (nonempty : bool).

Definition dict := list (str * jvalue).

(** [d.get(key)] *)
Fixpoint dict_get (key : str) (d : dict) : option jvalue :=
  match d with
  | [] => None
  | (k, v) :: rest => if PyStr.eqb k key then Some v else dict_get key rest
  end.

(** [d[key] = value] *)
Fixpoint dict_set (key : str) (value : jvalue) (d : dict) : dict :=
  match d with
  | [] => [(key, value)]
  | (k, v) :: rest =>
      if PyStr.eqb k key then (k, value) :: rest
      else (k, v) :: dict_set key value rest
  end.

(** Truth value of [d.get(key)]. *)
Definition truthy (v : option jvalue) : bool :=
  match v with
  | None | Some JNull => false
  | Some (JBool b) => b
  | Some (JNum z) => negb (z =? 0)%Z
  | Some (JStr s) => negb (PyStr.eqb s [])
  | Some (JContainer nonempty) => nonempty
  end.

(** What [json.load] finds in the credential file: text that does not
    parse, a value that is not an object, or an object. *)
Inductive config_content :=
| Unparseable
| NotAnObject (v : jvalue)
| Object (d : dict).

(** One reading of standard input by [input()]: a line, or Ctrl-C while
    waiting. The end of the script is the end of input. *)
Inductive stdin_event :=
| Line (s : str)
| Interrupt.

(** What one validation attempt meets inside its [try] block: the value
    returned by [get_authenticated_user()], or an exception with its
    message. *)
Inductive api_outcome :=
| ApiReturn (user_info : option dict)
| ApiRaise (message : str).

Inductive format_verdict :=
| FormatValid
| FormatUnusual (parts : nat)
| FormatNoSeparator.

(** The observable steps that the properties speak about. *)
Inductive event :=
| EvRequest (token : str)          (* the API client is asked who the token is *)
| EvDirect (token : str)           (* the direct request of diagnose mode *)
| EvSleep (seconds : nat)          (* [time.sleep] *)
| EvFormat (v : format_verdict).   (* the message of the format check *)

(** The environment of a run: the machine, the module flags and the
    answers of everything outside the process, numbered by reading. *)
Record Env := {
  host : Host;
  SHELL : str;                              (* [os.environ.get("SHELL", "")] *)
  CRYPTO_AVAILABLE : bool;
  client_has_request : bool;                (* [hasattr(temp_client, 'request')] *)
  shell_writable : str -> bool;             (* [open(config_file, 'w')] succeeds *)
  api : nat -> str -> api_outcome;
  direct : nat -> str -> option dict;       (* body of a 200 response, if any *)
  resolves : nat -> bool;                   (* [socket.gethostbyname] succeeds *)
  reachable : nat -> bool;                  (* [requests.get] succeeds *)
  clock : nat -> str;                       (* [datetime.now(utc).isoformat()] *)
  entropy : nat -> bytes
}.

Record State := {
  config_file : option config_content;      (* [None]: the file does not exist *)
  config_writable : bool;                   (* opening it for writing succeeds *)
  shell_files : gmap str text;
  stdin : list stdin_event;
  api_calls : nat;
  direct_calls : nat;
  probes : nat;
  draws : nat;                              (* readings of clock and entropy *)
  trace : list event
}.

Definition with_config (c : option config_content) (st : State) : State :=
  {| config_file := c; config_writable := config_writable st;
     shell_files := shell_files st; stdin := stdin st;
     api_calls := api_calls st; direct_calls := direct_calls st;
     probes := probes st; draws := draws st; trace := trace st |}.

Definition with_shell_files (fs : gmap str text) (st : State) : State :=
  {| config_file := config_file st; config_writable := config_writable st;
     shell_files := fs; stdin := stdin st;
     api_calls := api_calls st; direct_calls := direct_calls st;
     probes := probes st; draws := draws st; trace := trace st |}.

Definition with_stdin (inp : list stdin_event) (st : State) : State :=
  {| config_file := config_file st; config_writable := config_writable st;
     shell_files := shell_files st; stdin := inp;
     api_calls := api_calls st; direct_calls := direct_calls st;
     probes := probes st; draws := draws st; trace := trace st |}.

(** One more reading of an oracle, and what was observed. *)
Definition count_api (ev : list event) (st : State) : State :=
  {| config_file := config_file st; config_writable := config_writable st;
     shell_files := shell_files st; stdin := stdin st;
     api_calls := S (api_calls st); direct_calls := direct_calls st;
     probes := probes st; draws := draws st; trace := trace st ++ ev |}.

Definition count_direct (ev : list event) (st : State) : State :=
  {| config_file := config_file st; config_writable := config_writable st;
     shell_files := shell_files st; stdin := stdin st;
     api_calls := api_calls st; direct_calls := S (direct_calls st);
     probes := probes st; draws := draws st; trace := trace st ++ ev |}.

Definition count_probe (st : State) : State :=
  {| config_file := config_file st; config_writable := config_writable st;
     shell_files := shell_files st; stdin := stdin st;
     api_calls := api_calls st; direct_calls := direct_calls st;
     probes := S (probes st); draws := draws st; trace := trace st |}.

Definition count_draw (st : State) : State :=
  {| config_file := config_file st; config_writable := config_writable st;
     shell_files := shell_files st; stdin := stdin st;
     api_calls := api_calls st; direct_calls := direct_calls st;
     probes := probes st; draws := S (draws st); trace := trace st |}.

Definition log (ev : event) (st : State) : State :=
  {| config_file := config_file st; config_writable := config_writable st;
     shell_files := shell_files st; stdin := stdin st;
     api_calls := api_calls st; direct_calls := direct_calls st;
     probes := probes st; draws := draws st; trace := trace st ++ [ev] |}.

(** ** Computations: state and exceptions *)

Definition M (A : Type) : Type := State -> outcome A * State.

Definition ret {A} (a : A) : M A := fun st => (Ret a, st).

Definition raise {A} (e : exn) : M A := fun st => (Raise e, st).

Definition bind {A B} (m : M A) (k : A -> M B) : M B :=
  fun st =>
    match m st with
    | (Ret a, st') => k a st'
    | (Raise e, st') => (Raise e, st')
    | (OutOfFuel, st') => (OutOfFuel, st')
    end.

(** [try: m except Exception as e: handler(e)] *)
Definition try_except {A} (m : M A) (handler : exn -> M A) : M A :=
  fun st =>
    match m st with
    | (Raise e, st') => if is_Exception e then handler e st' else (Raise e, st')
    | r => r
    end.

Definition out_of_fuel {A} : M A := fun st => (OutOfFuel, st).

Declare Scope run_scope.
Delimit Scope run_scope with run.
Notation "x <- m ;; k" := (bind m (fun x => k))
  (at level 100, m at level 99, k at level 200, right associativity,
   only parsing) : run_scope.
Open Scope run_scope.

(** ** [utils/user_interface.py]: prompts *)

(** [UserMessenger.get_user_input]: [input(...).strip()] until a value is
    there (or at once when the field is not required); Ctrl-C ends the
    process with [sys.exit(1)], the end of input raises [EOFError]. *)
Fixpoint input_loop (required : bool) (inp : list stdin_event)
  : outcome str * list stdin_event :=
  match inp with
  | [] => (Raise EOFError, [])
  | Interrupt :: rest => (Raise (SystemExit 1), rest)
  | Line l :: rest =>
      let value := PyStr.strip l in
      if negb (PyStr.eqb value []) || negb required then (Ret value, rest)
      else input_loop required rest
  end.

Definition get_user_input (required : bool) : M str :=
  fun st =>
    let (r, rest) := input_loop required (stdin st) in (r, with_stdin rest st).

Definition str_in (x : str) (l : list str) : bool := existsb (PyStr.eqb x) l.

(** [UserMessenger.get_user_choice]; a missing default is the empty
    string. *)
Fixpoint choice_loop (fuel : nat) (choices : list str) (default : str) : M str :=
  match fuel with
  | O => out_of_fuel
  | S fuel' =>
      value <- get_user_input (PyStr.eqb default []) ;;
      let response := PyStr.lower value in
      if PyStr.eqb response [] && negb (PyStr.eqb default [])
      then ret (PyStr.lower default)
      else if str_in response (map PyStr.lower choices) then ret response
      else choice_loop fuel' choices default
  end.

(** Every turn of the loop reads at least one event, so the script length
    bounds the number of turns. *)
Definition get_user_choice (choices : list str) (default : str) : M str :=
  fun st => choice_loop (S (length (stdin st))) choices default st.

Definition YES_NO : list str := [py "y"; py "n"].
Definition ACCEPT : list str := [py "y"; py "yes"].

(** ** [SecureTokenManager] *)

Definition CONFIG_VERSION : str := py "1.0".

(** [os.path.join] and [os.path.basename] on POSIX paths. *)
Definition path_join (a b : str) : str :=
  if PyStr.startswith (py "/") b then b
  else if PyStr.eqb a [] || PyStr.endswith (py "/") a then a ++ b
  else a ++ py "/" ++ b.

Definition basename (p : str) : str :=
  rev (match PyStr.split1 47 (rev p) with
       | Some (name, _) => name
       | None => rev p
       end).

Definition TRANSIENT_KEYWORDS : list str :=
  [py "timeout"; py "connection"; py "network"; py "temporary";
   py "service unavailable"; py "502"; py "503"; py "504"].

Definition AUTH_KEYWORDS : list str :=
  [py "unauthorized"; py "401"; py "forbidden"; py "403"; py "invalid";
   py "expired"].

(** [any(keyword in error_str for keyword in keywords)] *)
Definition any_keyword (keywords : list str) (error_str : str) : bool :=
  existsb (fun keyword => PyStr.contains keyword error_str) keywords.

(** [user_info and 'id' in user_info] *)
Definition has_identity (user_info : option dict) : bool :=
  match user_info with
  | Some (entry :: rest) =>
      match dict_get (py "id") (entry :: rest) with
      | Some _ => true
      | None => false
      end
  | Some [] => false
  | None => false
  end.

(** The value of [user_info] when it is true, for [if user_info:]. *)
Definition if_true (user_info : option dict) : option dict :=
  match user_info with
  | Some [] => None
  | other => other
  end.

(** [user_info.get('name', 'Unknown')] *)
Definition user_name (user_info : dict) : jvalue :=
  match dict_get (py "name") user_info with
  | Some v => v
  | None => JStr (py "Unknown")
  end.

(** The format check of the diagnostics: which message is printed. *)
Definition token_format (test_token : str) : format_verdict :=
  if PyStr.contains (py "|") test_token then
    let parts := PyStr.split 124 test_token in
    if (length parts =? 3)%nat then FormatValid
    else FormatUnusual (length parts)
  else FormatNoSeparator.

Section Manager.
Context {C : Cipher}.
Variable env : Env.

(** *** Remote validation *)

Definition sleep (seconds : nat) : M unit :=
  fun st => (Ret tt, log (EvSleep seconds) st).

(** The direct request that diagnose mode makes first; its own
    [try ... except] swallows every failure. *)
Definition direct_request (token : str) : M (option dict) :=
  fun st =>
    (Ret (direct env (direct_calls st) token),
     count_direct [EvDirect token] st).

(** The client is created and asked for the authenticated user. *)
Definition api_request (token : str) : M api_outcome :=
  fun st =>
    (Ret (api env (api_calls st) token), count_api [EvRequest token] st).

(** The body of [for attempt in range(max_retries)], from [attempt] on,
    with [remaining] turns to go. *)
Fixpoint validate_attempts (remaining attempt max_retries : nat)
    (diagnose_mode : bool) (token : str) : M (option dict) :=
  match remaining with
  | O => ret None
  | S remaining' =>
      early <- (if diagnose_mode && client_has_request env
                then direct_request token else ret None) ;;
      if diagnose_mode && client_has_request env && has_identity early
      then ret early
      else
        r <- api_request token ;;
        match r with
        | ApiReturn user_info =>
            if has_identity user_info then ret user_info else ret None
        | ApiRaise message =>
            let error_str := PyStr.lower message in
            if any_keyword TRANSIENT_KEYWORDS error_str then
              if (attempt <? max_retries - 1)%nat then
                let wait_time := ((attempt + 1) * 2)%nat in
                _ <- sleep wait_time ;;
                validate_attempts remaining' (S attempt) max_retries
                                  diagnose_mode token
              else ret None
            else if any_keyword AUTH_KEYWORDS error_str then ret None
            else ret None
        end
  end.

Definition _validate_token (token : str) (max_retries : nat)
    (diagnose_mode : bool) : M (option dict) :=
  if PyStr.eqb token [] || (length token <? 30)%nat then ret None
  else validate_attempts max_retries 0 max_retries diagnose_mode token.

(** *** The credential file *)

Definition now : M str :=
  fun st => (Ret (clock env (draws st)), count_draw st).

(** [open(self.config_file, 'w')] followed by [json.dump]. *)
Definition write_config (config_data : dict) : M unit :=
  fun st =>
    if config_writable st then (Ret tt, with_config (Some (Object config_data)) st)
    else (Raise OSError, st).

Definition encrypt_now (token : str) : M str :=
  fun st =>
    (_encrypt_token (CRYPTO_AVAILABLE env) (host env)
                    (entropy env (draws st)) token,
     count_draw st).

Definition store_token_securely (token : str) : M bool :=
  try_except
    (user_info <- _validate_token token 3 false ;;
     match if_true user_info with
     | None => ret false
     | Some info =>
         encrypted_token <- encrypt_now token ;;
         created_at <- now ;;
         last_used <- now ;;
         let config_data :=
           [(py "version", JStr CONFIG_VERSION);
            (py "encrypted_token", JStr encrypted_token);
            (py "created_at", JStr created_at);
            (py "last_used", JStr last_used);
            (py "user_name", user_name info)] in
         _ <- write_config config_data ;;
         ret true
     end)
    (fun _ => ret false).

(** The body of [_load_secure_token] up to the decrypted token; every
    exception in it ends in [return None]. *)
Definition read_config (content : config_content) : option (dict * str) :=
  match content with
  | Object config_data =>
      if match dict_get (py "version") config_data with
         | Some (JStr version) => PyStr.eqb version CONFIG_VERSION
         | _ => false
         end
      then
        if truthy (dict_get (py "encrypted_token") config_data) then
          match dict_get (py "encrypted_token") config_data with
          | Some (JStr encrypted_token) =>
              match _decrypt_token (CRYPTO_AVAILABLE env) (host env)
                                   encrypted_token with
              | Some token => Some (config_data, token)
              | None => None
              end
          | _ => None                      (* no [encode] on other values *)
          end
        else None
      else None
  | NotAnObject _ => None                  (* no [get] on other values *)
  | Unparseable => None
  end.

Definition _load_secure_token : M (option str) :=
  fun st =>
    match config_file st with
    | None => (Ret None, st)
    | Some content =>
        match read_config content with
        | Some (config_data, token) =>
            if negb (PyStr.eqb token []) then
              try_except
                (last_used <- now ;;
                 _ <- write_config
                        (dict_set (py "last_used") (JStr last_used) config_data) ;;
                 ret (Some token))
                (fun _ => ret None) st
            else (Ret (Some token), st)
        | None => (Ret None, st)
        end
    end.

(** [unlink] under [try ... except]: a failure is logged and ignored. *)
Definition _remove_secure_token : M unit :=
  fun st =>
    match config_file st with
    | Some _ =>
        if config_writable st then (Ret tt, with_config None st)
        else (Ret tt, st)
    | None => (Ret tt, st)
    end.

(** *** Legacy tokens *)

Definition _get_shell_config_files : list str :=
  let shell := SHELL env in
  let home := home (host env) in
  if PyStr.contains (py "zsh") shell then
    [path_join home (py ".zshrc"); path_join home (py ".zprofile")]
  else if PyStr.contains (py "bash") shell then
    [path_join home (py ".bashrc"); path_join home (py ".bash_profile")]
  else
    [path_join home (py ".zshrc"); path_join home (py ".bashrc");
     path_join home (py ".bash_profile"); path_join home (py ".zprofile")].

Definition detect_in (fs : gmap str text) (config_file : str)
  : list (str * str) :=
  match fs !! config_file with
  | None => []                              (* [os.path.exists] is false *)
  | Some lines =>
      match scan_lines lines with
      | Some token => [(config_file, token)]
      | None => []
      end
  end.

Definition _detect_legacy_tokens : M (list (str * str)) :=
  fun st =>
    (Ret (flat_map (detect_in (shell_files st)) _get_shell_config_files), st).

(** Each file is handled under its own [try ... except Exception]: a file
    that cannot be read, or cannot be opened for writing, is logged and
    passed over, and is not among the cleaned files. *)
Fixpoint _cleanup_legacy_tokens (legacy_tokens : list (str * str))
  : M (list str) :=
  match legacy_tokens with
  | [] => ret []
  | (config_file, _) :: rest =>
      fun st =>
        match shell_files st !! config_file with
        | Some lines =>
            if shell_writable env config_file then
              let st' := with_shell_files
                           (<[config_file := cleanup_lines lines]> (shell_files st))
                           st in
              (cleaned <- _cleanup_legacy_tokens rest ;;
               ret (basename config_file :: cleaned)) st'
            else _cleanup_legacy_tokens rest st    (* logged, [continue] *)
        | None => _cleanup_legacy_tokens rest st   (* logged, [continue] *)
        end
  end.

(** *** Setup *)

(** The [while True] loop of [_setup_new_token]. *)
Fixpoint setup_loop (fuel : nat) : M str :=
  match fuel with
  | O => out_of_fuel
  | S fuel' =>
      new_token <- get_user_input true ;;
      if PyStr.eqb new_token [] || (length new_token <? 30)%nat
      then setup_loop fuel'
      else
        user_info <- _validate_token new_token 3 false ;;
        match if_true user_info with
        | None => setup_loop fuel'
        | Some _ =>
            stored <- store_token_securely new_token ;;
            if stored then ret new_token else setup_loop fuel'
        end
  end.

Definition SETUP_CANCELLED : str :=
  py "Token setup cancelled. Please set up your token to continue.".

(** Opening the browser only prints; it is left out. *)
Definition _setup_new_token : M str :=
  choice <- get_user_choice YES_NO (py "y") ;;
  if negb (str_in choice ACCEPT) then raise (ValueError SETUP_CANCELLED)
  else fun st => setup_loop (S (length (stdin st))) st.

(** *** Migration *)

(** "Use the first valid token found". *)
Fixpoint select_token (legacy_tokens : list (str * str)) : M (option str) :=
  match legacy_tokens with
  | [] => ret None
  | (_, token) :: rest =>
      user_info <- _validate_token token 3 false ;;
      match if_true user_info with
      | Some _ => ret (Some token)
      | None => select_token rest
      end
  end.

(** "Store token securely", then clean up, or fall back to setup. *)
Definition persist_selected (legacy_tokens : list (str * str))
    (selected_token : str) : M (option str) :=
  stored <- store_token_securely selected_token ;;
  if stored then
    _ <- _cleanup_legacy_tokens legacy_tokens ;;
    ret (Some selected_token)
  else
    token <- _setup_new_token ;;
    ret (Some token).

Definition _handle_migration (legacy_tokens : list (str * str))
  : M (option str) :=
  try_except
    (choice <- get_user_choice YES_NO (py "y") ;;
     if negb (str_in choice ACCEPT) then ret None
     else
       selected_token <- select_token legacy_tokens ;;
       match selected_token with
       | None => token <- _setup_new_token ;; ret (Some token)
       | Some selected => persist_selected legacy_tokens selected
       end)
    (fun _ => token <- _setup_new_token ;; ret (Some token)).

(** *** Entry points *)

(** Steps 1 and 2 of [get_secure_token]: the stored token, if it
    validates; otherwise the record is removed. *)
Definition stored_token : M (option str) :=
  token <- _load_secure_token ;;
  match token with
  | Some t =>
      if negb (PyStr.eqb t []) then
        user_info <- _validate_token t 3 false ;;
        match if_true user_info with
        | Some _ => ret (Some t)
        | None => _ <- _remove_secure_token ;; ret None
        end
      else ret None
  | None => ret None
  end.

(** Step 3: migration, when legacy tokens are found. *)
Definition migrated_token : M (option str) :=
  legacy_tokens <- _detect_legacy_tokens ;;
  match legacy_tokens with
  | [] => ret None
  | _ :: _ =>
      migrated <- _handle_migration legacy_tokens ;;
      match migrated with
      | Some t => if negb (PyStr.eqb t []) then ret (Some t) else ret None
      | None => ret None
      end
  end.

Definition get_secure_token : M str :=
  token <- stored_token ;;
  match token with
  | Some t => ret t
  | None =>
      migrated <- migrated_token ;;
      match migrated with
      | Some t => ret t
      | None => _setup_new_token
      end
  end.

(** *** Diagnostics *)

Definition probe (oracle : nat -> bool) : M bool :=
  fun st => (Ret (oracle (probes st)), count_probe st).

Definition say_format (test_token : str) : M unit :=
  fun st => (Ret tt, log (EvFormat (token_format test_token)) st).

(** [test_token = token], or the stored token when none is given. *)
Definition token_under_test (token : option str) : M (option str) :=
  match token with
  | Some (c :: t) => ret (Some (c :: t))
  | _ => _load_secure_token
  end.

Definition diagnose_token (token : option str) : M bool :=
  dns <- probe (resolves env) ;;
  if negb dns then ret false
  else
    https <- probe (reachable env) ;;
    if negb https then ret false
    else
      test_token <- token_under_test token ;;
      match test_token with
      | None | Some [] => ret false
      | Some test_token =>
          if (length test_token <? 30)%nat then ret false
          else
            _ <- say_format test_token ;;
            result <- _validate_token test_token 1 true ;;
            match if_true result with
            | Some _ => ret true
            | None => ret false
            end
      end.

End Manager.

(** ** Words of the specification, for comparison with the code *)

(** The attempts and pauses of a validation that only meets transient
    errors: [max_retries] requests, and after the attempt with (1-based)
    index [attempt_index], unless it is the last, a pause of
    [attempt_index * 2] seconds. *)
Definition retry_schedule (token : str) (max_retries : nat) : list event :=
  match max_retries with
  | O => []
  | S n =>
      EvRequest token
        :: flat_map (fun attempt_index =>
                       [EvSleep (attempt_index * 2); EvRequest token])
                    (seq 1 n)
  end.

(** The requests of the API client and the pauses, out of a trace. *)
Definition attempts_and_sleeps (tr : list event) : list event :=
  List.filter (fun e => match e with
                   | EvRequest _ | EvSleep _ => true
                   | _ => false
                   end) tr.

(** A transient-classified error message. *)
Definition transient (message : str) : Prop :=
  any_keyword TRANSIENT_KEYWORDS (PyStr.lower message) = true.

(** ** Concrete worlds for the examples *)

Definition a_user : dict :=
  [(py "id", JStr (py "UAbCdEfGhIj")); (py "name", JStr (py "Alice Example"))].

Definition TIMESTAMP : str := py "2024-05-01T09:30:00+00:00".

(** A network on which every request times out. *)
Definition env_offline : Env :=
  {| host := host_a;
     SHELL := py "/bin/bash";
     CRYPTO_AVAILABLE := true;
     client_has_request := true;
     shell_writable := fun _ => true;
     api := fun _ _ => ApiRaise (py "HTTPSConnectionPool: Read timed out. (read timeout=90)");
     direct := fun _ _ => None;
     resolves := fun _ => true;
     reachable := fun _ => true;
     clock := fun _ => TIMESTAMP;
     entropy := fun _ => [] |}.

(** A network on which the service accepts every token. *)
Definition env_online : Env :=
  {| host := host_a;
     SHELL := py "/bin/bash";
     CRYPTO_AVAILABLE := true;
     client_has_request := true;
     shell_writable := fun _ => true;
     api := fun _ _ => ApiReturn (Some a_user);
     direct := fun _ _ => Some a_user;
     resolves := fun _ => true;
     reachable := fun _ => true;
     clock := fun _ => TIMESTAMP;
     entropy := fun _ => [] |}.

(** The same network on a machine where the [cryptography] package is not
    installed. *)
Definition env_without_cryptography : Env :=
  {| host := host_a;
     SHELL := py "/bin/bash";
     CRYPTO_AVAILABLE := false;
     client_has_request := true;
     shell_writable := fun _ => true;
     api := fun _ _ => ApiReturn (Some a_user);
     direct := fun _ _ => Some a_user;
     resolves := fun _ => true;
     reachable := fun _ => true;
     clock := fun _ => TIMESTAMP;
     entropy := fun _ => [] |}.

(** A network on which the service rejects every token. *)
Definition env_rejecting : Env :=
  {| host := host_a;
     SHELL := py "/bin/bash";
     CRYPTO_AVAILABLE := true;
     client_has_request := true;
     shell_writable := fun _ => true;
     api := fun _ _ => ApiRaise (py "401 Unauthorized");
     direct := fun _ _ => None;
     resolves := fun _ => true;
     reachable := fun _ => true;
     clock := fun _ => TIMESTAMP;
     entropy := fun _ => [] |}.

(** An empty configuration directory, no shell files, nothing typed. *)
Definition st_empty : State :=
  {| config_file := None;
     config_writable := true;
     shell_files := empty;
     stdin := [];
     api_calls := 0;
     direct_calls := 0;
     probes := 0;
     draws := 0;
     trace := [] |}.

(** A record written by another schema version. *)
Definition record_v09 : dict :=
  [(py "version", JStr (py "0.9"));
   (py "encrypted_token", JStr (py "Z0FBQUFBQm1NZw=="));
   (py "created_at", JStr TIMESTAMP);
   (py "last_used", JStr TIMESTAMP);
   (py "user_name", JStr (py "Alice Example"))].

(** That record on disk, and a user who answers "n" to the setup prompt. *)
Definition st_stale : State :=
  {| config_file := Some (Object record_v09);
     config_writable := true;
     shell_files := empty;
     stdin := [Line (py "n")];
     api_calls := 0;
     direct_calls := 0;
     probes := 0;
     draws := 0;
     trace := [] |}.

(** A legacy entry in [~/.bashrc], a credential directory that cannot be
    written, and a user who confirms the migration and then gives up. *)
Definition bashrc_a : str := py "/home/alice/.bashrc".

Definition rc_one_entry : text :=
  [ nl (py "export EDITOR=vi");
    nl SENTINEL;
    nl (EXPORT_PREFIX ++ DQUOTE ++ token_x40 ++ DQUOTE) ].

Definition st_readonly : State :=
  {| config_file := None;
     config_writable := false;
     shell_files := {[ bashrc_a := rc_one_entry ]};
     stdin := [Line (py "y"); Line (py "n")];
     api_calls := 0;
     direct_calls := 0;
     probes := 0;
     draws := 0;
     trace := [] |}.

(** A user who interrupts the first prompt. *)
Definition st_interrupted : State := with_stdin [Interrupt] st_empty.

(** A legacy entry whose token the service rejects, and a user who confirms
    the migration, declines the setup that follows, then accepts it and
    types a token. *)
Definition st_decline_then_accept : State :=
  {| config_file := None;
     config_writable := true;
     shell_files := {[ bashrc_a := rc_one_entry ]};
     stdin := [Line (py "y"); Line (py "n"); Line (py "y"); Line token_a31];
     api_calls := 0;
     direct_calls := 0;
     probes := 0;
     draws := 0;
     trace := [] |}.

(** The service rejects the legacy token and accepts the one typed. *)
Definition env_accepts_a31 : Env :=
  {| host := host_a;
     SHELL := py "/bin/bash";
     CRYPTO_AVAILABLE := true;
     client_has_request := true;
     shell_writable := fun _ => true;
     api := fun _ token =>
              if PyStr.eqb token token_a31 then ApiReturn (Some a_user)
              else ApiRaise (py "401 Unauthorized");
     direct := fun _ _ => None;
     resolves := fun _ => true;
     reachable := fun _ => true;
     clock := fun _ => TIMESTAMP;
     entropy := fun _ => [] |}.

(** A token of two segments. *)
Definition token_two_parts : str := repeat 97 20 ++ py "|" ++ repeat 98 20.

(** [~/.bashrc] holds an entry with a token of exactly 30 characters. *)
Definition st_bashrc_30 : State :=
  with_shell_files {[ bashrc_a := rc_token_30 ]} st_empty.

(** The same legacy entry, a credential directory that can be written, and
    a user who confirms the migration. *)
Definition st_migrating : State :=
  {| config_file := None;
     config_writable := true;
     shell_files := {[ bashrc_a := rc_one_entry ]};
     stdin := [Line (py "y")];
     api_calls := 0;
     direct_calls := 0;
     probes := 0;
     draws := 0;
     trace := [] |}.


(** A machine on which the shell configuration files cannot be written. *)
Definition env_locked : Env :=
  {| host := host_a;
     SHELL := py "/bin/bash";
     CRYPTO_AVAILABLE := true;
     client_has_request := true;
     shell_writable := fun _ => false;
     api := fun _ _ => ApiReturn (Some a_user);
     direct := fun _ _ => Some a_user;
     resolves := fun _ => true;
     reachable := fun _ => true;
     clock := fun _ => TIMESTAMP;
     entropy := fun _ => [] |}.

(** ** Callers of [get_secure_token] *)

Definition VALIDATION_FAILED : str := py "Token validation failed".

Section Callers.
Context {C : Cipher}.
Variable env : Env.

(** [get_api_token], the name kept for older callers. *)
Definition get_api_token : M str := get_secure_token env.

(** [get_validated_token]: the token is validated once more after it was
    obtained, and returned with the user record. *)
Definition get_validated_token : M (str * dict) :=
  token <- get_secure_token env ;;
  user_info <- _validate_token env token 3 false ;;
  match if_true user_info with
  | None => raise (ValueError VALIDATION_FAILED)
  | Some info => ret (token, info)
  end.

End Callers.

(** The state after [token_x40] was stored on an empty machine, and the
    same state with a credential file that cannot be written any more. *)
Definition st_stored : State :=
  snd (store_token_securely (C := ref_cipher) env_online token_x40 st_empty).

Definition st_stored_readonly : State :=
  {| config_file := config_file st_stored;
     config_writable := false;
     shell_files := shell_files st_stored;
     stdin := stdin st_stored;
     api_calls := api_calls st_stored;
     direct_calls := direct_calls st_stored;
     probes := probes st_stored;
     draws := draws st_stored;
     trace := trace st_stored |}.

(** ** The fallback messenger

    [MinimalMsg] stands in for [utils.user_interface.msg] when that module
    cannot be imported. Its prompts call [input()] without a handler, so
    Ctrl-C leaves them as [KeyboardInterrupt]; they touch nothing but the
    input. *)
Inductive fallback_outcome (A : Type) :=
| Finished (result : outcome A)
| KeyboardInterrupt.
Arguments Finished {A} result.
Arguments KeyboardInterrupt {A}.

Module MinimalMsg.

Fixpoint get_user_input (required : bool) (inp : list stdin_event)
  : fallback_outcome str * list stdin_event :=
  match inp with
  | [] => (Finished (Raise EOFError), [])
  | Interrupt :: rest => (KeyboardInterrupt, rest)
  | Line l :: rest =>
      let value := PyStr.strip l in
      if negb (PyStr.eqb value []) || negb required
      then (Finished (Ret value), rest)
      else get_user_input required rest
  end.

(** A missing default is the empty string. *)
Fixpoint get_user_choice (choices : list str) (default : str)
    (inp : list stdin_event) : fallback_outcome str * list stdin_event :=
  match inp with
  | [] => (Finished (Raise EOFError), [])
  | Interrupt :: rest => (KeyboardInterrupt, rest)
  | Line l :: rest =>
      let response := PyStr.strip (PyStr.lower l) in
      if PyStr.eqb response [] && negb (PyStr.eqb default [])
      then (Finished (Ret (PyStr.lower default)), rest)
      else if str_in response (map PyStr.lower choices)
      then (Finished (Ret response), rest)
      else get_user_choice choices default rest
  end.

End MinimalMsg.

(** How a prompt of [UserMessenger] looks from a caller of the fallback:
    the same, but for the interrupt, which [UserMessenger] turns into
    [sys.exit(1)]. *)
Definition as_fallback (r : outcome str * State)
  : fallback_outcome str * list stdin_event :=
  match r with
  | (Raise (SystemExit _), st') => (KeyboardInterrupt, stdin st')
  | (result, st') => (Finished result, stdin st')
  end.

(* ===================================================================== *)
(** * Properties *)

(** ** Bytes *)

Lemma b8_to_N (n : N) : n < 256 -> Byte.to_N (b8 n) = n.
Proof.
  intros Hn. unfold b8. rewrite N.mod_small by exact Hn.
  destruct (Byte.of_N n) as [b|] eqn:E.
  - now apply Byte.to_of_N.
  - apply Byte.of_N_None_iff in E. lia.
Qed.

Lemma b8_of_to_N (b : byte) : b8 (Byte.to_N b) = b.
Proof.
  unfold b8. pose proof (Byte.to_N_bounded b) as Hb.
  rewrite N.mod_small by lia. now rewrite Byte.of_to_N.
Qed.

Lemma b8_eq (n : N) (b : byte) : n = Byte.to_N b -> b8 n = b.
Proof. intros ->. apply b8_of_to_N. Qed.

(** ** UTF-8 *)
Module Utf8Facts.
Import Utf8.

Ltac bools :=
  repeat match goal with
    | H : (_ <? _) = true |- _ => apply N.ltb_lt in H
    | H : (_ <? _) = false |- _ => apply N.ltb_ge in H
    | H : (_ <=? _) = true |- _ => apply N.leb_le in H
    | H : (_ <=? _) = false |- _ => apply N.leb_gt in H
    | H : (_ && _) = true |- _ => apply andb_true_iff in H; destruct H
    | H : (_ && _) = false |- _ => apply andb_false_iff in H; destruct H
    | H : negb _ = true |- _ => apply negb_true_iff in H
    | H : negb _ = false |- _ => apply negb_false_iff in H
    end.

(** Decide every comparison left in the goal by arithmetic. *)
Ltac cmp :=
  repeat match goal with
    | |- context [?a <? ?b] =>
        first [ replace (a <? b) with true by (symmetry; apply N.ltb_lt; nlia)
              | replace (a <? b) with false by (symmetry; apply N.ltb_ge; nlia) ]
    | |- context [?a <=? ?b] =>
        first [ replace (a <=? b) with true by (symmetry; apply N.leb_le; nlia)
              | replace (a <=? b) with false by (symmetry; apply N.leb_gt; nlia) ]
    end.

(** The same for equality tests. *)
Ltac cmp_eq :=
  repeat match goal with
    | |- context [?a =? ?b] =>
        first [ replace (a =? b) with true by (symmetry; apply N.eqb_eq; nlia)
              | replace (a =? b) with false by (symmetry; apply N.eqb_neq; nlia) ]
    end.

Lemma decode_encode_char (c : char) (e rest : bytes) :
  encode_char c = Some e ->
  decode (e ++ rest) = cons c <$> decode rest.
Proof.
  unfold encode_char, is_surrogate.
  repeat (case_match; try discriminate); intros [= <-]; bools;
    cbn [app decode]; unfold is_cont, cont, is_surrogate;
    rewrite ?b8_to_N by nlia; cmp; cbn [andb negb];
    try (f_equal; f_equal; nlia).
Qed.

(** Whatever [encode] produces, [decode] reads back. *)
Lemma decode_encode (s : str) (bs : bytes) :
  encode s = Some bs -> decode bs = Some s.
Proof.
  revert bs. induction s as [|c s IH]; intros bs; cbn [encode].
  - now intros [= <-].
  - destruct (encode_char c) as [e|] eqn:Ec; [|discriminate].
    destruct (encode s) as [r|] eqn:Er; [|discriminate].
    intros [= <-]. rewrite (decode_encode_char _ _ _ Ec), (IH r eq_refl).
    reflexivity.
Qed.

(** [encode] is defined exactly on text made of scalar values. *)
Lemma encode_total (s : str) :
  forallb is_scalar s = true -> exists bs, encode s = Some bs.
Proof.
  induction s as [|c s IH]; cbn [forallb encode]; intros H.
  - now eexists.
  - apply andb_true_iff in H as [Hc Hs]. destruct (IH Hs) as [r ->].
    unfold is_scalar in Hc. apply andb_true_iff in Hc as [Hlt Hsur].
    apply negb_true_iff in Hsur. unfold encode_char. rewrite Hsur, Hlt.
    repeat case_match; eauto.
Qed.

Lemma fmap_cons_Some (c : char) (o : option str) (s : str) :
  cons c <$> o = Some s -> exists s', o = Some s' /\ s = c :: s'.
Proof. destruct o; cbn; intros [= <-]; eauto. Qed.

(** The decoder accepts only the shortest form, so what it reads encodes
    back to the same bytes. *)
Lemma encode_decode_upto (n : nat) :
  forall (bs : bytes) (s : str),
    (length bs <= n)%nat -> decode bs = Some s -> encode s = Some bs.
Proof.
  induction n as [|n IH]; intros bs s Hlen.
  - destruct bs; [|cbn in Hlen; lia]. now intros [= <-].
  - destruct bs as [|b0 r0]; [now intros [= <-]|].
    cbn [decode]. cbn [length] in Hlen.
    pose proof (Byte.to_N_bounded b0) as B0.
    repeat (case_match; try discriminate); subst; cbn [length] in Hlen;
      intros (s' & Hd & ->)%fmap_cons_Some;
      apply IH in Hd; try lia;
      cbn [encode]; rewrite Hd; bools;
      unfold is_cont, cont, is_surrogate in *; bools;
      repeat match goal with
        | b : byte |- _ =>
            lazymatch goal with
            | _ : Byte.to_N b <= 255 |- _ => fail
            | _ => pose proof (Byte.to_N_bounded b)
            end
        end;
      unfold encode_char, is_surrogate; cmp; cbn [andb negb];
      cbn [app]; repeat f_equal; apply b8_eq; nlia.
Qed.

Lemma encode_decode (bs : bytes) (s : str) :
  decode bs = Some s -> encode s = Some bs.
Proof. apply (encode_decode_upto (length bs)). lia. Qed.

End Utf8Facts.

(** ** Base64 *)
Module Base64Facts.
Import Base64 Utf8Facts.

(** Induction three bytes at a time, the way the encoder consumes them. *)
Lemma triples_ind {A} (P : list A -> Prop) :
  P [] -> (forall a, P [a]) -> (forall a b, P [a; b]) ->
  (forall a b c l, P l -> P (a :: b :: c :: l)) ->
  forall l, P l.
Proof.
  intros H0 H1 H2 H3 l.
  assert (H : P l /\ (forall a, P (a :: l)) /\ (forall a b, P (a :: b :: l))).
  { induction l as [|x l (Hl & Hl1 & Hl2)]; repeat split; auto. }
  apply H.
Qed.

(** The wire form of sextet [i] under the URL-safe alphabet. *)
Definition wire (i : N) : byte :=
  urlsafe_decode_translation (urlsafe_encode_translation (table_b2a i)).

Lemma wire_spec (i : N) :
  i < 64 -> (Byte.to_N (wire i) =? PAD) = false /\ table_a2b (wire i) = Some i.
Proof.
  intros Hi. unfold wire, table_b2a, PAD.
  assert (Hw : forall b n, Byte.to_N b = n -> n <> 43 -> n <> 47 -> n <> 45 ->
            n <> 95 ->
            urlsafe_decode_translation (urlsafe_encode_translation b) = b).
  { intros b n <- ? ? ? ?.
    unfold urlsafe_encode_translation. cmp_eq.
    unfold urlsafe_decode_translation. now cmp_eq. }
  destruct (i <? 26) eqn:E1; [|destruct (i <? 52) eqn:E2;
    [|destruct (i <? 62) eqn:E3; [|destruct (i =? 62) eqn:E4]]]; bools.
  - rewrite (Hw _ (65 + i)) by (try apply b8_to_N; lia).
    unfold table_a2b. rewrite b8_to_N by lia. cmp. cbn [andb]. cmp_eq.
    split; [done|f_equal; lia].
  - rewrite (Hw _ (97 + (i - 26))) by (try apply b8_to_N; lia).
    unfold table_a2b. rewrite b8_to_N by lia. cmp. cbn [andb]. cmp_eq.
    split; [done|f_equal; lia].
  - rewrite (Hw _ (48 + (i - 52))) by (try apply b8_to_N; lia).
    unfold table_a2b. rewrite b8_to_N by lia. cmp. cbn [andb]. cmp_eq.
    split; [done|f_equal; lia].
  - apply N.eqb_eq in E4. subst i. now vm_compute.
  - apply N.eqb_neq in E4. assert (i = 63) as -> by lia. now vm_compute.
Qed.

Lemma pad_spec :
  Byte.to_N (urlsafe_decode_translation (urlsafe_encode_translation (b8 PAD)))
  = PAD.
Proof. reflexivity. Qed.

Lemma a2b_wire (i : N) (rest : bytes) (q l p : N) :
  i < 64 ->
  a2b_loop (wire i :: rest) q l p =
    if q =? 0 then a2b_loop rest 1 i 0
    else if q =? 1 then cons (b8 (l * 4 + i / 16)) <$> a2b_loop rest 2 (i mod 16) 0
    else if q =? 2 then cons (b8 (l * 16 + i / 4)) <$> a2b_loop rest 3 (i mod 4) 0
    else cons (b8 (l * 64 + i)) <$> a2b_loop rest 0 0 0.
Proof.
  intros Hi. destruct (wire_spec i Hi) as [Hp Hv].
  cbn [a2b_loop]. now rewrite Hp, Hv.
Qed.

(** Decoding an encoding gives the bytes back. *)
Lemma urlsafe_b64decode_encode (data : bytes) :
  urlsafe_b64decode (urlsafe_b64encode data) = Some data.
Proof.
  unfold urlsafe_b64decode, urlsafe_b64encode, a2b_base64.
  rewrite map_map. fold (map (fun b => urlsafe_decode_translation
                                        (urlsafe_encode_translation b))).
  induction data as [|a|a b|a b c data IH] using triples_ind;
    cbn [b2a_base64 map];
    try pose proof (Byte.to_N_bounded a);
    try pose proof (Byte.to_N_bounded b);
    try pose proof (Byte.to_N_bounded c);
    change (urlsafe_decode_translation (urlsafe_encode_translation
              (table_b2a ?i))) with (wire i);
    rewrite ?a2b_wire by nlia; cbn [N.eqb Pos.eqb a2b_loop];
    rewrite ?pad_spec, ?IH; unfold PAD; cmp; cbn [N.eqb Pos.eqb];
    cbn [fmap option_fmap option_map]; repeat f_equal;
    apply b8_eq; nlia.
Qed.

End Base64Facts.

(** ** SHA-256 *)
Module SHA256Facts.
Import SHA256.

Definition hex (bs : bytes) : list N := map Byte.to_N bs.

(** The digests of the empty message and of ["abc"] (FIPS 180-4, B.1). *)
Example sha256_empty :
  hex (sha256 []) =
  [0xe3;0xb0;0xc4;0x42;0x98;0xfc;0x1c;0x14;0x9a;0xfb;0xf4;0xc8;0x99;0x6f;0xb9;0x24;
   0x27;0xae;0x41;0xe4;0x64;0x9b;0x93;0x4c;0xa4;0x95;0x99;0x1b;0x78;0x52;0xb8;0x55].
Proof. vm_compute. reflexivity. Qed.

Example sha256_abc :
  hex (sha256 (pyb "abc")) =
  [0xba;0x78;0x16;0xbf;0x8f;0x01;0xcf;0xea;0x41;0x41;0x40;0xde;0x5d;0xae;0x22;0x23;
   0xb0;0x03;0x61;0xa3;0x96;0x17;0x7a;0x9c;0xb4;0x10;0xff;0x61;0xf2;0x00;0x15;0xad].
Proof. vm_compute. reflexivity. Qed.

Lemma sha256_length (msg : bytes) : length (sha256 msg) = 32%nat.
Proof. reflexivity. Qed.

End SHA256Facts.

(** ** The encryption contract *)

#[global] Instance ref_cipher_laws : CipherLaws ref_cipher.
Proof.
  split.
  - intros salt iterations password.
    exact (SHA256Facts.sha256_length (salt ++ password)).
  - intros key entropy data _. cbn. unfold ref_decrypt, ref_encrypt.
    rewrite bool_decide_eq_true_2 by (split; [done|apply take_app_length]).
    now rewrite drop_app_length.
  - intros k1 k2 entropy data H1 H2 Hne. cbn. unfold ref_decrypt, ref_encrypt.
    rewrite bool_decide_eq_false_2; [done|].
    intros [_ Ht]. rewrite H2, <- H1, take_app_length in Ht. done.
Qed.

Module EncryptionFacts.
Import Base64 Base64Facts Utf8Facts.

Lemma b64_char_ascii (i : N) :
  Byte.to_N (urlsafe_encode_translation (table_b2a i)) < 128.
Proof.
  unfold urlsafe_encode_translation, table_b2a.
  repeat case_match; bools; rewrite ?b8_to_N in * by lia;
    rewrite ?b8_to_N by lia; try lia;
    repeat match goal with H : (_ =? _) = _ |- _ => clear H end;
    now vm_compute.
Qed.

Lemma b64_ascii (data : bytes) :
  Forall (fun b => Byte.to_N b < 128) (urlsafe_b64encode data).
Proof.
  unfold urlsafe_b64encode.
  induction data as [|a|a b|a b c data IH] using triples_ind;
    cbn [b2a_base64 map];
    repeat (apply Forall_cons; split); try apply b64_char_ascii;
    try apply Forall_nil; try exact IH; now vm_compute.
Qed.

Lemma decode_ascii (bs : bytes) :
  Forall (fun b => Byte.to_N b < 128) bs ->
  Utf8.decode bs = Some (map Byte.to_N bs).
Proof.
  induction 1 as [|b bs Hb _ IH]; [done|].
  cbn [Utf8.decode map]. apply N.ltb_lt in Hb. now rewrite Hb, IH.
Qed.

(** The text form of a ciphertext, and its way back to bytes. *)
Lemma b64_text (data : bytes) :
  exists c, bytes_decode (urlsafe_b64encode data) = Ret c
            /\ Utf8.encode c = Some (urlsafe_b64encode data).
Proof.
  exists (map Byte.to_N (urlsafe_b64encode data)).
  pose proof (decode_ascii _ (b64_ascii data)) as Hd.
  unfold bytes_decode. rewrite Hd. split; [done|].
  now apply encode_decode.
Qed.

Lemma Fernet_b64 {C : Cipher} (raw : bytes) :
  length raw = 32%nat -> Fernet (urlsafe_b64encode raw) = Ret raw.
Proof.
  intros Hl. unfold Fernet. now rewrite urlsafe_b64decode_encode, Hl.
Qed.

Lemma urlsafe_b64encode_inj (x y : bytes) :
  urlsafe_b64encode x = urlsafe_b64encode y -> x = y.
Proof.
  intros H. apply (f_equal urlsafe_b64decode) in H.
  rewrite !urlsafe_b64decode_encode in H. congruence.
Qed.

(** A derived key is the URL-safe text of 32 raw bytes. *)
Lemma derived_key_raw {C : Cipher} {L : CipherLaws C} (ca : bool) (h : Host) (k : bytes) :
  _generate_encryption_key ca h = Ret k ->
  exists raw, length raw = 32%nat /\ k = urlsafe_b64encode raw.
Proof.
  unfold _generate_encryption_key.
  destruct (str_encode (identifier h)) as [ident| |]; try discriminate.
  destruct ca; [|discriminate].
  intros [= <-]. eexists. split; [apply pbkdf2_length|reflexivity].
Qed.

Lemma str_encode_text (t : str) :
  forallb Utf8.is_scalar t = true ->
  exists data, str_encode t = Ret data /\ Utf8.decode data = Some t.
Proof.
  intros Ht. destruct (encode_total t Ht) as [data Hd].
  exists data. unfold str_encode. rewrite Hd. split; [done|].
  now apply decode_encode.
Qed.

End EncryptionFacts.

(** What the fallback mode does: nothing. Key derivation and encryption
    raise [NameError] at the first use of [base64], and decryption turns
    its own [NameError] into [None]. *)
Lemma fallback_key (C : Cipher) (h : Host) :
  forallb Utf8.is_scalar (identifier h) = true ->
  _generate_encryption_key false h = Raise NameError.
Proof.
  intros Ht. destruct (EncryptionFacts.str_encode_text _ Ht) as (ident & Hi & _).
  unfold _generate_encryption_key. now rewrite Hi.
Qed.

Lemma fallback_key_never (C : Cipher) (h : Host) (k : bytes) :
  _generate_encryption_key false h <> Ret k.
Proof.
  unfold _generate_encryption_key.
  now destruct (str_encode (identifier h)).
Qed.

(** C1. The round-trip law holds where the code can encrypt, which is the
    strong-cipher mode only. There, for a token [t] of at least 30
    characters on a host [h] whose identifier tuple is text, a key is
    derived, whatever [_encrypt_token] returns for [t] is turned back into
    exactly [t] by [_decrypt_token] under the same tuple, and a ciphertext
    is returned for every [t] that is text. In the fallback mode the law has
    no instance: [base64] is bound only by the import that failed, so key
    derivation and encryption raise [NameError] for every token, and
    decryption returns [None] for every ciphertext. *)
Theorem roundtrip_only_in_strong_mode {C : Cipher} {L : CipherLaws C}
    (h : Host) (entropy : bytes) (t : str) :
  (30 <= length t)%nat ->
  forallb Utf8.is_scalar (identifier h) = true ->
  ((exists k, _generate_encryption_key true h = Ret k)
   /\ (forall c, _encrypt_token true h entropy t = Ret c ->
                 _decrypt_token true h c = Some t)
   /\ (forallb Utf8.is_scalar t = true ->
       exists c, _encrypt_token true h entropy t = Ret c))
  /\ (_generate_encryption_key false h = Raise NameError
      /\ _encrypt_token false h entropy t = Raise NameError
      /\ (forall c, _decrypt_token false h c = None)
      /\ (forall c, _decrypt_token false h c <> Some t)).
Proof.
  intros _ Hh. split.
  - destruct (EncryptionFacts.str_encode_text _ Hh) as (ident & Hi & _).
    assert (exists k, _generate_encryption_key true h = Ret k) as [k Hk].
    { unfold _generate_encryption_key. rewrite Hi. now eexists. }
    split; [now exists k|].
    destruct (EncryptionFacts.derived_key_raw _ _ _ Hk) as (raw & Hraw & ->).
    unfold _encrypt_token, _decrypt_token. rewrite Hk.
    rewrite (EncryptionFacts.Fernet_b64 raw Hraw). split.
    + intros c. unfold str_encode.
      destruct (Utf8.encode t) as [data|] eqn:Hdata; [|discriminate].
      apply Utf8Facts.decode_encode in Hdata.
      destruct (EncryptionFacts.b64_text (fernet_encrypt raw entropy data))
        as (c' & Hc & Henc).
      rewrite Hc. intros [= <-]. cbn [to_option].
      rewrite (EncryptionFacts.Fernet_b64 raw Hraw). cbn [to_option].
      rewrite Henc, Base64Facts.urlsafe_b64decode_encode.
      now rewrite (fernet_correct raw entropy data Hraw).
    + intros Ht.
      destruct (EncryptionFacts.str_encode_text t Ht) as (data & Hdata & _).
      rewrite Hdata.
      destruct (EncryptionFacts.b64_text (fernet_encrypt raw entropy data))
        as (c & Hc & _).
      now exists c.
  - split; [now apply fallback_key|]. repeat split. discriminate.
Qed.

Lemma roundtrip_only_in_strong_mode_witness :
  (exists c, _encrypt_token (C := ref_cipher) true host_a [] token_x40 = Ret c
             /\ _decrypt_token (C := ref_cipher) true host_a c = Some token_x40)
  /\ _encrypt_token (C := ref_cipher) false host_a [] token_x40
     = Raise NameError.
Proof.
  destruct (roundtrip_only_in_strong_mode (C := ref_cipher) host_a []
              token_x40) as [(_ & Hback & Hsome) (_ & Hfail & _)].
  - vm_compute; lia.
  - vm_compute; reflexivity.
  - split; [|exact Hfail].
    destruct Hsome as [c Hc]; [vm_compute; reflexivity|].
    exists c. split; [exact Hc|exact (Hback c Hc)].
Defined.



(** ** Legacy extraction *)
Module LegacyFacts.
Import PyStr.

Lemma split1_first (sep : char) (a b : str) :
  Forall (fun c => c <> sep) a -> split1 sep (a ++ sep :: b) = Some (a, b).
Proof.
  induction 1 as [|c a Hc _ IH]; cbn [app split1].
  - now rewrite N.eqb_refl.
  - apply N.eqb_neq in Hc. now rewrite Hc, IH.
Qed.

Lemma split1_export (value : str) :
  split1 EQUALS (EXPORT_PREFIX ++ value)
  = Some (py "export QUIP_API_TOKEN", value).
Proof.
  change EXPORT_PREFIX with (py "export QUIP_API_TOKEN" ++ [EQUALS]).
  rewrite <- app_assoc. apply split1_first.
  apply (bool_decide_eq_true_1 _). vm_compute. reflexivity.
Qed.

(** A value between two quote characters is left alone by [strip], is
    seen as quoted, and loses exactly the two quotes. *)
Lemma strip_wrapped (q : char) (m : str) :
  isspace q = false -> strip (q :: m ++ [q]) = q :: m ++ [q].
Proof.
  intros Hq. unfold strip, rstrip. cbn [lstrip]. rewrite Hq.
  change (q :: m ++ [q]) with ([q] ++ m ++ [q]).
  rewrite !rev_app_distr. cbn [rev app lstrip]. rewrite Hq.
  cbn [rev]. now rewrite rev_app_distr, rev_involutive.
Qed.

Lemma wrapped_starts_ends (q : char) (m : str) :
  startswith [q] (q :: m ++ [q]) && endswith [q] (q :: m ++ [q]) = true.
Proof.
  unfold endswith. change (q :: m ++ [q]) with ([q] ++ m ++ [q]).
  rewrite !rev_app_distr. cbn. now rewrite N.eqb_refl.
Qed.

Lemma slice_wrapped (q : char) (m : str) : slice_1_m1 (q :: m ++ [q]) = m.
Proof. unfold slice_1_m1. cbn [tl]. apply removelast_last. Qed.

(** The text between the quotes, as the three branches compute it. *)
Definition unquote (token_part : str) : str :=
  if startswith DQUOTE token_part && endswith DQUOTE token_part
  then slice_1_m1 token_part
  else if startswith SQUOTE token_part && endswith SQUOTE token_part
  then slice_1_m1 token_part
  else token_part.

(** The accepted spellings of a token [tok] after the export prefix. *)
Inductive value_of (tok : str) : str -> Prop :=
| double_quoted : value_of tok (DQUOTE ++ tok ++ DQUOTE)
| single_quoted : value_of tok (SQUOTE ++ tok ++ SQUOTE)
| unquoted :
    strip tok = tok -> unquote tok = tok -> value_of tok tok.

Lemma value_of_unquote (tok v : str) :
  value_of tok v -> unquote (strip v) = tok.
Proof.
  destruct 1 as [| |Hs Hu].
  - cbn [app DQUOTE]. rewrite strip_wrapped by reflexivity.
    unfold unquote, DQUOTE. now rewrite wrapped_starts_ends, slice_wrapped.
  - cbn [app SQUOTE]. rewrite strip_wrapped by reflexivity.
    unfold unquote.
    change (startswith DQUOTE (39 :: tok ++ [39])) with false. cbn [andb].
    unfold SQUOTE. now rewrite wrapped_starts_ends, slice_wrapped.
  - now rewrite Hs.
Qed.

(** What [_extract_token_from_line] returns on an export statement: the
    unquoted value when it is longer than 30 characters, nothing
    otherwise. *)
Lemma extract_export (tok v : str) :
  value_of tok v ->
  _extract_token_from_line (EXPORT_PREFIX ++ v)
  = if (30 <? length tok)%nat then Some tok else None.
Proof.
  intros Hv. unfold _extract_token_from_line. rewrite split1_export.
  fold (unquote (strip v)). rewrite (value_of_unquote _ _ Hv).
  destruct (30 <? length tok)%nat eqn:Hlen; [|now rewrite andb_false_r].
  destruct tok; [discriminate|]. reflexivity.
Qed.

Lemma is_export_prefix (line v : str) :
  strip line = EXPORT_PREFIX ++ v -> is_export line = true.
Proof. unfold is_export. intros ->. reflexivity. Qed.

Lemma scan_no_sentinel (lines : text) :
  Forall (fun l => is_sentinel l = false) lines -> scan_lines lines = None.
Proof. induction 1 as [|l ls Hl _ IH]; cbn [scan_lines]; [done|]. now rewrite Hl. Qed.

Lemma scan_skip (pre rest : text) :
  Forall (fun l => is_sentinel l = false) pre ->
  scan_lines (pre ++ rest) = scan_lines rest.
Proof. induction 1 as [|l ls Hl _ IH]; cbn [scan_lines app]; [done|]. now rewrite Hl. Qed.

(** The scan of a file whose first sentinel line is followed by an export
    statement for [tok]. *)
Lemma scan_pattern (pre post : text) (s e tok v : str) :
  Forall (fun l => is_sentinel l = false) pre ->
  is_sentinel s = true ->
  strip e = EXPORT_PREFIX ++ v ->
  value_of tok v ->
  scan_lines (pre ++ s :: e :: post)
  = if (30 <? length tok)%nat then Some tok else scan_lines (e :: post).
Proof.
  intros Hpre Hs He Hv. rewrite (scan_skip _ _ Hpre).
  cbn [scan_lines]. rewrite Hs, (is_export_prefix _ _ He), He.
  rewrite (extract_export _ _ Hv). now destruct (30 <? length tok)%nat.
Qed.

End LegacyFacts.

(** ** Cleanup of one file *)
Module CleanupFacts.
Import PyStr.

Lemma sentinel_not_export (l : str) :
  is_sentinel l = true -> is_export l = false.
Proof.
  unfold is_sentinel, is_export, eqb.
  intros H%bool_decide_eq_true_1. now rewrite H.
Qed.

(** The loop is at a point where the previous line, if it was a sentinel
    line, has already taken its export line with it. *)
Definition settled (prev : option str) (lines : text) : Prop :=
  match prev, lines with
  | Some p, x :: _ => is_sentinel p = true -> is_export x = false
  | _, _ => True
  end.

Lemma cleanup_kept_upto (n : nat) :
  forall (prev : option str) (lines : text),
    (length lines <= n)%nat -> settled prev lines ->
    cleanup_lines lines = kept_lines prev lines.
Proof.
  induction n as [|n IH]; intros prev lines Hn Hs.
  - destruct lines; [done|cbn in Hn; lia].
  - destruct lines as [|line rest]; [done|].
    cbn [length] in Hn. cbn [cleanup_lines kept_lines]. unfold dropped.
    destruct (is_sentinel line) eqn:Hl; cbn [orb].
    + destruct rest as [|next rest']; [done|].
      cbn [length] in Hn. cbn [kept_lines]. unfold dropped. rewrite Hl.
      destruct (is_export next) eqn:He.
      * rewrite orb_true_r. apply IH; [lia|].
        destruct rest'; unfold settled; [done|]. intros Hx.
        apply sentinel_not_export in Hx. congruence.
      * rewrite andb_false_l, orb_false_r.
        rewrite (IH (Some line) (next :: rest'));
          [|cbn [length]; lia|now unfold settled].
        cbn [kept_lines]. unfold dropped. now rewrite Hl, He, orb_false_r.
    + assert (is_export line &&
              match prev with Some p => is_sentinel p | None => false end
              = false) as ->.
      { destruct prev as [p|]; [|apply andb_false_r].
        destruct (is_sentinel p) eqn:Hp; [|apply andb_false_r].
        unfold settled in Hs. now rewrite (Hs Hp). }
      f_equal. apply IH; [lia|].
      destruct rest; unfold settled; [done|]. congruence.
Qed.

Lemma cleanup_kept (lines : text) :
  cleanup_lines lines = kept_lines None lines.
Proof. apply (cleanup_kept_upto (length lines)); [lia|]. now destruct lines. Qed.

Lemma cleanup_skip (pre rest : text) :
  Forall (fun l => is_sentinel l = false) pre ->
  cleanup_lines (pre ++ rest) = pre ++ cleanup_lines rest.
Proof.
  induction 1 as [|l ls Hl _ IH]; cbn [cleanup_lines app]; [done|].
  now rewrite Hl, IH.
Qed.

Lemma cleanup_clean (lines : text) :
  Forall (fun l => is_sentinel l = false) lines ->
  cleanup_lines lines = lines.
Proof.
  intros H. rewrite <- (app_nil_r lines) at 1.
  rewrite (cleanup_skip _ _ H). cbn. apply app_nil_r.
Qed.

(** Nothing that looks like a sentinel line survives. *)
Lemma cleanup_no_sentinel_upto (n : nat) :
  forall lines : text,
    (length lines <= n)%nat ->
    Forall (fun l => is_sentinel l = false) (cleanup_lines lines).
Proof.
  induction n as [|n IH]; intros lines Hn.
  - destruct lines; [constructor|cbn in Hn; lia].
  - destruct lines as [|line rest]; [constructor|].
    cbn [length] in Hn. cbn [cleanup_lines].
    destruct (is_sentinel line) eqn:Hl.
    + destruct rest as [|next rest']; [constructor|]. cbn [length] in Hn.
      destruct (is_export next); apply IH; cbn [length]; lia.
    + constructor; [done|]. apply IH. lia.
Qed.

End CleanupFacts.

(** With two entries in a file, the rewrite removes both, not only the
    first: the second sentinel line and its export line are gone too. *)
Lemma cleanup_removes_second_entry :
  exists s e post,
    rc_two_entries = s :: e :: post /\
    is_sentinel s = true /\ is_export e = true /\
    cleanup_lines rc_two_entries <> post /\
    cleanup_lines rc_two_entries = [nl (py "alias ll=ls")].
Proof.
  do 3 eexists. split; [reflexivity|].
  repeat split; try (vm_compute; reflexivity).
  vm_compute. discriminate.
Qed.

(** C5, as the code has it. The rewrite of a file drops every sentinel
    line, and with it the next line when that line is an export statement
    of the token variable; all other lines stay, in order and unchanged, and
    no sentinel line is left. When the file holds a single sentinel line,
    followed by the export statement, exactly that pair is removed. *)
Theorem cleanup_removes_every_entry (lines : text) :
  cleanup_lines lines = kept_lines None lines
  /\ Forall (fun l => is_sentinel l = false) (cleanup_lines lines)
  /\ forall (pre post : text) (s e : str),
       lines = pre ++ s :: e :: post ->
       Forall (fun l => is_sentinel l = false) (pre ++ post) ->
       is_sentinel s = true -> is_export e = true ->
       cleanup_lines lines = pre ++ post.
Proof.
  split; [apply CleanupFacts.cleanup_kept|].
  split; [apply (CleanupFacts.cleanup_no_sentinel_upto (length lines)); lia|].
  intros pre post s e -> [Hpre Hpost]%Forall_app Hs He.
  rewrite (CleanupFacts.cleanup_skip _ _ Hpre). cbn [cleanup_lines].
  now rewrite Hs, He, (CleanupFacts.cleanup_clean _ Hpost).
Qed.

Lemma cleanup_removes_every_entry_witness :
  cleanup_lines (nl (py "export EDITOR=vi") :: firstn 3 rc_two_entries)
  = [nl (py "export EDITOR=vi"); nl (py "alias ll=ls")].
Proof.
  apply (proj2 (proj2 (cleanup_removes_every_entry _))
           [nl (py "export EDITOR=vi")] [nl (py "alias ll=ls")]
           (nl SENTINEL)
           (nl (EXPORT_PREFIX ++ DQUOTE ++ token_x40 ++ DQUOTE)));
    vm_compute; repeat constructor.
Defined.

(** ** Remote validation *)
Module ValidationFacts.

(** What a call that only talks to the network leaves alone. *)
Record network_only (st st' : State) : Prop := {
  keeps_config : config_file st' = config_file st;
  keeps_writable : config_writable st' = config_writable st;
  keeps_shell : shell_files st' = shell_files st;
  keeps_stdin : stdin st' = stdin st;
  keeps_draws : draws st' = draws st;
  keeps_probes : probes st' = probes st
}.

Lemma network_only_refl (st : State) : network_only st st.
Proof. now split. Qed.

Lemma network_only_trans (a b c : State) :
  network_only a b -> network_only b c -> network_only a c.
Proof. intros [] []. split; congruence. Qed.

Section WithEnv.
Context (env : Env).

Lemma attempts_and_sleeps_app (a b : list event) :
  attempts_and_sleeps (a ++ b) = attempts_and_sleeps a ++ attempts_and_sleeps b.
Proof. apply List.filter_app. Qed.

(** The schedule from attempt [attempt] (0-based) on, [remaining] to go. *)
Definition schedule_from (token : str) (attempt remaining : nat) : list event :=
  match remaining with
  | O => []
  | S n =>
      EvRequest token
        :: flat_map (fun i => [EvSleep (i * 2); EvRequest token])
                    (seq (S attempt) n)
  end.

Lemma validate_attempts_transient (token : str) (max_retries : nat)
    (diagnose_mode : bool) :
  forall (remaining attempt : nat) (st : State),
    (attempt + remaining = max_retries)%nat ->
    (forall i, (i < remaining)%nat ->
       exists message,
         api env (api_calls st + i) token = ApiRaise message
         /\ transient message) ->
    (diagnose_mode && client_has_request env = true ->
     forall i, (i < remaining)%nat ->
       has_identity (direct env (direct_calls st + i) token) = false) ->
    exists st',
      validate_attempts env remaining attempt max_retries diagnose_mode
                        token st = (Ret None, st')
      /\ api_calls st' = (api_calls st + remaining)%nat
      /\ attempts_and_sleeps (trace st')
         = attempts_and_sleeps (trace st)
           ++ schedule_from token attempt remaining
      /\ network_only st st'.
Proof.
  induction remaining as [|remaining IH]; intros attempt st Hsum Hapi Hdir.
  - exists st. cbn. rewrite Nat.add_0_r, app_nil_r.
    repeat split.
  - destruct (Hapi 0%nat ltac:(lia)) as (message & Hm & Ht).
    rewrite Nat.add_0_r in Hm. unfold transient in Ht.
    cbn [validate_attempts]. unfold bind at 1.
    set (d := diagnose_mode && client_has_request env) in *.
    assert (Hearly : exists st1,
               (if d then direct_request env token else ret None) st
               = (Ret (if d then direct env (direct_calls st) token else None),
                  st1)
               /\ api_calls st1 = api_calls st
               /\ direct_calls st1
                  = (if d then S (direct_calls st) else direct_calls st)
               /\ attempts_and_sleeps (trace st1)
                  = attempts_and_sleeps (trace st)
               /\ network_only st st1).
    { destruct d.
      - eexists. unfold direct_request. split; [reflexivity|].
        cbn. rewrite attempts_and_sleeps_app, app_nil_r.
        repeat split.
      - exists st. repeat split. }
    destruct Hearly as (st1 & -> & Hc1 & Hd1 & Ht1 & Hn1).
    assert (d && has_identity (if d then direct env (direct_calls st) token
                               else None) = false) as ->.
    { destruct d eqn:Hd; [|reflexivity].
      specialize (Hdir eq_refl 0%nat ltac:(lia)).
      rewrite Nat.add_0_r in Hdir. now rewrite Hdir. }
    unfold bind at 1, api_request. rewrite Hc1, Hm, Ht.
    destruct remaining as [|remaining].
    + replace (attempt <? max_retries - 1)%nat with false
        by (symmetry; apply Nat.ltb_ge; lia).
      eexists. split; [reflexivity|]. cbn [api_calls count_api trace].
      rewrite attempts_and_sleeps_app, Ht1.
      split; [lia|]. split; [reflexivity|].
      eapply network_only_trans; [exact Hn1|]. now split.
    + replace (attempt <? max_retries - 1)%nat with true
        by (symmetry; apply Nat.ltb_lt; lia).
      unfold bind at 1, sleep.
      edestruct (IH (S attempt)
                    (log (EvSleep ((attempt + 1) * 2))
                         (count_api [EvRequest token] st1)))
        as (st' & Hrun & Hcalls & Htrace & Hnet).
      * lia.
      * intros i Hi. cbn [api_calls log count_api]. rewrite Hc1.
        replace (S (api_calls st) + i)%nat with (api_calls st + S i)%nat
          by lia.
        apply Hapi. lia.
      * intros Hd i Hi. cbn [direct_calls log count_api]. rewrite Hd1.
        fold d in Hd. rewrite Hd.
        replace (S (direct_calls st) + i)%nat
          with (direct_calls st + S i)%nat by lia.
        apply Hdir; [exact Hd|lia].
      * exists st'. split; [exact Hrun|].
        cbn [api_calls log count_api trace] in Hcalls, Htrace.
        split; [rewrite Hcalls, Hc1; lia|]. split.
        { rewrite Htrace, !attempts_and_sleeps_app, Ht1.
          cbn [schedule_from seq flat_map app attempts_and_sleeps List.filter].
          rewrite <- !app_assoc. cbn [app].
          now replace (S attempt * 2)%nat with ((attempt + 1) * 2)%nat by lia. }
        eapply network_only_trans; [exact Hn1|].
        destruct Hnet. now split.
Qed.

(** Whatever the network answers, a validation returns (it neither
    raises nor runs out of turns), touches nothing but the network
    counters and the trace, and what it returns, if anything, is a
    user record with an identifier. *)
Lemma validate_attempts_returns (token : str) (max_retries : nat)
    (diagnose_mode : bool) :
  forall (remaining attempt : nat) (st : State),
    exists r st',
      validate_attempts env remaining attempt max_retries diagnose_mode
                        token st = (Ret r, st')
      /\ network_only st st'
      /\ (r = None \/ has_identity r = true).
Proof.
  induction remaining as [|remaining IH]; intros attempt st.
  - exists None, st. repeat split. now left.
  - cbn [validate_attempts]. unfold bind at 1.
    set (d := diagnose_mode && client_has_request env).
    assert (Hearly : exists early st1,
               (if d then direct_request env token else ret None) st
               = (Ret early, st1) /\ network_only st st1).
    { destruct d; do 2 eexists; (split; [reflexivity|]); now split. }
    destruct Hearly as (early & st1 & -> & Hn1).
    destruct (d && has_identity early) eqn:Hd.
    + exists early, st1. repeat split; try apply Hn1.
      right. now apply andb_true_iff in Hd.
    + unfold bind at 1, api_request.
      set (st2 := count_api [EvRequest token] st1).
      assert (Hn2 : network_only st st2).
      { eapply network_only_trans; [exact Hn1|]. now split. }
      destruct (api env (api_calls st1) token) as [user_info|message].
      * destruct (has_identity user_info) eqn:Hid.
        -- exists user_info, st2. repeat split; try apply Hn2. now right.
        -- exists None, st2. repeat split; try apply Hn2. now left.
      * destruct (any_keyword TRANSIENT_KEYWORDS (PyStr.lower message)).
        -- destruct (attempt <? max_retries - 1)%nat.
           ++ unfold bind at 1, sleep.
              destruct (IH (S attempt)
                           (log (EvSleep ((attempt + 1) * 2)) st2))
                as (r & st' & Hrun & Hnet & Hr).
              exists r, st'. split; [exact Hrun|]. split; [|exact Hr].
              eapply network_only_trans; [exact Hn2|].
              destruct Hnet. now split.
           ++ exists None, st2. repeat split; try apply Hn2. now left.
        -- exists None, st2.
           destruct (any_keyword AUTH_KEYWORDS (PyStr.lower message));
             repeat split; try apply Hn2; now left.
Qed.

Lemma validate_returns (token : str) (max_retries : nat)
    (diagnose_mode : bool) (st : State) :
  exists r st',
    _validate_token env token max_retries diagnose_mode st = (Ret r, st')
    /\ network_only st st'
    /\ (r = None \/ has_identity r = true).
Proof.
  unfold _validate_token.
  destruct (PyStr.eqb token [] || (length token <? 30)%nat).
  - exists None, st. repeat split. now left.
  - apply validate_attempts_returns.
Qed.

End WithEnv.
End ValidationFacts.

(** C6. Retry boundary: for a token of at least 30 characters, when every
    attempt meets a transient-classified error, [_validate_token] makes
    exactly [max_retries] requests, pauses [attempt_index * 2] seconds after
    the attempt with 1-based index [attempt_index] (2, 4, ... seconds between
    consecutive attempts, none after the last), and returns [None]; it does
    not raise. In diagnose mode the direct request that precedes each attempt
    is assumed not to succeed either. *)
Theorem validate_transient_exhausts_retries (env : Env)
    (token : str) (max_retries : nat) (diagnose_mode : bool) (st : State) :
  (30 <= length token)%nat ->
  (forall i, (i < max_retries)%nat ->
     exists message,
       api env (api_calls st + i) token = ApiRaise message /\ transient message) ->
  (diagnose_mode && client_has_request env = true ->
   forall i, (i < max_retries)%nat ->
     has_identity (direct env (direct_calls st + i) token) = false) ->
  exists st',
    _validate_token env token max_retries diagnose_mode st = (Ret None, st')
    /\ api_calls st' = (api_calls st + max_retries)%nat
    /\ attempts_and_sleeps (trace st')
       = attempts_and_sleeps (trace st) ++ retry_schedule token max_retries.
Proof.
  intros Hlen Hapi Hdir. unfold _validate_token.
  assert (PyStr.eqb token [] || (length token <? 30)%nat = false) as ->.
  { apply orb_false_iff. split.
    - destruct token; [cbn in Hlen; lia|reflexivity].
    - apply Nat.ltb_ge. exact Hlen. }
  destruct (ValidationFacts.validate_attempts_transient env token max_retries
              diagnose_mode max_retries 0%nat st eq_refl Hapi Hdir)
    as (st' & Hrun & Hcalls & Htrace & _).
  exists st'. repeat split; assumption.
Qed.

Lemma validate_transient_exhausts_retries_witness :
  exists st',
    _validate_token env_offline token_x40 3 false st_empty
    = (Ret None, st')
    /\ api_calls st' = 3%nat
    /\ attempts_and_sleeps (trace st')
       = [EvRequest token_x40; EvSleep 2; EvRequest token_x40; EvSleep 4;
          EvRequest token_x40].
Proof.
  apply (validate_transient_exhausts_retries env_offline
           token_x40 3 false st_empty).
  - vm_compute; lia.
  - intros i _. eexists. split; [reflexivity|]. vm_compute; reflexivity.
  - discriminate.
Defined.

(** ** Frames: what a computation leaves alone *)
Module Frame.

(** [m] never changes the component [proj] of the state, however it
    ends. *)
Definition preserves {A X} (proj : State -> X) (m : M A) : Prop :=
  forall st, proj (snd (m st)) = proj st.

Section Rules.
Context {X : Type} (proj : State -> X).

Lemma preserves_ret {A} (a : A) : preserves proj (ret a).
Proof. now intros st. Qed.

Lemma preserves_raise {A} (e : exn) : preserves proj (@raise A e).
Proof. now intros st. Qed.

Lemma preserves_out_of_fuel {A} : preserves proj (@out_of_fuel A).
Proof. now intros st. Qed.

Lemma preserves_bind {A B} (m : M A) (k : A -> M B) :
  preserves proj m -> (forall a, preserves proj (k a)) ->
  preserves proj (bind m k).
Proof.
  intros Hm Hk st. unfold bind. specialize (Hm st).
  destruct (m st) as [[a|e|] st1]; cbn [snd] in *; try exact Hm.
  now rewrite (Hk a st1).
Qed.

Lemma preserves_try {A} (m : M A) (h : exn -> M A) :
  preserves proj m -> (forall e, preserves proj (h e)) ->
  preserves proj (try_except m h).
Proof.
  intros Hm Hh st. unfold try_except. specialize (Hm st).
  destruct (m st) as [[a|e|] st1]; cbn [snd] in *; try exact Hm.
  destruct (is_Exception e); cbn [snd]; [|exact Hm].
  now rewrite (Hh e st1).
Qed.

Lemma preserves_if {A} (b : bool) (m1 m2 : M A) :
  preserves proj m1 -> preserves proj m2 ->
  preserves proj (if b then m1 else m2).
Proof. now destruct b. Qed.

End Rules.

Lemma preserves_ext {A X} (proj : State -> X) (m m' : M A) :
  (forall st, m st = m' st) -> preserves proj m -> preserves proj m'.
Proof. intros He Hm st. rewrite <- He. apply Hm. Qed.

End Frame.

(** ** Prompts *)
Module PromptFacts.

(** The ways a prompt fails: the input ends, or the user interrupts. *)
Definition prompt_failure (e : exn) : Prop := e = EOFError \/ e = SystemExit 1.

Lemma with_stdin_twice (a b : list stdin_event) (st : State) :
  with_stdin a (with_stdin b st) = with_stdin a st.
Proof. reflexivity. Qed.

Lemma with_stdin_same (st : State) : with_stdin (stdin st) st = st.
Proof. now destruct st. Qed.

Lemma input_loop_spec (required : bool) (inp : list stdin_event) :
  match input_loop required inp with
  | (Ret _, rest) => (length rest < length inp)%nat
  | (Raise e, rest) => prompt_failure e /\ (length rest <= length inp)%nat
  | (OutOfFuel, _) => False
  end.
Proof.
  induction inp as [|[l|] inp IH]; cbn [input_loop length].
  - split; [now left|lia].
  - destruct (negb (PyStr.eqb (PyStr.strip l) []) || negb required); [lia|].
    destruct (input_loop required inp) as [[v|e|] rest]; [lia| |done].
    destruct IH. split; [done|lia].
  - split; [now right|lia].
Qed.

(** A run that reads input and changes nothing else. *)
Definition reads_only (st st' : State) : Prop :=
  st' = with_stdin (stdin st') st /\ (length (stdin st') <= length (stdin st))%nat.

Lemma reads_only_refl (st : State) : reads_only st st.
Proof. split; [now rewrite with_stdin_same|lia]. Qed.

Lemma reads_only_trans (a b c : State) :
  reads_only a b -> reads_only b c -> reads_only a c.
Proof.
  intros [Hab Lab] [Hbc Lbc]. split; [|lia].
  rewrite Hbc at 1. rewrite Hab. apply with_stdin_twice.
Qed.

Lemma get_user_input_spec (required : bool) (st : State) :
  match get_user_input required st with
  | (Ret _, st') => reads_only st st' /\ (length (stdin st') < length (stdin st))%nat
  | (Raise e, st') => prompt_failure e /\ reads_only st st'
  | (OutOfFuel, _) => False
  end.
Proof.
  unfold get_user_input. pose proof (input_loop_spec required (stdin st)) as H.
  destruct (input_loop required (stdin st)) as [[v|e|] rest]; [| |done].
  - split; [|exact H]. split; [reflexivity|cbn; lia].
  - destruct H. split; [done|]. split; [reflexivity|cbn; lia].
Qed.

Lemma choice_loop_spec (choices : list str) (default : str) :
  forall (fuel : nat) (st : State),
    (length (stdin st) < fuel)%nat ->
    match choice_loop fuel choices default st with
    | (Ret _, st') => reads_only st st'
    | (Raise e, st') => prompt_failure e /\ reads_only st st'
    | (OutOfFuel, _) => False
    end.
Proof.
  induction fuel as [|fuel IH]; intros st Hfuel; [lia|].
  cbn [choice_loop]. unfold bind.
  pose proof (get_user_input_spec (PyStr.eqb default []) st) as Hin.
  destruct (get_user_input (PyStr.eqb default []) st) as [[v|e|] st1];
    [|exact Hin|done].
  destruct Hin as [Hro Hlt].
  destruct (PyStr.eqb (PyStr.lower v) [] && negb (PyStr.eqb default []));
    [exact Hro|].
  destruct (str_in (PyStr.lower v) (map PyStr.lower choices)); [exact Hro|].
  specialize (IH st1 ltac:(lia)).
  destruct (choice_loop fuel choices default st1) as [[c|e|] st2]; [| |done].
  - eapply reads_only_trans; eassumption.
  - destruct IH. split; [done|]. eapply reads_only_trans; eassumption.
Qed.

Lemma get_user_choice_spec (choices : list str) (default : str) (st : State) :
  match get_user_choice choices default st with
  | (Ret _, st') => reads_only st st'
  | (Raise e, st') => prompt_failure e /\ reads_only st st'
  | (OutOfFuel, _) => False
  end.
Proof. unfold get_user_choice. apply choice_loop_spec. lia. Qed.

(** A yes/no prompt with default ["y"], answered by one line. *)
Lemma get_user_choice_line (l : str) (rest : list stdin_event) (st : State) :
  stdin st = Line l :: rest ->
  str_in (PyStr.lower (PyStr.strip l)) [py "y"; py "n"] = true ->
  get_user_choice YES_NO (py "y") st
  = (Ret (PyStr.lower (PyStr.strip l)), with_stdin rest st).
Proof.
  intros Hin Hans. unfold get_user_choice. rewrite Hin.
  cbn [length choice_loop]. unfold bind, get_user_input. rewrite Hin.
  cbn [input_loop]. change (PyStr.eqb (py "y") []) with false.
  rewrite orb_true_r. cbn [negb]. rewrite andb_true_r.
  change (map PyStr.lower YES_NO) with [py "y"; py "n"].
  rewrite Hans.
  destruct (PyStr.eqb (PyStr.lower (PyStr.strip l)) []) eqn:He; [|reflexivity].
  apply bool_decide_eq_true_1 in He. rewrite He in Hans. discriminate.
Qed.

End PromptFacts.

(** ** The credential file *)
Module StoreFacts.
Import ValidationFacts PromptFacts.

(** What a call that only works on the credential file leaves alone. *)
Record config_only (st st' : State) : Prop := {
  same_writable : config_writable st' = config_writable st;
  same_shell : shell_files st' = shell_files st;
  same_stdin : stdin st' = stdin st
}.

Lemma config_only_refl (st : State) : config_only st st.
Proof. now split. Qed.

Lemma config_only_trans (a b c : State) :
  config_only a b -> config_only b c -> config_only a c.
Proof. intros [] []. split; congruence. Qed.

Lemma network_config_only (st st' : State) :
  network_only st st' -> config_only st st'.
Proof. intros []. now split. Qed.

Section WithEnv.
Context {C : Cipher} (env : Env).

(** Encryption ends: with a ciphertext, or with an exception that
    [except Exception] catches. *)
Lemma encrypt_outcome (ca : bool) (h : Host) (e : bytes) (t : str) :
  match _encrypt_token ca h e t with
  | Ret _ => True
  | Raise x => is_Exception x = true
  | OutOfFuel => False
  end.
Proof.
  unfold _encrypt_token, _generate_encryption_key, Fernet, str_encode,
    bytes_decode.
  repeat case_match; try done; simplify_eq; done.
Qed.

(** [store_token_securely] always returns; on [False] the file is as it
    was, on [True] it holds a fresh record of the current version. *)
Lemma store_returns (token : str) (st : State) :
  exists b st',
    store_token_securely env token st = (Ret b, st')
    /\ config_only st st'
    /\ (b = false -> config_file st' = config_file st)
    /\ (b = true ->
        exists config_data,
          config_file st' = Some (Object config_data)
          /\ dict_get (py "version") config_data = Some (JStr CONFIG_VERSION)).
Proof.
  unfold store_token_securely, try_except, bind.
  destruct (validate_returns env token 3 false st)
    as (r & st1 & -> & Hnet & _).
  pose proof (network_config_only _ _ Hnet) as Hco.
  destruct (if_true r) as [info|].
  2:{ exists false, st1. split; [done|]. split; [done|].
      split; [intros _; apply Hnet|discriminate]. }
  unfold encrypt_now.
  pose proof (encrypt_outcome (CRYPTO_AVAILABLE env) (host env)
                (entropy env (draws st1)) token) as Henc.
  destruct (_encrypt_token _ _ _ token) as [c|x|]; [| |done].
  2:{ rewrite Henc. exists false, (count_draw st1).
      split; [done|]. split; [destruct Hco; now split|].
      split; [intros _; apply Hnet|discriminate]. }
  unfold now, write_config. cbn [config_writable count_draw].
  destruct (config_writable st1) eqn:Hw; cbn [is_Exception].
  - eexists true, _. split; [reflexivity|].
    split; [destruct Hco; now split|].
    split; [discriminate|]. intros _. eexists. split; reflexivity.
  - eexists false, _. split; [reflexivity|].
    split; [destruct Hco; now split|].
    split; [intros _; apply Hnet|discriminate].
Qed.

(** [_load_secure_token] always returns. Without a token the file is
    left as it was. With a token, the file held a record of the current
    version whose ciphertext decrypts to that token, and only its
    [last_used] field is rewritten. *)
Lemma load_returns (st : State) :
  exists r st',
    _load_secure_token env st = (Ret r, st')
    /\ config_only st st'
    /\ match r with
       | None => config_file st' = config_file st
       | Some token =>
           exists config_data,
             config_file st = Some (Object config_data)
             /\ read_config env (Object config_data) = Some (config_data, token)
             /\ (token = [] -> config_file st' = config_file st)
             /\ (token <> [] ->
                 config_file st'
                 = Some (Object (dict_set (py "last_used")
                                          (JStr (clock env (draws st)))
                                          config_data)))
       end.
Proof.
  unfold _load_secure_token.
  destruct (config_file st) as [content|] eqn:Hc.
  2:{ exists None, st. repeat split. exact Hc. }
  destruct (read_config env content) as [[config_data token]|] eqn:Hr.
  2:{ exists None, st. repeat split. exact Hc. }
  assert (content = Object config_data) as ->.
  { unfold read_config in Hr. repeat case_match; congruence. }
  destruct (PyStr.eqb token []) eqn:He; cbn [negb].
  - apply bool_decide_eq_true_1 in He. subst token.
    exists (Some []), st. split; [done|]. split; [apply config_only_refl|].
    exists config_data. repeat split; try done.
  - apply bool_decide_eq_false_1 in He.
    unfold try_except, bind, now, write_config.
    cbn [config_writable count_draw].
    destruct (config_writable st) eqn:Hw; cbn [is_Exception].
    + eexists (Some token), _. split; [reflexivity|]. split; [now split|].
      exists config_data. repeat split; try done.
    + eexists None, _. split; [reflexivity|]. split; [now split|]. exact Hc.
Qed.

Lemma remove_returns (st : State) :
  exists st',
    _remove_secure_token st = (Ret tt, st')
    /\ config_only st st'
    /\ (config_writable st = true -> config_file st' = None).
Proof.
  unfold _remove_secure_token.
  destruct (config_file st) eqn:Hc; [destruct (config_writable st) eqn:Hw|];
    eexists; (split; [reflexivity|]); (split; [now split|]); try done.
Qed.

End WithEnv.
End StoreFacts.

(** C10. Storing a token that fails remote validation returns [False] and
    leaves the credential file as it was: validation comes before any write.
    (The shell configuration files and the write permission are untouched as
    well.) *)
Theorem store_rejected_token_writes_nothing {C : Cipher} (env : Env)
    (token : str) (st : State) :
  fst (_validate_token env token 3 false st) = Ret None ->
  fst (store_token_securely env token st) = Ret false
  /\ config_file (snd (store_token_securely env token st)) = config_file st
  /\ shell_files (snd (store_token_securely env token st)) = shell_files st.
Proof.
  intros Hv. unfold store_token_securely, try_except, bind.
  destruct (ValidationFacts.validate_returns env token 3 false st)
    as (r & st1 & Hrun & Hnet & _).
  rewrite Hrun in Hv |- *. cbn [fst] in Hv. injection Hv as ->.
  cbn [if_true fst snd]. repeat split; apply Hnet.
Qed.

Lemma store_rejected_token_writes_nothing_witness :
  fst (store_token_securely (C := ref_cipher) env_rejecting token_x40 st_empty)
  = Ret false
  /\ config_file (snd (store_token_securely (C := ref_cipher) env_rejecting
                         token_x40 st_empty)) = None.
Proof.
  destruct (store_rejected_token_writes_nothing (C := ref_cipher) env_rejecting
              token_x40 st_empty) as (H1 & H2 & _).
  - vm_compute; reflexivity.
  - split; [exact H1|exact H2].
Defined.

(** ** Reading the record *)
Module RecordFacts.
Import StoreFacts.

Lemma dict_get_set_other (k k' : str) (v : jvalue) (d : dict) :
  k <> k' -> dict_get k (dict_set k' v d) = dict_get k d.
Proof.
  intros Hne. induction d as [|[k0 v0] d IH]; cbn [dict_set dict_get].
  - unfold PyStr.eqb. now rewrite bool_decide_eq_false_2 by congruence.
  - unfold PyStr.eqb in *. destruct (bool_decide (k0 = k')) eqn:E0;
      cbn [dict_get]; unfold PyStr.eqb.
    + apply bool_decide_eq_true_1 in E0. subst k0.
      now rewrite !bool_decide_eq_false_2 by congruence.
    + now rewrite IH.
Qed.

(** Rewriting [last_used] keeps the record readable, with the same
    token. *)
Lemma read_config_refreshed {C : Cipher} (env : Env) (d : dict) (token : str)
    (stamp : jvalue) :
  read_config env (Object d) = Some (d, token) ->
  read_config env (Object (dict_set (py "last_used") stamp d))
  = Some (dict_set (py "last_used") stamp d, token).
Proof.
  unfold read_config.
  rewrite !(dict_get_set_other _ (py "last_used")) by (vm_compute; discriminate).
  repeat case_match; intros; simplify_eq; done.
Qed.

End RecordFacts.

(** A record of another schema version is a read failure, and it is still
    on disk after the read, and after the whole of [get_secure_token] (here
    ended by the user declining setup). *)
Lemma stale_record_is_not_deleted :
  read_config (C := ref_cipher) env_online (Object record_v09) = None
  /\ _load_secure_token (C := ref_cipher) env_online st_stale = (Ret None, st_stale)
  /\ fst (get_secure_token (C := ref_cipher) env_online st_stale)
     = Raise (ValueError SETUP_CANCELLED)
  /\ config_file (snd (get_secure_token (C := ref_cipher) env_online st_stale))
     = Some (Object record_v09).
Proof. split; [|split; [|split]]; vm_compute; reflexivity. Qed.

(** ** Who writes to the shell configuration files *)
Module ShellFrame.
Import Frame ValidationFacts StoreFacts.

Section WithEnv.
Context {C : Cipher} (env : Env).

Lemma validate_keeps (token : str) (n : nat) (d : bool) :
  preserves shell_files (_validate_token env token n d).
Proof.
  intros st. destruct (validate_returns env token n d st) as (r & st' & -> & H & _).
  apply H.
Qed.

Lemma input_keeps (required : bool) :
  preserves shell_files (get_user_input required).
Proof.
  intros st. unfold get_user_input.
  now destruct (input_loop required (stdin st)).
Qed.

Lemma choice_loop_keeps (choices : list str) (default : str) (fuel : nat) :
  preserves shell_files (choice_loop fuel choices default).
Proof.
  induction fuel as [|fuel IH]; cbn [choice_loop].
  - apply preserves_out_of_fuel.
  - apply preserves_bind; [apply input_keeps|]. intros value.
    repeat apply preserves_if; try apply preserves_ret. exact IH.
Qed.

Lemma choice_keeps (choices : list str) (default : str) :
  preserves shell_files (get_user_choice choices default).
Proof. intros st. apply (choice_loop_keeps choices default _ st). Qed.

Lemma store_keeps (token : str) :
  preserves shell_files (store_token_securely env token).
Proof.
  intros st. destruct (store_returns env token st) as (b & st' & -> & H & _).
  apply H.
Qed.

Lemma setup_loop_keeps (fuel : nat) :
  preserves shell_files (setup_loop env fuel).
Proof.
  induction fuel as [|fuel IH]; cbn [setup_loop].
  - apply preserves_out_of_fuel.
  - apply preserves_bind; [apply input_keeps|]. intros new_token.
    apply preserves_if; [exact IH|].
    apply preserves_bind; [apply validate_keeps|]. intros user_info.
    destruct (if_true user_info); [|exact IH].
    apply preserves_bind; [apply store_keeps|]. intros stored.
    apply preserves_if; [apply preserves_ret|exact IH].
Qed.

Lemma setup_keeps : preserves shell_files (_setup_new_token env).
Proof.
  unfold _setup_new_token.
  apply preserves_bind; [apply choice_keeps|]. intros choice.
  apply preserves_if; [apply preserves_raise|].
  intros st. apply (setup_loop_keeps _ st).
Qed.

Lemma setup_some_keeps :
  preserves shell_files (token <- _setup_new_token env ;; ret (Some token)).
Proof.
  apply preserves_bind; [apply setup_keeps|]. intros. apply preserves_ret.
Qed.

Lemma select_keeps (legacy_tokens : list (str * str)) :
  preserves shell_files (select_token env legacy_tokens).
Proof.
  induction legacy_tokens as [|[f token] rest IH]; cbn [select_token].
  - apply preserves_ret.
  - apply preserves_bind; [apply validate_keeps|]. intros user_info.
    destruct (if_true user_info); [apply preserves_ret|exact IH].
Qed.

End WithEnv.
End ShellFrame.

(** C4. Migration safety: in a run of [_handle_migration] in which the user
    confirms, a legacy token is selected, and [store_token_securely] of the
    selected token returns [False], the shell configuration files are at the
    end what they were at the start, however the run ends (a token from the
    setup flow, or an exception): the cleanup is only ever reached after a
    successful store. *)
Theorem migration_failed_store_keeps_shell_files {C : Cipher} (env : Env)
    (legacy_tokens : list (str * str)) (st st_a st0 : State)
    (choice selected : str) :
  get_user_choice YES_NO (py "y") st = (Ret choice, st_a) ->
  str_in choice ACCEPT = true ->
  select_token env legacy_tokens st_a = (Ret (Some selected), st0) ->
  fst (store_token_securely env selected st0) = Ret false ->
  shell_files (snd (_handle_migration env legacy_tokens st)) = shell_files st.
Proof.
  intros Hchoice Haccept Hselect Hstore.
  pose proof (ShellFrame.choice_keeps YES_NO (py "y") st) as K1.
  rewrite Hchoice in K1. cbn [snd] in K1.
  pose proof (ShellFrame.select_keeps env legacy_tokens st_a) as K2.
  rewrite Hselect in K2. cbn [snd] in K2.
  pose proof (ShellFrame.store_keeps env selected st0) as K3.
  destruct (store_token_securely env selected st0) as [stored st1] eqn:Hrun.
  cbn [fst snd] in Hstore, K3. subst stored.
  pose proof (ShellFrame.setup_some_keeps env st1) as K4.
  unfold _handle_migration, try_except.
  unfold bind at 1. rewrite Hchoice, Haccept. cbn [negb].
  unfold bind at 1. rewrite Hselect.
  unfold persist_selected. unfold bind at 1. rewrite Hrun.
  destruct ((token <- _setup_new_token env ;; ret (Some token)) st1)
    as [[t|e|] st2]; cbn [snd] in *; try congruence.
  destruct (is_Exception e); cbn [snd]; [|congruence].
  rewrite (ShellFrame.setup_some_keeps env st2). congruence.
Qed.

Lemma migration_failed_store_keeps_shell_files_witness :
  shell_files (snd (_handle_migration (C := ref_cipher) env_online
                      [(bashrc_a, token_x40)] st_readonly))
  = shell_files st_readonly.
Proof.
  eapply (migration_failed_store_keeps_shell_files (C := ref_cipher) env_online
            [(bashrc_a, token_x40)] st_readonly).
  - vm_compute; reflexivity.
  - vm_compute; reflexivity.
  - vm_compute; reflexivity.
  - vm_compute; reflexivity.
Defined.

(** ** How the entry points end *)
Module FlowFacts.
Import PromptFacts ValidationFacts StoreFacts.

(** The failures that leave [get_secure_token]: the setup prompt was
    declined, or a prompt met the end of input or an interrupt. *)
Definition token_failure (e : exn) : Prop :=
  e = ValueError SETUP_CANCELLED \/ e = EOFError \/ e = SystemExit 1.

(** [m] always ends, and when it raises, it is with one of those. *)
Definition well_ended {A} (m : M A) : Prop :=
  forall st,
    match fst (m st) with
    | Ret _ => True
    | Raise e => token_failure e
    | OutOfFuel => False
    end.

Lemma prompt_token_failure (e : exn) : prompt_failure e -> token_failure e.
Proof. intros [->| ->]; [right; left|right; right]; reflexivity. Qed.

Lemma well_ended_ret {A} (a : A) : well_ended (ret a).
Proof. now intros st. Qed.

Lemma well_ended_bind {A B} (m : M A) (k : A -> M B) :
  well_ended m -> (forall a, well_ended (k a)) -> well_ended (bind m k).
Proof.
  intros Hm Hk st. unfold bind. specialize (Hm st).
  destruct (m st) as [[a|e|] st1]; cbn [fst] in *; try done.
  apply Hk.
Qed.

Lemma well_ended_try {A} (m : M A) (h : exn -> M A) :
  well_ended m -> (forall e, well_ended (h e)) -> well_ended (try_except m h).
Proof.
  intros Hm Hh st. unfold try_except. specialize (Hm st).
  destruct (m st) as [[a|e|] st1]; cbn [fst] in *; try done.
  destruct (is_Exception e); [apply Hh|exact Hm].
Qed.

Lemma well_ended_if {A} (b : bool) (m1 m2 : M A) :
  well_ended m1 -> well_ended m2 -> well_ended (if b then m1 else m2).
Proof. now destruct b. Qed.

Section WithEnv.
Context {C : Cipher} (env : Env).

Lemma validate_well_ended (token : str) (n : nat) (d : bool) :
  well_ended (_validate_token env token n d).
Proof.
  intros st. now destruct (validate_returns env token n d st) as (r & st' & -> & _).
Qed.

Lemma store_well_ended (token : str) :
  well_ended (store_token_securely env token).
Proof.
  intros st. now destruct (store_returns env token st) as (b & st' & -> & _).
Qed.

Lemma load_well_ended : well_ended (_load_secure_token env).
Proof.
  intros st. now destruct (load_returns env st) as (r & st' & -> & _).
Qed.

Lemma remove_well_ended : well_ended _remove_secure_token.
Proof.
  intros st. now destruct (remove_returns st) as (st' & -> & _).
Qed.

Lemma choice_well_ended (choices : list str) (default : str) :
  well_ended (get_user_choice choices default).
Proof.
  intros st. pose proof (get_user_choice_spec choices default st) as H.
  destruct (get_user_choice choices default st) as [[c|e|] st']; cbn [fst];
    try done.
  apply prompt_token_failure, H.
Qed.

Lemma cleanup_well_ended (legacy_tokens : list (str * str)) :
  well_ended (_cleanup_legacy_tokens env legacy_tokens).
Proof.
  induction legacy_tokens as [|[f t] rest IH]; cbn [_cleanup_legacy_tokens].
  - apply well_ended_ret.
  - intros st. destruct (shell_files st !! f); [|apply IH].
    destruct (shell_writable env f); [|apply IH].
    apply (well_ended_bind _ _ IH). intros. apply well_ended_ret.
Qed.

Lemma select_well_ended (legacy_tokens : list (str * str)) :
  well_ended (select_token env legacy_tokens).
Proof.
  induction legacy_tokens as [|[f t] rest IH]; cbn [select_token].
  - apply well_ended_ret.
  - apply well_ended_bind; [apply validate_well_ended|]. intros user_info.
    destruct (if_true user_info); [apply well_ended_ret|exact IH].
Qed.

(** The setup loop ends within [fuel] turns when the input left is shorter
    than [fuel]: every turn reads at least one line. *)
Lemma setup_loop_ends (fuel : nat) :
  forall st,
    (length (stdin st) < fuel)%nat ->
    match fst (setup_loop env fuel st) with
    | Ret _ => True
    | Raise e => prompt_failure e
    | OutOfFuel => False
    end.
Proof.
  induction fuel as [|fuel IH]; intros st Hfuel; [lia|].
  cbn [setup_loop]. unfold bind at 1.
  pose proof (get_user_input_spec true st) as Hin.
  destruct (get_user_input true st) as [[new_token|e|] st1]; cbn [fst];
    [|apply Hin|done].
  destruct Hin as [_ Hlt].
  destruct (PyStr.eqb new_token [] || (length new_token <? 30)%nat).
  { apply IH. lia. }
  unfold bind at 1.
  destruct (validate_returns env new_token 3 false st1)
    as (r & st2 & -> & Hnet & _).
  assert (Hs2 : stdin st2 = stdin st1) by apply Hnet.
  destruct (if_true r).
  2:{ apply IH. rewrite Hs2. lia. }
  unfold bind at 1.
  destruct (store_returns env new_token st2) as (b & st3 & -> & Hco & _).
  assert (Hs3 : stdin st3 = stdin st2) by apply Hco.
  destruct b; [done|]. apply IH. rewrite Hs3, Hs2. lia.
Qed.

Lemma setup_well_ended : well_ended (_setup_new_token env).
Proof.
  intros st. unfold _setup_new_token, bind.
  pose proof (get_user_choice_spec YES_NO (py "y") st) as Hc.
  destruct (get_user_choice YES_NO (py "y") st) as [[choice|e|] st1];
    cbn [fst]; [|apply prompt_token_failure, Hc|done].
  destruct (negb (str_in choice ACCEPT)); [now left|].
  pose proof (setup_loop_ends (S (length (stdin st1))) st1 ltac:(lia)) as Hl.
  destruct (fst (setup_loop env (S (length (stdin st1))) st1)); try done.
  now apply prompt_token_failure.
Qed.

Lemma setup_some_well_ended :
  well_ended (token <- _setup_new_token env ;; ret (Some token)).
Proof.
  apply well_ended_bind; [apply setup_well_ended|]. intros. apply well_ended_ret.
Qed.

Lemma migration_well_ended (legacy_tokens : list (str * str)) :
  well_ended (_handle_migration env legacy_tokens).
Proof.
  unfold _handle_migration.
  apply well_ended_try; [|intros; apply setup_some_well_ended].
  apply well_ended_bind; [apply choice_well_ended|]. intros choice.
  apply well_ended_if; [apply well_ended_ret|].
  apply well_ended_bind; [apply select_well_ended|]. intros [selected|].
  - unfold persist_selected.
    apply well_ended_bind; [apply store_well_ended|]. intros stored.
    apply well_ended_if; [|apply setup_some_well_ended].
    apply well_ended_bind; [apply cleanup_well_ended|].
    intros. apply well_ended_ret.
  - apply setup_some_well_ended.
Qed.

Lemma stored_well_ended : well_ended (stored_token env).
Proof.
  unfold stored_token.
  apply well_ended_bind; [apply load_well_ended|]. intros [t|];
    [|apply well_ended_ret].
  apply well_ended_if; [|apply well_ended_ret].
  apply well_ended_bind; [apply validate_well_ended|]. intros user_info.
  destruct (if_true user_info); [apply well_ended_ret|].
  apply well_ended_bind; [apply remove_well_ended|].
  intros. apply well_ended_ret.
Qed.

Lemma migrated_well_ended : well_ended (migrated_token env).
Proof.
  unfold migrated_token, _detect_legacy_tokens. intros st. unfold bind at 1.
  destruct (flat_map _ _) as [|entry rest]; [done|].
  apply (well_ended_bind _ _ (migration_well_ended (entry :: rest))).
  intros [t|]; [apply well_ended_if|]; apply well_ended_ret.
Qed.

Lemma get_secure_token_well_ended : well_ended (get_secure_token env).
Proof.
  unfold get_secure_token.
  apply well_ended_bind; [apply stored_well_ended|]. intros [t|];
    [apply well_ended_ret|].
  apply well_ended_bind; [apply migrated_well_ended|]. intros [t|];
    [apply well_ended_ret|apply setup_well_ended].
Qed.

(** The setup prompt, answered "n". *)
Lemma setup_declined (l : str) (rest : list stdin_event) (st : State) :
  stdin st = Line l :: rest ->
  PyStr.lower (PyStr.strip l) = py "n" ->
  _setup_new_token env st
  = (Raise (ValueError SETUP_CANCELLED), with_stdin rest st).
Proof.
  intros Hin Hn. unfold _setup_new_token, bind.
  rewrite (get_user_choice_line l rest st Hin) by now rewrite Hn.
  now rewrite Hn.
Qed.

(** Nothing stored and no legacy file: both steps pass without a trace. *)
Lemma nothing_stored (st : State) :
  config_file st = None -> stored_token env st = (Ret None, st).
Proof.
  intros Hc. unfold stored_token, bind, _load_secure_token. now rewrite Hc.
Qed.

Lemma nothing_to_migrate (st : State) :
  (forall f, In f (_get_shell_config_files env) -> shell_files st !! f = None) ->
  migrated_token env st = (Ret None, st).
Proof.
  intros Hf. unfold migrated_token, bind, _detect_legacy_tokens.
  assert (flat_map (detect_in (shell_files st)) (_get_shell_config_files env)
          = []) as ->; [|reflexivity].
  induction (_get_shell_config_files env) as [|f fs IH]; [reflexivity|].
  cbn [flat_map]. unfold detect_in at 1. rewrite (Hf f) by now left.
  cbn [app]. apply IH. intros g Hg. apply Hf. now right.
Qed.

End WithEnv.
End FlowFacts.

(** With nothing stored, no legacy file and the input at its end, the call
    fails with [EOFError]: a hard failure that is not the declined setup
    (the user declined nothing). An interrupt at the prompt leaves as
    [SystemExit]. *)
Lemma end_of_input_is_a_hard_failure :
  get_secure_token (C := ref_cipher) env_online st_empty
  = (Raise EOFError, st_empty)
  /\ fst (get_secure_token (C := ref_cipher) env_online st_interrupted)
     = Raise (SystemExit 1).
Proof. split; vm_compute; reflexivity. Qed.

(** C8, as the code has it. [get_secure_token] always ends, and when it
    fails it is with [ValueError] (setup cancelled), with [EOFError] (the
    input ended at a prompt) or with [SystemExit] (interrupt at a prompt).
    When no stored token validates and migration yields nothing, and the
    setup prompt is answered "n", the call fails with that [ValueError]; in
    particular with an empty configuration directory, no legacy files and the
    user declining setup. *)
Theorem get_token_failures {C : Cipher} (env : Env) (st : State) :
  match fst (get_secure_token env st) with
  | Ret _ => True
  | Raise e => e = ValueError SETUP_CANCELLED \/ e = EOFError \/ e = SystemExit 1
  | OutOfFuel => False
  end
  /\ (forall st1 st2 l rest,
        stored_token env st = (Ret None, st1) ->
        migrated_token env st1 = (Ret None, st2) ->
        stdin st2 = Line l :: rest ->
        PyStr.lower (PyStr.strip l) = py "n" ->
        get_secure_token env st
        = (Raise (ValueError SETUP_CANCELLED), with_stdin rest st2))
  /\ (forall l rest,
        config_file st = None ->
        (forall f, In f (_get_shell_config_files env) ->
                   shell_files st !! f = None) ->
        stdin st = Line l :: rest ->
        PyStr.lower (PyStr.strip l) = py "n" ->
        get_secure_token env st
        = (Raise (ValueError SETUP_CANCELLED), with_stdin rest st)).
Proof.
  assert (Hdirect : forall st1 st2 l rest,
             stored_token env st = (Ret None, st1) ->
             migrated_token env st1 = (Ret None, st2) ->
             stdin st2 = Line l :: rest ->
             PyStr.lower (PyStr.strip l) = py "n" ->
             get_secure_token env st
             = (Raise (ValueError SETUP_CANCELLED), with_stdin rest st2)).
  { intros st1 st2 l rest Hs Hm Hin Hn. unfold get_secure_token.
    unfold bind at 1. rewrite Hs. unfold bind at 1. rewrite Hm.
    now apply (FlowFacts.setup_declined env l rest st2). }
  split; [apply (FlowFacts.get_secure_token_well_ended env st)|].
  split; [exact Hdirect|].
  intros l rest Hc Hf Hin Hn. apply (Hdirect st st l rest); try done.
  - now apply FlowFacts.nothing_stored.
  - now apply FlowFacts.nothing_to_migrate.
Qed.

Lemma get_token_failures_witness :
  get_secure_token (C := ref_cipher) env_online
    (with_stdin [Line (py " N ")] st_empty)
  = (Raise (ValueError SETUP_CANCELLED), st_empty).
Proof.
  apply (proj2 (proj2 (get_token_failures (C := ref_cipher) env_online
                         (with_stdin [Line (py " N ")] st_empty)))
           (py " N ") []).
  - reflexivity.
  - intros f _. reflexivity.
  - reflexivity.
  - vm_compute; reflexivity.
Defined.

(** Inside the migration flow a declined setup does not end the call: the
    [except Exception] of [_handle_migration] catches the [ValueError] and
    runs the setup again, so a user who then accepts gets a token. *)
Example declined_setup_is_retried_in_migration :
  fst (get_secure_token (C := ref_cipher) env_accepts_a31 st_decline_then_accept)
  = Ret token_a31.
Proof. vm_compute; reflexivity. Qed.

(** ** Diagnostics *)
Module DiagnoseFacts.
Import ValidationFacts StoreFacts.

Section WithEnv.
Context {C : Cipher} (env : Env).

(** Reading the stored token makes no request. *)
Lemma load_no_request (st : State) :
  api_calls (snd (_load_secure_token env st)) = api_calls st
  /\ direct_calls (snd (_load_secure_token env st)) = direct_calls st.
Proof.
  unfold _load_secure_token, try_except, bind, now, write_config, ret.
  repeat case_match; simplify_eq; cbn; done.
Qed.

Lemma token_under_test_spec (token : option str) (st : State) :
  exists r st0,
    token_under_test env token st = (Ret r, st0)
    /\ api_calls st0 = api_calls st /\ direct_calls st0 = direct_calls st.
Proof.
  unfold token_under_test.
  assert (Hload : exists r st0,
             _load_secure_token env st = (Ret r, st0)
             /\ api_calls st0 = api_calls st /\ direct_calls st0 = direct_calls st).
  { destruct (load_returns env st) as (r & st0 & Hrun & _).
    pose proof (load_no_request st) as Hn. rewrite Hrun in Hn.
    exists r, st0. split; [exact Hrun|exact Hn]. }
  destruct token as [[|c t]|]; try exact Hload.
  exists (Some (c :: t)), st. repeat split.
Qed.

(** A validation that returns a user record returns a true one. *)
Lemma validated_is_true (token : str) (n : nat) (d : bool) (st st' : State)
    (info : dict) :
  _validate_token env token n d st = (Ret (Some info), st') ->
  if_true (Some info) = Some info.
Proof.
  intros Hrun. destruct (validate_returns env token n d st)
    as (r & st1 & Hrun' & _ & Hr).
  rewrite Hrun in Hrun'. injection Hrun' as <- <-.
  destruct Hr as [Hr|Hr]; [discriminate|]. now destruct info.
Qed.

End WithEnv.
End DiagnoseFacts.

(** A token of two segments fails the segment count of the format check,
    which only prints a warning: the battery goes on to step 4 and returns
    [True] when the service accepts the token. *)
Lemma diagnose_accepts_unusual_format :
  token_format token_two_parts = FormatUnusual 2
  /\ (30 <= length token_two_parts)%nat
  /\ fst (diagnose_token (C := ref_cipher) env_online (Some token_two_parts)
            st_empty) = Ret true.
Proof. split; [|split]; vm_compute; try reflexivity; lia. Qed.

(** C9, as the code has it. [diagnose_token] always returns a flag. The flag
    is [True] exactly when name resolution and the HTTPS request succeeded, a
    token of at least 30 characters was given or found in storage, and the
    full validation of step 4 (one attempt, diagnose mode) returned a user;
    the segment count of the token plays no part. When one of the earlier
    checks fails (resolution, reachability, no token, length) the result is
    [False] and step 4 is not run: no request for validation is made. *)
Theorem diagnose_true_iff_validation {C : Cipher} (env : Env)
    (token : option str) (st : State) :
  exists b st',
    diagnose_token env token st = (Ret b, st')
    /\ (b = true <->
        resolves env (probes st) = true
        /\ reachable env (S (probes st)) = true
        /\ exists test_token st0 info,
             token_under_test env token (count_probe (count_probe st))
             = (Ret (Some test_token), st0)
             /\ (30 <= length test_token)%nat
             /\ _validate_token env test_token 1 true
                  (log (EvFormat (token_format test_token)) st0)
                = (Ret (Some info), st'))
    /\ (resolves env (probes st) = false
        \/ reachable env (S (probes st)) = false
        \/ (exists st0, token_under_test env token (count_probe (count_probe st))
                        = (Ret None, st0))
        \/ (exists test_token st0,
              token_under_test env token (count_probe (count_probe st))
              = (Ret (Some test_token), st0)
              /\ (length test_token < 30)%nat) ->
        b = false
        /\ api_calls st' = api_calls st /\ direct_calls st' = direct_calls st).
Proof.
  unfold diagnose_token. unfold bind at 1, probe at 1.
  destruct (resolves env (probes st)) eqn:Hdns; cbn [negb].
  2:{ exists false, (count_probe st). split; [reflexivity|]. split.
      - split; [discriminate|]. intros [? _]. discriminate.
      - intros _. repeat split. }
  unfold bind at 1, probe at 1. cbn [probes count_probe].
  destruct (reachable env (S (probes st))) eqn:Hweb; cbn [negb].
  2:{ exists false, (count_probe (count_probe st)). split; [reflexivity|]. split.
      - split; [discriminate|]. intros (_ & ? & _). discriminate.
      - intros _. repeat split. }
  unfold bind at 1.
  destruct (DiagnoseFacts.token_under_test_spec env token
              (count_probe (count_probe st))) as (r & st0 & Hsrc & Ha & Hd).
  rewrite Hsrc. cbn [api_calls direct_calls count_probe] in Ha, Hd.
  destruct r as [[|c t]|].
  - exists false, st0. split; [reflexivity|]. split.
    + split; [discriminate|].
      intros (_ & _ & tt' & st0' & info & [= <- <-] & Hlen & _).
      cbn in Hlen. lia.
    + intros _. repeat split; assumption.
  - set (test_token := c :: t) in *.
    destruct (length test_token <? 30)%nat eqn:Hlen.
    + apply Nat.ltb_lt in Hlen.
      exists false, st0. split; [reflexivity|]. split.
      * split; [discriminate|].
        intros (_ & _ & tt' & st0' & info & [= <- <-] & Hlen' & _). lia.
      * intros _. repeat split; assumption.
    + apply Nat.ltb_ge in Hlen.
      unfold bind at 1, say_format. unfold bind at 1.
      destruct (ValidationFacts.validate_returns env test_token 1 true
                  (log (EvFormat (token_format test_token)) st0))
        as (result & st' & Hrun & _ & Hres).
      rewrite Hrun.
      destruct result as [info|].
      * rewrite (DiagnoseFacts.validated_is_true env _ _ _ _ _ _ Hrun).
        exists true, st'. split; [reflexivity|]. split.
        -- split; [|reflexivity]. intros _. repeat split.
           exists test_token, st0, info. repeat split; assumption.
        -- intros [?|[?|[(st1 & ?)|(tt' & st1 & ? & ?)]]];
             try congruence.
           assert (tt' = test_token) as -> by congruence. lia.
      * exists false, st'. cbn [if_true]. split; [reflexivity|]. split.
        -- split; [discriminate|].
           intros (_ & _ & tt' & st0' & info & Hsrc' & _ & Hrun').
           assert (tt' = test_token) as -> by congruence.
           assert (st0' = st0) as -> by congruence.
           congruence.
        -- intros [?|[?|[(st1 & ?)|(tt' & st1 & ? & ?)]]];
             try congruence.
           assert (tt' = test_token) as -> by congruence. lia.
  - exists false, st0. split; [reflexivity|]. split.
    + split; [discriminate|].
      intros (_ & _ & tt' & st0' & info & [=] & _).
    + intros _. repeat split; assumption.
Qed.

Lemma diagnose_true_iff_validation_witness :
  fst (diagnose_token (C := ref_cipher) env_online (Some token_a30) st_empty)
  = Ret true.
Proof.
  destruct (diagnose_true_iff_validation (C := ref_cipher) env_online
              (Some token_a30) st_empty) as (b & st' & Hrun & Hiff & _).
  assert (Hst : st' = snd (diagnose_token (C := ref_cipher) env_online
                              (Some token_a30) st_empty))
    by now rewrite Hrun.
  rewrite Hrun. cbn [fst]. f_equal. apply Hiff.
  split; [reflexivity|]. split; [reflexivity|].
  eexists token_a30, _, a_user.
  split; [reflexivity|]. split; [vm_compute; lia|].
  rewrite Hst. vm_compute. reflexivity.
Defined.

(** ** Legacy extraction at the boundary *)

(** C7 at a token of exactly 30 characters. The entry is well formed, the
    other length checks of the program accept the token (validation makes
    its request and returns the user), yet the extraction requires more than
    30 characters and finds nothing; with one character more it finds the
    token. *)
Theorem legacy_token_of_30_characters_is_ignored :
  length token_a30 = 30%nat
  /\ scan_lines rc_token_30 = None
  /\ _detect_legacy_tokens env_online st_bashrc_30 = (Ret [], st_bashrc_30)
  /\ fst (_validate_token env_online token_a30 3 false st_empty)
     = Ret (Some a_user)
  /\ scan_lines [nl SENTINEL; nl (EXPORT_PREFIX ++ DQUOTE ++ token_a31 ++ DQUOTE)]
     = Some token_a31.
Proof. split; [|split; [|split; [|split]]]; vm_compute; reflexivity. Qed.

(** The general shape of the extraction: for a file whose first sentinel
    line is followed by an export statement of [tok] (double-quoted,
    single-quoted or bare), the scan yields [tok] exactly when [tok] is
    longer than 30 characters; otherwise it goes on below the entry. *)
Lemma legacy_extraction (pre post : text) (s e tok v : str) :
  Forall (fun l => is_sentinel l = false) pre ->
  is_sentinel s = true ->
  PyStr.strip e = EXPORT_PREFIX ++ v ->
  LegacyFacts.value_of tok v ->
  scan_lines (pre ++ s :: e :: post)
  = if (30 <? length tok)%nat then Some tok else scan_lines (e :: post).
Proof. apply LegacyFacts.scan_pattern. Qed.

(** ** The cleanup step on the file system *)
Module CleanupStateFacts.
Import CleanupFacts.

Lemma cleanup_idempotent (lines : text) :
  cleanup_lines (cleanup_lines lines) = cleanup_lines lines.
Proof.
  apply cleanup_clean. apply (cleanup_no_sentinel_upto (length lines)). lia.
Qed.

(** After [_cleanup_legacy_tokens], every listed file that exists and can
    be written holds the rewrite of its former lines, and every other file
    is untouched. *)
Lemma cleanup_rewrites_listed_files (env : Env)
    (legacy_tokens : list (str * str)) :
  forall (st : State) (f : str),
    shell_files (snd (_cleanup_legacy_tokens env legacy_tokens st)) !! f
    = if bool_decide (f ∈ legacy_tokens.*1) && shell_writable env f
      then cleanup_lines <$> (shell_files st !! f)
      else shell_files st !! f.
Proof.
  induction legacy_tokens as [|[g t] rest IH]; intros st f.
  - cbn. now rewrite bool_decide_eq_false_2 by apply not_elem_of_nil.
  - cbn [_cleanup_legacy_tokens fmap list_fmap fst].
    assert (Hsnd : forall st1,
               snd ((cleaned <- _cleanup_legacy_tokens env rest ;;
                     ret (basename g :: cleaned)) st1)
               = snd (_cleanup_legacy_tokens env rest st1)).
    { intros st1. unfold bind.
      now destruct (_cleanup_legacy_tokens env rest st1) as [[]]. }
    assert (Hskip : shell_files st !! g = None \/ shell_writable env g = false ->
                    shell_files (snd (_cleanup_legacy_tokens env rest st)) !! f
                    = if bool_decide (f ∈ g :: rest.*1) && shell_writable env f
                      then cleanup_lines <$> (shell_files st !! f)
                      else shell_files st !! f).
    { intros Hg. rewrite IH.
      destruct (decide (f = g)) as [->|Hne].
      - rewrite (bool_decide_eq_true_2 (g ∈ g :: rest.*1))
          by apply list_elem_of_here.
        destruct Hg as [Hg|Hg]; rewrite Hg.
        + now destruct (bool_decide (g ∈ rest.*1)), (shell_writable env g).
        + now rewrite !andb_false_r.
      - rewrite (bool_decide_ext (f ∈ g :: rest.*1) (f ∈ rest.*1));
          [reflexivity|].
        rewrite elem_of_cons. intuition congruence. }
    destruct (shell_files st !! g) as [lines|] eqn:Hg; [|apply Hskip; now left].
    destruct (shell_writable env g) eqn:Hw; [|apply Hskip; now right].
    rewrite Hsnd, IH. cbn [shell_files with_shell_files].
    destruct (decide (f = g)) as [->|Hne].
    + rewrite lookup_insert_eq, Hg, Hw.
      rewrite (bool_decide_eq_true_2 (g ∈ g :: rest.*1))
        by apply list_elem_of_here.
      rewrite andb_true_r. cbn.
      destruct (bool_decide (g ∈ rest.*1)); [|done].
      cbn. now rewrite cleanup_idempotent.
    + rewrite lookup_insert_ne by done.
      rewrite (bool_decide_ext (f ∈ g :: rest.*1) (f ∈ rest.*1));
        [reflexivity|].
      rewrite elem_of_cons. intuition congruence.
Qed.

End CleanupStateFacts.

(** A migration whose store succeeds: the token is returned, the record is
    written, and the entry is gone from [~/.bashrc], whose other line
    stays. *)
Example migration_success_cleans_the_file :
  fst (_handle_migration (C := ref_cipher) env_online [(bashrc_a, token_x40)]
         st_migrating) = Ret (Some token_x40)
  /\ shell_files (snd (_handle_migration (C := ref_cipher) env_online
                         [(bashrc_a, token_x40)] st_migrating)) !! bashrc_a
     = Some [nl (py "export EDITOR=vi")]
  /\ fst (get_secure_token (C := ref_cipher) env_online
            (snd (get_secure_token (C := ref_cipher) env_online st_migrating)))
     = Ret token_x40.
Proof. split; [|split]; vm_compute; reflexivity. Qed.

(* ===================================================================== *)
(** * Further properties of the code *)

(** ** Remote validation, whatever the network does *)
Module ValidationBounds.
Import ValidationFacts.

(** The events a validation of [token] may add to the trace. *)
Definition about (token : str) (e : event) : Prop :=
  e = EvRequest token \/ e = EvDirect token \/ exists n, e = EvSleep n.

(** What a run of the attempts loop does to the state: between [0] and
    [budget] requests, and only events about [token]. *)
Record within (token : str) (budget : nat) (st st' : State) : Prop := {
  requests_lower : (api_calls st <= api_calls st')%nat;
  requests_upper : (api_calls st' <= api_calls st + budget)%nat;
  new_events : exists new, trace st' = trace st ++ new /\ Forall (about token) new
}.

Lemma within_refl (token : str) (budget : nat) (st : State) :
  within token budget st st.
Proof.
  split; [lia|lia|]. exists []. split; [now rewrite app_nil_r|constructor].
Qed.

Lemma within_step (token : str) (b1 b2 : nat) (a b c : State) :
  within token b1 a b -> within token b2 b c -> within token (b1 + b2) a c.
Proof.
  intros [L1 U1 (n1 & E1 & F1)] [L2 U2 (n2 & E2 & F2)].
  split; [lia|lia|]. exists (n1 ++ n2). split.
  - now rewrite E2, E1, app_assoc.
  - now apply Forall_app.
Qed.

Section WithEnv.
Context (env : Env).

Lemma direct_within (token : str) (flag : bool) (st : State) :
  exists early st1,
    (if flag then direct_request env token else ret None) st = (Ret early, st1)
    /\ within token 0 st st1.
Proof.
  destruct flag.
  - eexists _, _. split; [reflexivity|]. split; cbn; [lia|lia|].
    exists [EvDirect token]. split; [reflexivity|].
    constructor; [right; now left|constructor].
  - exists None, st. split; [reflexivity|apply within_refl].
Qed.

Lemma request_within (token : str) (st : State) :
  within token 1 st (count_api [EvRequest token] st).
Proof.
  split; cbn; [lia|lia|]. exists [EvRequest token]. split; [reflexivity|].
  constructor; [now left|constructor].
Qed.

Lemma sleep_within (token : str) (n : nat) (st : State) :
  within token 0 st (log (EvSleep n) st).
Proof.
  split; cbn; [lia|lia|]. exists [EvSleep n]. split; [reflexivity|].
  constructor; [right; right; now exists n|constructor].
Qed.

Lemma validate_attempts_within (token : str) (max_retries : nat)
    (diagnose_mode : bool) :
  forall (remaining attempt : nat) (st : State),
    within token remaining st
      (snd (validate_attempts env remaining attempt max_retries diagnose_mode
              token st)).
Proof.
  induction remaining as [|remaining IH]; intros attempt st.
  - apply within_refl.
  - cbn [validate_attempts]. unfold bind at 1.
    destruct (direct_within token (diagnose_mode && client_has_request env) st)
      as (early & st1 & -> & H1).
    assert (H1' : within token (S remaining) st st1).
    { destruct H1 as [L U N]. split; [lia|lia|exact N]. }
    destruct (diagnose_mode && client_has_request env && has_identity early);
      [exact H1'|].
    unfold bind at 1, api_request.
    pose proof (within_step _ _ _ _ _ _ H1 (request_within token st1)) as H2.
    assert (H2' : within token (S remaining) st
                    (count_api [EvRequest token] st1)).
    { destruct H2 as [L U N]. split; [lia|lia|exact N]. }
    destruct (api env (api_calls st1) token) as [user_info|message].
    + now destruct (has_identity user_info).
    + destruct (any_keyword TRANSIENT_KEYWORDS (PyStr.lower message)).
      * destruct (attempt <? max_retries - 1)%nat; [|exact H2'].
        unfold bind at 1, sleep.
        pose proof (within_step _ _ _ _ _ _ H2
                      (sleep_within token ((attempt + 1) * 2)
                         (count_api [EvRequest token] st1))) as H3.
        pose proof (within_step _ _ _ _ _ _ H3
                      (IH (S attempt)
                          (log (EvSleep ((attempt + 1) * 2))
                               (count_api [EvRequest token] st1)))) as H4.
        destruct H4 as [L U N]. split; [lia|lia|exact N].
      * now destruct (any_keyword AUTH_KEYWORDS (PyStr.lower message)).
Qed.

(** After [k] transient failures the loop is at attempt [attempt + k],
    having made [k] requests and slept after each. *)
Lemma validate_attempts_recover (token : str) (max_retries : nat) (info : dict) :
  forall (k remaining attempt : nat) (st : State),
    (attempt + remaining = max_retries)%nat ->
    (k < remaining)%nat ->
    (forall i, (i < k)%nat ->
       exists message,
         api env (api_calls st + i) token = ApiRaise message /\ transient message) ->
    api env (api_calls st + k) token = ApiReturn (Some info) ->
    has_identity (Some info) = true ->
    exists st',
      validate_attempts env remaining attempt max_retries false token st
      = (Ret (Some info), st')
      /\ api_calls st' = (api_calls st + S k)%nat
      /\ attempts_and_sleeps (trace st')
         = attempts_and_sleeps (trace st) ++ schedule_from token attempt (S k)
      /\ network_only st st'.
Proof.
  induction k as [|k IH]; intros remaining attempt st Hsum Hk Hfail Hok Hid.
  - destruct remaining as [|remaining]; [lia|].
    rewrite Nat.add_0_r in Hok.
    cbn [validate_attempts andb]. unfold bind at 1, ret at 1.
    cbn [andb]. unfold bind at 1, api_request. rewrite Hok, Hid.
    eexists. split; [reflexivity|]. cbn [api_calls count_api trace].
    rewrite attempts_and_sleeps_app. split; [lia|]. split; [reflexivity|].
    now split.
  - destruct remaining as [|remaining]; [lia|].
    destruct (Hfail 0%nat ltac:(lia)) as (message & Hm & Ht).
    rewrite Nat.add_0_r in Hm. unfold transient in Ht.
    cbn [validate_attempts andb]. unfold bind at 1, ret at 1.
    cbn [andb]. unfold bind at 1, api_request. rewrite Hm, Ht.
    replace (attempt <? max_retries - 1)%nat with true
      by (symmetry; apply Nat.ltb_lt; lia).
    unfold bind at 1, sleep.
    edestruct (IH remaining (S attempt)
                  (log (EvSleep ((attempt + 1) * 2))
                       (count_api [EvRequest token] st)))
      as (st' & Hrun & Hcalls & Htrace & Hnet).
    + lia.
    + lia.
    + intros i Hi. cbn [api_calls log count_api].
      replace (S (api_calls st) + i)%nat with (api_calls st + S i)%nat by lia.
      apply Hfail. lia.
    + cbn [api_calls log count_api].
      now replace (S (api_calls st) + k)%nat with (api_calls st + S k)%nat by lia.
    + exact Hid.
    + exists st'. split; [exact Hrun|].
      cbn [api_calls log count_api trace] in Hcalls, Htrace.
      split; [rewrite Hcalls; lia|]. split.
      * rewrite Htrace, !attempts_and_sleeps_app.
        cbn [schedule_from seq flat_map app attempts_and_sleeps List.filter].
        rewrite <- !app_assoc. cbn [app].
        now replace (S attempt * 2)%nat with ((attempt + 1) * 2)%nat by lia.
      * destruct Hnet. now split.
Qed.

Lemma validate_within (token : str) (max_retries : nat)
    (diagnose_mode : bool) (st : State) :
  within token max_retries st
    (snd (_validate_token env token max_retries diagnose_mode st)).
Proof.
  unfold _validate_token.
  destruct (PyStr.eqb token [] || (length token <? 30)%nat).
  - apply within_refl.
  - apply validate_attempts_within.
Qed.

End WithEnv.
End ValidationBounds.

(** X1. Whatever the network answers, [_validate_token] returns (it does not
    raise), makes at most [max_retries] requests through the client, adds to
    the trace only requests for this token and pauses, and returns either
    nothing or a user record that has an ["id"]. A token that is empty or
    shorter than 30 characters is rejected locally: the state is untouched. *)
Theorem validate_is_bounded (env : Env) (token : str) (max_retries : nat)
    (diagnose_mode : bool) (st : State) :
  exists r st',
    _validate_token env token max_retries diagnose_mode st = (Ret r, st')
    /\ (api_calls st <= api_calls st' <= api_calls st + max_retries)%nat
    /\ (exists new, trace st' = trace st ++ new
                    /\ Forall (ValidationBounds.about token) new)
    /\ (r = None \/ has_identity r = true)
    /\ ((length token < 30)%nat -> r = None /\ st' = st).
Proof.
  destruct (ValidationFacts.validate_returns env token max_retries
              diagnose_mode st) as (r & st' & Hrun & _ & Hr).
  exists r, st'. split; [exact Hrun|].
  unfold _validate_token in Hrun.
  destruct (PyStr.eqb token [] || (length token <? 30)%nat) eqn:Hshort.
  - injection Hrun as <- <-. split; [lia|]. split.
    { exists []. split; [now rewrite app_nil_r|constructor]. }
    split; [now left|]. now intros _.
  - pose proof (ValidationBounds.validate_attempts_within env token
                  max_retries diagnose_mode max_retries 0%nat st) as Hw.
    rewrite Hrun in Hw. cbn [snd] in Hw. destruct Hw as [L U N].
    split; [lia|]. split; [exact N|]. split; [exact Hr|].
    intros Hlen. apply orb_false_iff in Hshort as [_ Hge].
    apply Nat.ltb_ge in Hge. lia.
Qed.

(** ** The two modes of a validation *)
Module ValidationModes.
Import ValidationFacts.

Section WithEnv.
Context (env : Env).





End WithEnv.
End ValidationModes.





(** ** Key material and the credential record *)
Module RecordRoundTrip.
Import Base64 Base64Facts Utf8Facts EncryptionFacts ValidationFacts StoreFacts.

Lemma b64_empty (data : bytes) : urlsafe_b64encode data = [] -> data = [].
Proof.
  intros H. pose proof (urlsafe_b64decode_encode data) as Hd.
  rewrite H in Hd. now injection Hd.
Qed.

Lemma b64_key_length (raw : bytes) :
  length raw = 32%nat -> length (urlsafe_b64encode raw) = 44%nat.
Proof.
  intros H. unfold urlsafe_b64encode. rewrite length_map.
  do 32 (destruct raw as [|? raw]; [discriminate H|]).
  destruct raw; [reflexivity|discriminate H].
Qed.

Lemma text_empty (bs : bytes) : bytes_decode bs = Ret [] -> bs = [].
Proof.
  unfold bytes_decode. destruct (Utf8.decode bs) as [s|] eqn:Hd; [|discriminate].
  intros [= ->]. apply encode_decode in Hd. now injection Hd.
Qed.

Lemma dict_get_here (k : str) (v : jvalue) (d : dict) :
  dict_get k ((k, v) :: d) = Some v.
Proof. cbn [dict_get]. unfold PyStr.eqb. now rewrite bool_decide_eq_true_2. Qed.

Lemma dict_get_next (k k' : str) (v : jvalue) (d : dict) :
  k' <> k -> dict_get k ((k', v) :: d) = dict_get k d.
Proof.
  intros H. cbn [dict_get]. unfold PyStr.eqb.
  now rewrite bool_decide_eq_false_2.
Qed.

(** The record on disk holds [token]: it parses, has the current version,
    and its ciphertext decrypts to [token] on this machine. *)
Definition holds_token {C : Cipher} (env : Env) (token : str) (st : State)
  : Prop :=
  exists config_data,
    config_file st = Some (Object config_data)
    /\ read_config env (Object config_data) = Some (config_data, token).

Section WithCipher.
Context {C : Cipher} {L : CipherLaws C}.

(** Whatever [_encrypt_token] returns, [_decrypt_token] reads back. *)
Lemma encrypt_then_decrypt (ca : bool) (h : Host) (entropy : bytes)
    (t c : str) :
  _encrypt_token ca h entropy t = Ret c -> _decrypt_token ca h c = Some t.
Proof.
  unfold _encrypt_token, _decrypt_token, str_encode. destruct ca.
  - destruct (_generate_encryption_key true h) as [k| |] eqn:Hk;
      try discriminate.
    destruct (derived_key_raw _ _ _ Hk) as (raw & Hraw & ->).
    rewrite (Fernet_b64 raw Hraw).
    destruct (Utf8.encode t) as [data|] eqn:Hdata; [|discriminate].
    apply decode_encode in Hdata.
    destruct (b64_text (fernet_encrypt raw entropy data)) as (c' & Hc & Henc).
    rewrite Hc. intros [= <-]. cbn [to_option].
    rewrite (Fernet_b64 raw Hraw). cbn [to_option].
    rewrite Henc, urlsafe_b64decode_encode.
    now rewrite (fernet_correct raw entropy data Hraw).
  - discriminate.
Qed.

(** The cipher's output is never empty (a Fernet token starts with its
    version byte). *)
Hypothesis fernet_nonempty :
  forall key entropy data, fernet_encrypt key entropy data <> [].

Lemma ciphertext_nonempty (ca : bool) (h : Host) (entropy : bytes)
    (t c : str) :
  _encrypt_token ca h entropy t = Ret c -> t <> [] -> c <> [].
Proof.
  unfold _encrypt_token, str_encode. intros H Ht ->. destruct ca.
  - destruct (_generate_encryption_key true h) as [k| |]; try discriminate.
    destruct (Fernet k) as [f| |]; try discriminate.
    destruct (Utf8.encode t) as [data|]; [|discriminate].
    apply text_empty, b64_empty in H. now apply fernet_nonempty in H.
  - discriminate H.
Qed.

Context (env : Env).

Lemma validate_accepts_long (token : str) (n : nat) (d : bool)
    (r : option dict) (info : dict) (st st' : State) :
  _validate_token env token n d st = (Ret r, st') ->
  if_true r = Some info ->
  (30 <= length token)%nat.
Proof.
  unfold _validate_token.
  destruct (PyStr.eqb token [] || (length token <? 30)%nat) eqn:Hs.
  - intros [= <- _]. discriminate.
  - intros _ _. apply orb_false_iff in Hs as [_ Hs]. now apply Nat.ltb_ge.
Qed.

(** A store that returns [True] has validated the token and written a
    record that holds it. *)
Lemma store_true (token : str) (st st1 : State) :
  store_token_securely env token st = (Ret true, st1) ->
  (30 <= length token)%nat
  /\ config_writable st1 = true
  /\ holds_token env token st1.
Proof.
  unfold store_token_securely, try_except, bind.
  destruct (validate_returns env token 3 false st)
    as (r & st0 & Hv & Hnet & _).
  rewrite Hv. destruct (if_true r) as [info|] eqn:Hr; [|discriminate].
  pose proof (validate_accepts_long _ _ _ _ _ _ _ Hv Hr) as Hlen.
  unfold encrypt_now.
  destruct (_encrypt_token _ _ _ token) as [c|x|] eqn:Hc.
  2:{ cbn. destruct (is_Exception x); discriminate. }
  2:{ discriminate. }
  unfold now, write_config. cbn [config_writable count_draw].
  destruct (config_writable st0) eqn:Hw; cbn [is_Exception];
    [|discriminate].
  intros [= <-]. split; [exact Hlen|]. split; [exact Hw|].
  eexists. split; [reflexivity|].
  assert (Hne : c <> []).
  { eapply ciphertext_nonempty; [exact Hc|].
    intros ->. cbn in Hlen. lia. }
  unfold read_config. rewrite dict_get_here.
  unfold PyStr.eqb at 1. rewrite bool_decide_eq_true_2 by reflexivity.
  rewrite dict_get_next by (vm_compute; discriminate).
  rewrite dict_get_here. cbn [truthy].
  unfold PyStr.eqb. rewrite bool_decide_eq_false_2 by exact Hne.
  cbn [negb]. now rewrite (encrypt_then_decrypt _ _ _ _ _ Hc).
Qed.

End WithCipher.
End RecordRoundTrip.

(** X4. In the strong-cipher mode, on every machine whose identifier tuple
    is text, a key is derived, and it is what [Fernet] accepts: 44 bytes of
    URL-safe base64 that decode to 32 raw bytes. In the fallback mode no key
    is derived at all: [_generate_encryption_key] raises [NameError],
    because [base64] was never imported. *)
Theorem derived_key_is_a_fernet_key {C : Cipher} {L : CipherLaws C} (h : Host) :
  forallb Utf8.is_scalar (identifier h) = true ->
  (exists k raw,
      _generate_encryption_key true h = Ret k
      /\ Fernet k = Ret raw
      /\ length raw = 32%nat
      /\ length k = 44%nat)
  /\ _generate_encryption_key false h = Raise NameError.
Proof.
  intros Ht.
  destruct (EncryptionFacts.str_encode_text _ Ht) as (ident & Hi & _).
  split.
  - assert (exists k, _generate_encryption_key true h = Ret k) as [k Hk].
    { unfold _generate_encryption_key. rewrite Hi. now eexists. }
    destruct (EncryptionFacts.derived_key_raw _ _ _ Hk) as (raw & Hraw & ->).
    exists (Base64.urlsafe_b64encode raw), raw. split; [exact Hk|].
    split; [now apply EncryptionFacts.Fernet_b64|]. split; [exact Hraw|].
    now apply RecordRoundTrip.b64_key_length.
  - unfold _generate_encryption_key. now rewrite Hi.
Qed.

Lemma derived_key_is_a_fernet_key_witness :
  (exists k raw,
      _generate_encryption_key (C := ref_cipher) true host_a = Ret k
      /\ Fernet k = Ret raw
      /\ length raw = 32%nat
      /\ length k = 44%nat)
  /\ _generate_encryption_key (C := ref_cipher) false host_a = Raise NameError.
Proof.
  apply (derived_key_is_a_fernet_key (C := ref_cipher) host_a).
  vm_compute; reflexivity.
Defined.

(** X5. What [store_token_securely] writes, [_load_secure_token] reads: after
    a store that returned [True], the token has at least 30 characters, the
    record on disk holds it, and the next load returns exactly this
    token. The cipher is assumed never to produce an empty output. *)
Theorem store_then_load {C : Cipher} {L : CipherLaws C} (env : Env)
    (token : str) (st st1 : State) :
  (forall key entropy data, fernet_encrypt key entropy data <> []) ->
  store_token_securely env token st = (Ret true, st1) ->
  (30 <= length token)%nat
  /\ RecordRoundTrip.holds_token env token st1
  /\ exists st2,
       _load_secure_token env st1 = (Ret (Some token), st2)
       /\ RecordRoundTrip.holds_token env token st2.
Proof.
  intros Hne Hstore.
  destruct (RecordRoundTrip.store_true Hne env token st st1 Hstore)
    as (Hlen & Hw & d & Hfile & Hread).
  split; [exact Hlen|]. split; [now exists d|].
  unfold _load_secure_token. rewrite Hfile, Hread.
  assert (PyStr.eqb token [] = false) as ->.
  { apply bool_decide_eq_false_2. intros ->. cbn in Hlen. lia. }
  cbn [negb]. unfold try_except, bind, now, write_config.
  cbn [config_writable count_draw]. rewrite Hw.
  eexists. split; [reflexivity|].
  eexists. split; [reflexivity|].
  now apply RecordFacts.read_config_refreshed.
Qed.

Lemma store_then_load_witness :
  exists st1 st2,
    store_token_securely (C := ref_cipher) env_online token_x40 st_empty
    = (Ret true, st1)
    /\ _load_secure_token (C := ref_cipher) env_online st1
       = (Ret (Some token_x40), st2).
Proof.
  assert (exists st1,
             store_token_securely (C := ref_cipher) env_online token_x40
               st_empty = (Ret true, st1)) as [st1 Hstore]
    by (eexists; vm_compute; reflexivity).
  destruct (store_then_load (C := ref_cipher) env_online token_x40 st_empty
              st1 ltac:(discriminate) Hstore) as (_ & _ & st2 & Hload & _).
  exists st1, st2. split; [exact Hstore|exact Hload].
Defined.

(** ** What a call has established when it returns *)
Module Post.
Import PromptFacts ValidationFacts StoreFacts RecordRoundTrip.

(** From a state in [P], whenever [m] returns [a] the state is in [Q a]. *)
Definition triple {A} (P : State -> Prop) (m : M A)
    (Q : A -> State -> Prop) : Prop :=
  forall st a st', P st -> m st = (Ret a, st') -> Q a st'.

Definition any : State -> Prop := fun _ => True.

Lemma triple_true {A} (P : State -> Prop) (m : M A) :
  triple P m (fun _ => any).
Proof. now intros st a st' _ _. Qed.

Lemma triple_ret {A} (P : State -> Prop) (a : A) (Q : A -> State -> Prop) :
  (forall st, P st -> Q a st) -> triple P (ret a) Q.
Proof. intros H st b st' HP [= <- <-]. now apply H. Qed.

Lemma triple_raise {A} (P : State -> Prop) (e : exn)
    (Q : A -> State -> Prop) :
  triple P (raise e) Q.
Proof. intros st a st' _ [=]. Qed.

Lemma triple_out_of_fuel {A} (P : State -> Prop) (Q : A -> State -> Prop) :
  triple P out_of_fuel Q.
Proof. intros st a st' _ [=]. Qed.

Lemma triple_bind {A B} (P : State -> Prop) (m : M A) (k : A -> M B)
    (R : A -> State -> Prop) (Q : B -> State -> Prop) :
  triple P m R -> (forall a, triple (R a) (k a) Q) -> triple P (bind m k) Q.
Proof.
  intros Hm Hk st b st' HP. unfold bind.
  destruct (m st) as [[a|e|] st1] eqn:E; try discriminate.
  apply (Hk a st1 b st'). exact (Hm st a st1 HP E).
Qed.

Lemma triple_try {A} (P : State -> Prop) (m : M A) (h : exn -> M A)
    (Q : A -> State -> Prop) :
  triple P m Q -> (forall e, triple any (h e) Q) ->
  triple P (try_except m h) Q.
Proof.
  intros Hm Hh st a st' HP. unfold try_except.
  destruct (m st) as [[b|e|] st1] eqn:E.
  - intros [= <- <-]. exact (Hm st b st1 HP E).
  - destruct (is_Exception e); [|discriminate]. now apply Hh.
  - discriminate.
Qed.

Lemma triple_if {A} (P : State -> Prop) (b : bool) (m1 m2 : M A)
    (Q : A -> State -> Prop) :
  triple P m1 Q -> triple P m2 Q -> triple P (if b then m1 else m2) Q.
Proof. now destruct b. Qed.

Lemma triple_any {A} (P : State -> Prop) (m : M A) (Q : A -> State -> Prop) :
  triple any m Q -> triple P m Q.
Proof. intros H st a st' _. now apply H. Qed.

Section Flows.
Context {C : Cipher} {L : CipherLaws C}.
Hypothesis fernet_nonempty :
  forall key entropy data, fernet_encrypt key entropy data <> [].
Context (env : Env).

(** [token] is on record: it is long enough to be a token, the credential
    file can be written, and the record in it holds [token]. *)
Definition on_record (token : str) (st : State) : Prop :=
  (30 <= length token)%nat
  /\ config_writable st = true
  /\ holds_token env token st.

Definition some_on_record (r : option str) (st : State) : Prop :=
  forall token, r = Some token -> on_record token st.

Lemma on_record_ext (token : str) (st st' : State) :
  config_file st' = config_file st ->
  config_writable st' = config_writable st ->
  on_record token st -> on_record token st'.
Proof.
  intros Hc Hw (Hlen & Hwr & d & Hf & Hr). split; [exact Hlen|].
  split; [congruence|]. exists d. split; [congruence|exact Hr].
Qed.

(** A token on record is what the next load returns. *)
Lemma load_on_record (token : str) (st : State) :
  on_record token st ->
  exists st',
    _load_secure_token env st = (Ret (Some token), st')
    /\ on_record token st'.
Proof.
  intros (Hlen & Hw & d & Hfile & Hread).
  unfold _load_secure_token. rewrite Hfile, Hread.
  assert (PyStr.eqb token [] = false) as ->.
  { apply bool_decide_eq_false_2. intros ->. cbn in Hlen. lia. }
  cbn [negb]. unfold try_except, bind, now, write_config.
  cbn [config_writable count_draw]. rewrite Hw.
  eexists. split; [reflexivity|]. split; [exact Hlen|]. split; [exact Hw|].
  eexists. split; [reflexivity|].
  now apply RecordFacts.read_config_refreshed.
Qed.

Lemma store_post (token : str) :
  triple any (store_token_securely env token)
         (fun b st => b = true -> on_record token st).
Proof.
  intros st b st' _ H ->.
  exact (store_true fernet_nonempty env token st st' H).
Qed.

Lemma setup_loop_post (fuel : nat) :
  triple any (setup_loop env fuel) on_record.
Proof.
  induction fuel as [|fuel IH]; cbn [setup_loop];
    [apply triple_out_of_fuel|].
  apply (triple_bind _ _ _ (fun _ => any)); [apply triple_true|].
  intros new_token. apply triple_if; [exact IH|].
  apply (triple_bind _ _ _ (fun _ => any)); [apply triple_true|].
  intros user_info. destruct (if_true user_info); [|exact IH].
  apply (triple_bind _ _ _ (fun b st => b = true -> on_record new_token st));
    [apply store_post|].
  intros [|]; [|apply triple_any, IH].
  apply triple_ret. intros st H. now apply H.
Qed.

Lemma setup_post : triple any (_setup_new_token env) on_record.
Proof.
  unfold _setup_new_token.
  apply (triple_bind _ _ _ (fun _ => any)); [apply triple_true|].
  intros choice. apply triple_if; [apply triple_raise|].
  intros st a st' _ H. exact (setup_loop_post _ st a st' I H).
Qed.

Lemma setup_some_post :
  triple any (token <- _setup_new_token env ;; ret (Some token))
         some_on_record.
Proof.
  apply (triple_bind _ _ _ on_record); [apply setup_post|].
  intros token. apply triple_ret. now intros st H t [= <-].
Qed.

Lemma cleanup_keeps_config (legacy_tokens : list (str * str)) :
  forall st,
    config_file (snd (_cleanup_legacy_tokens env legacy_tokens st))
    = config_file st
    /\ config_writable (snd (_cleanup_legacy_tokens env legacy_tokens st))
       = config_writable st.
Proof.
  induction legacy_tokens as [|[f t] rest IH]; intros st; [done|].
  cbn [_cleanup_legacy_tokens].
  destruct (shell_files st !! f) as [lines|]; [|apply IH].
  destruct (shell_writable env f); [|apply IH].
  unfold bind.
  specialize (IH (with_shell_files
                    (<[f:=cleanup_lines lines]> (shell_files st)) st)).
  destruct (_cleanup_legacy_tokens env rest _) as [[c|e|] st1]; exact IH.
Qed.

Lemma migration_post (legacy_tokens : list (str * str)) :
  triple any (_handle_migration env legacy_tokens) some_on_record.
Proof.
  unfold _handle_migration.
  apply triple_try; [|intros; apply setup_some_post].
  apply (triple_bind _ _ _ (fun _ => any)); [apply triple_true|].
  intros choice. apply triple_if.
  { apply triple_ret. now intros st _ t [=]. }
  apply (triple_bind _ _ _ (fun _ => any)); [apply triple_true|].
  intros [selected|]; [|apply setup_some_post].
  unfold persist_selected.
  apply (triple_bind _ _ _ (fun b st => b = true -> on_record selected st));
    [apply store_post|].
  intros [|]; [|apply triple_any, setup_some_post].
  apply (triple_bind _ _ _ (fun _ => on_record selected)).
  - intros st a st' H E. specialize (H eq_refl).
    destruct (cleanup_keeps_config legacy_tokens st) as [Hc Hw].
    rewrite E in Hc, Hw. cbn [snd] in Hc, Hw.
    exact (on_record_ext _ _ _ Hc Hw H).
  - intros _. apply triple_ret. now intros st H t [= <-].
Qed.

Lemma load_post :
  triple any (_load_secure_token env)
         (fun r st => forall t, r = Some t -> t <> [] ->
                                config_writable st = true
                                /\ holds_token env t st).
Proof.
  intros st a st' _. unfold _load_secure_token.
  destruct (config_file st) as [content|] eqn:Hc;
    [|now intros [= <- _] ? [=]].
  destruct (read_config env content) as [[d t]|] eqn:Hr;
    [|now intros [= <- _] ? [=]].
  assert (content = Object d) as ->.
  { unfold read_config in Hr. repeat case_match; congruence. }
  destruct (PyStr.eqb t []) eqn:He; cbn [negb].
  - apply bool_decide_eq_true_1 in He.
    intros [= <- _] t' [= <-] Hne. congruence.
  - unfold try_except, bind, now, write_config.
    cbn [config_writable count_draw].
    destruct (config_writable st) eqn:Hw; cbn [is_Exception].
    + intros [= <- <-] t' [= <-] _. split; [exact Hw|].
      eexists. split; [reflexivity|].
      now apply RecordFacts.read_config_refreshed.
    + now intros [= <- _] ? [=].
Qed.

Lemma stored_post : triple any (stored_token env) some_on_record.
Proof.
  unfold stored_token.
  apply (triple_bind _ _ _
           (fun r st => forall t, r = Some t -> t <> [] ->
                                  config_writable st = true
                                  /\ holds_token env t st));
    [apply load_post|].
  intros [t|]; [|apply triple_ret; now intros st _ t [=]].
  destruct (PyStr.eqb t []) eqn:He; cbn [negb];
    [apply triple_ret; now intros st _ ? [=]|].
  apply bool_decide_eq_false_1 in He.
  intros st a st' H. destruct (H t eq_refl He) as [Hw Hh]. unfold bind.
  destruct (validate_returns env t 3 false st)
    as (u & st2 & Hv & Hnet & _).
  rewrite Hv. destruct (if_true u) as [info|] eqn:Hu.
  - intros [= <- <-] t' [= <-].
    apply (on_record_ext t st st2); [apply Hnet|apply Hnet|].
    split; [exact (validate_accepts_long _ _ _ _ _ _ _ _ Hv Hu)|].
    now split.
  - destruct (remove_returns st2) as (st3 & -> & _).
    now intros [= <- _] ? [=].
Qed.

Lemma migrated_post : triple any (migrated_token env) some_on_record.
Proof.
  unfold migrated_token.
  apply (triple_bind _ _ _ (fun _ => any)); [apply triple_true|].
  intros [|entry rest]; [apply triple_ret; now intros st _ t [=]|].
  apply (triple_bind _ _ _ some_on_record); [apply migration_post|].
  intros [t|]; [|apply triple_ret; now intros st _ ? [=]].
  apply triple_if; apply triple_ret.
  - intros st H t' [= <-]. now apply H.
  - now intros st _ ? [=].
Qed.

Lemma get_secure_token_post : triple any (get_secure_token env) on_record.
Proof.
  unfold get_secure_token.
  apply (triple_bind _ _ _ some_on_record); [apply stored_post|].
  intros [t|]; [apply triple_ret; intros st H; now apply H|].
  apply triple_any.
  apply (triple_bind _ _ _ some_on_record); [apply migrated_post|].
  intros [t|]; [apply triple_ret; intros st H; now apply H|].
  apply triple_any, setup_post.
Qed.

End Flows.
End Post.

(** X6. The token that [get_secure_token] returns is on record: it has at
    least 30 characters, the credential file holds a record of the current
    version that decrypts to it on this machine, and the next load returns
    exactly this token. This holds on every path: the stored token, a
    migrated one, and one typed during setup. The cipher is assumed never
    to produce an empty output. *)
Theorem returned_token_is_on_record {C : Cipher} {L : CipherLaws C}
    (env : Env) (st st' : State) (token : str) :
  (forall key entropy data, fernet_encrypt key entropy data <> []) ->
  get_secure_token env st = (Ret token, st') ->
  (30 <= length token)%nat
  /\ RecordRoundTrip.holds_token env token st'
  /\ exists st2, _load_secure_token env st' = (Ret (Some token), st2).
Proof.
  intros Hne Hrun.
  pose proof (Post.get_secure_token_post Hne env st token st' I Hrun) as Hrec.
  destruct (Post.load_on_record env token st' Hrec) as (st2 & Hload & _).
  destruct Hrec as (Hlen & _ & Hholds).
  split; [exact Hlen|]. split; [exact Hholds|]. now exists st2.
Qed.

Lemma returned_token_is_on_record_witness :
  exists st' st2,
    get_secure_token (C := ref_cipher) env_online st_migrating
    = (Ret token_x40, st')
    /\ _load_secure_token (C := ref_cipher) env_online st'
       = (Ret (Some token_x40), st2).
Proof.
  assert (exists st',
             get_secure_token (C := ref_cipher) env_online st_migrating
             = (Ret token_x40, st')) as [st' Hrun]
    by (eexists; vm_compute; reflexivity).
  destruct (returned_token_is_on_record (C := ref_cipher) env_online
              st_migrating st' token_x40 ltac:(discriminate) Hrun)
    as (_ & _ & st2 & Hload).
  exists st', st2. split; [exact Hrun|exact Hload].
Defined.

(** X7. The steady state: with a record on disk that holds a token of at
    least 30 characters, a writable credential file and a service that
    accepts the token at the first request, [get_secure_token] returns the
    stored token after exactly one request, reads nothing from the user,
    leaves the shell files alone and only refreshes [last_used] in the
    record. *)
Theorem valid_stored_token_is_returned {C : Cipher} (env : Env) (st : State)
    (config_data : dict) (token : str) (info : dict) :
  config_file st = Some (Object config_data) ->
  read_config env (Object config_data) = Some (config_data, token) ->
  config_writable st = true ->
  (30 <= length token)%nat ->
  api env (api_calls st) token = ApiReturn (Some info) ->
  has_identity (Some info) = true ->
  exists st',
    get_secure_token env st = (Ret token, st')
    /\ stdin st' = stdin st
    /\ shell_files st' = shell_files st
    /\ api_calls st' = S (api_calls st)
    /\ config_file st'
       = Some (Object (dict_set (py "last_used")
                                (JStr (clock env (draws st))) config_data)).
Proof.
  intros Hfile Hread Hw Hlen Hapi Hid.
  assert (Hne : PyStr.eqb token [] = false).
  { apply bool_decide_eq_false_2. intros ->. cbn in Hlen. lia. }
  unfold get_secure_token, stored_token. unfold bind at 1 2.
  unfold _load_secure_token. rewrite Hfile, Hread, Hne. cbn [negb].
  unfold try_except, bind at 1 2, now, write_config.
  cbn [config_writable count_draw]. rewrite Hw. unfold ret at 1.
  rewrite Hne. cbn [negb]. unfold bind at 1.
  set (st1 := with_config _ _).
  unfold _validate_token. rewrite Hne.
  replace (length token <? 30)%nat with false
    by (symmetry; apply Nat.ltb_ge; exact Hlen).
  cbn [orb].
  destruct (ValidationBounds.validate_attempts_recover env token 3 info
              0 3 0 st1 eq_refl ltac:(lia)) as (st2 & -> & Hcalls & _ & Hnet).
  { intros i Hi. lia. }
  { now rewrite Nat.add_0_r. }
  { exact Hid. }
  assert (if_true (Some info) = Some info) as ->.
  { destruct info; [discriminate Hid|reflexivity]. }
  exists st2. split; [reflexivity|].
  destruct Hnet as [Kc _ Ks Ki _ _].
  split; [now rewrite Ki|]. split; [now rewrite Ks|].
  split; [rewrite Hcalls; cbn; lia|]. now rewrite Kc.
Qed.

Lemma valid_stored_token_is_returned_witness :
  exists st',
    get_secure_token (C := ref_cipher) env_online st_stored
    = (Ret token_x40, st')
    /\ stdin st' = stdin st_stored
    /\ shell_files st' = shell_files st_stored
    /\ api_calls st' = S (api_calls st_stored).
Proof.
  assert (exists d,
             config_file st_stored = Some (Object d)
             /\ read_config (C := ref_cipher) env_online (Object d)
                = Some (d, token_x40)) as (d & Hd & Hread)
    by (eexists; split; [vm_compute; reflexivity|vm_compute; reflexivity]).
  destruct (valid_stored_token_is_returned (C := ref_cipher) env_online
              st_stored d token_x40 a_user Hd Hread)
    as (st' & Hrun & Hin & Hsh & Hcalls & _).
  - vm_compute; reflexivity.
  - vm_compute; lia.
  - vm_compute; reflexivity.
  - vm_compute; reflexivity.
  - exists st'. split; [exact Hrun|]. split; [exact Hin|].
    split; [exact Hsh|exact Hcalls].
Defined.

(** X8. A credential file that cannot be rewritten hides its token: the
    update of [last_used] fails, the read is abandoned, and the stored
    token is passed over without a request to the service; the file stays
    as it is, and [get_secure_token] goes on to migration and setup. *)
Theorem readonly_record_is_passed_over {C : Cipher} (env : Env) (st : State) :
  config_writable st = false ->
  exists st',
    stored_token env st = (Ret None, st')
    /\ config_file st' = config_file st
    /\ api_calls st' = api_calls st
    /\ stdin st' = stdin st
    /\ trace st' = trace st.
Proof.
  intros Hw. unfold stored_token, bind, _load_secure_token.
  destruct (config_file st) as [content|] eqn:Hc;
    [|exists st; repeat split; assumption].
  destruct (read_config env content) as [[d t]|];
    [|exists st; repeat split; assumption].
  destruct (PyStr.eqb t []) eqn:He; cbn [negb].
  - rewrite He. cbn [negb]. exists st. repeat split; assumption.
  - unfold try_except, bind, now, write_config.
    cbn [config_writable count_draw]. rewrite Hw. cbn [is_Exception].
    eexists. split; [reflexivity|]. repeat split; assumption.
Qed.

Lemma readonly_record_is_passed_over_witness :
  exists st',
    stored_token (C := ref_cipher) env_online st_stored_readonly
    = (Ret None, st')
    /\ config_file st' = config_file st_stored_readonly
    /\ api_calls st' = api_calls st_stored_readonly.
Proof.
  destruct (readonly_record_is_passed_over (C := ref_cipher) env_online
              st_stored_readonly eq_refl) as (st' & Hrun & Hc & Ha & _).
  exists st'. split; [exact Hrun|]. split; [exact Hc|exact Ha].
Defined.

(** ** Detection of legacy tokens, and what cleanup leaves of them *)
Module DetectionFacts.
Import PyStr LegacyFacts CleanupFacts CleanupStateFacts.

Lemma extract_long (line t : str) :
  _extract_token_from_line line = Some t -> (30 < length t)%nat.
Proof.
  unfold _extract_token_from_line.
  destruct (split1 EQUALS line) as [[a b]|]; [|discriminate]. cbv zeta.
  match goal with
  | |- (if ?c then _ else _) = _ -> _ => destruct c eqn:E; [|discriminate]
  end.
  intros [= <-]. apply andb_true_iff in E as [_ E]. now apply Nat.ltb_lt in E.
Qed.

(** A token found by the scan comes from an export line that follows a
    sentinel line. *)
Lemma scan_sound (lines : text) (t : str) :
  scan_lines lines = Some t ->
  exists pre s e post,
    lines = pre ++ s :: e :: post
    /\ is_sentinel s = true
    /\ is_export e = true
    /\ _extract_token_from_line (strip e) = Some t.
Proof.
  induction lines as [|line rest IH]; [discriminate|].
  assert (Hrest : scan_lines rest = Some t ->
                  exists pre s e post,
                    line :: rest = pre ++ s :: e :: post
                    /\ is_sentinel s = true
                    /\ is_export e = true
                    /\ _extract_token_from_line (strip e) = Some t).
  { intros H. destruct (IH H) as (pre & s & e & post & -> & Hs & He & Hx).
    now exists (line :: pre), s, e, post. }
  cbn [scan_lines]. destruct (is_sentinel line) eqn:Hs; [|exact Hrest].
  destruct rest as [|next rest']; [exact Hrest|].
  destruct (is_export next) eqn:He; [|exact Hrest].
  destruct (_extract_token_from_line (strip next)) as [token|] eqn:Hx;
    [|exact Hrest].
  intros [= <-]. now exists [], line, next, rest'.
Qed.

Lemma in_detect_in (fs : gmap str text) (f g t : str) :
  In (g, t) (detect_in fs f)
  <-> g = f /\ exists lines, fs !! f = Some lines /\ scan_lines lines = Some t.
Proof.
  unfold detect_in. destruct (fs !! f) as [lines|].
  - destruct (scan_lines lines) as [t'|] eqn:Hscan; cbn [In].
    + split.
      * intros [[= <- <-]|[]]. split; [done|]. now exists lines.
      * intros (-> & lines' & [= <-] & Ht). left. congruence.
    + split; [done|]. intros (_ & lines' & [= <-] & Ht). congruence.
  - split; [done|]. now intros (_ & lines' & [=] & _).
Qed.

Lemma in_detected (fs : gmap str text) (files : list str) (f t : str) :
  In (f, t) (flat_map (detect_in fs) files)
  <-> In f files
      /\ exists lines, fs !! f = Some lines /\ scan_lines lines = Some t.
Proof.
  rewrite in_flat_map. split.
  - intros (g & Hg & Hin). apply in_detect_in in Hin as (-> & H). now split.
  - intros (Hf & H). exists f. split; [exact Hf|]. now apply in_detect_in.
Qed.

Lemma detect_in_nil (fs : gmap str text) (f : str) :
  (forall lines, fs !! f = Some lines -> scan_lines lines = None) ->
  detect_in fs f = [].
Proof.
  intros H. unfold detect_in. destruct (fs !! f) as [lines|]; [|done].
  now rewrite (H lines eq_refl).
Qed.

Lemma flat_map_nil {A B} (f : A -> list B) (l : list A) :
  (forall x, In x l -> f x = []) -> flat_map f l = [].
Proof.
  induction l as [|x l IH]; intros H; [done|]. cbn [flat_map].
  rewrite (H x) by now left. apply IH. intros y Hy. apply H. now right.
Qed.

Lemma scan_cleaned (lines : text) : scan_lines (cleanup_lines lines) = None.
Proof.
  apply scan_no_sentinel. apply (cleanup_no_sentinel_upto (length lines)). lia.
Qed.

(** The report of the cleanup when every listed file exists: the files
    that could be written. *)
Lemma cleanup_report (env : Env) (legacy_tokens : list (str * str)) :
  forall st,
    (forall f, In f (map fst legacy_tokens) -> is_Some (shell_files st !! f)) ->
    fst (_cleanup_legacy_tokens env legacy_tokens st)
    = Ret (map basename
               (List.filter (shell_writable env) (map fst legacy_tokens))).
Proof.
  induction legacy_tokens as [|[f t] rest IH]; intros st Hall; [done|].
  cbn [_cleanup_legacy_tokens map fst List.filter].
  destruct (Hall f ltac:(now left)) as [lines Hf]. rewrite Hf.
  destruct (shell_writable env f).
  - unfold bind. set (st1 := with_shell_files _ st).
    specialize (IH st1).
    destruct (_cleanup_legacy_tokens env rest st1) as [r st2].
    cbn [fst] in IH. rewrite IH; [done|].
    intros g Hg. subst st1. cbn [shell_files with_shell_files].
    apply lookup_insert_is_Some'. right. apply Hall. now right.
  - apply IH. intros g Hg. apply Hall. now right.
Qed.

Lemma filter_flat_map {A B} (p : B -> bool) (g : A -> list B) (l : list A) :
  List.filter p (flat_map g l) = flat_map (fun x => List.filter p (g x)) l.
Proof.
  induction l as [|x l IH]; [done|]. cbn [flat_map].
  now rewrite List.filter_app, IH.
Qed.

Lemma flat_map_agree {A B} (g g' : A -> list B) (l : list A) :
  (forall x, In x l -> g x = g' x) -> flat_map g l = flat_map g' l.
Proof.
  induction l as [|x l IH]; intros H; [done|]. cbn [flat_map].
  rewrite (H x) by now left. f_equal. apply IH. intros y Hy. apply H. now right.
Qed.

Lemma filter_none {A} (p : A -> bool) (l : list A) :
  (forall x, In x l -> p x = false) -> List.filter p l = [].
Proof.
  induction l as [|x l IH]; intros H; [done|]. cbn [List.filter].
  rewrite (H x) by now left. apply IH. intros y Hy. apply H. now right.
Qed.

End DetectionFacts.

(** X9. Detection reports only what is there, and changes nothing: every
    reported pair names a file of the shell's list that exists, in which a
    sentinel line is directly followed by an export line of the token
    variable whose value is the reported token, longer than 30 characters;
    and a file is reported with one token only. *)
Theorem detection_is_sound (env : Env) (st : State) :
  exists found,
    _detect_legacy_tokens env st = (Ret found, st)
    /\ (forall f t,
          In (f, t) found ->
          In f (_get_shell_config_files env)
          /\ (30 < length t)%nat
          /\ exists pre s e post,
               shell_files st !! f = Some (pre ++ s :: e :: post)
               /\ is_sentinel s = true
               /\ is_export e = true
               /\ _extract_token_from_line (PyStr.strip e) = Some t)
    /\ (forall f t1 t2, In (f, t1) found -> In (f, t2) found -> t1 = t2).
Proof.
  eexists. split; [reflexivity|]. split.
  - intros f t (Hf & lines & Hl & Hscan)%DetectionFacts.in_detected.
    split; [exact Hf|].
    destruct (DetectionFacts.scan_sound _ _ Hscan)
      as (pre & s & e & post & -> & Hs & He & Hx).
    split; [exact (DetectionFacts.extract_long _ _ Hx)|].
    now exists pre, s, e, post.
  - intros f t1 t2 (_ & l1 & Hl1 & H1)%DetectionFacts.in_detected
                   (_ & l2 & Hl2 & H2)%DetectionFacts.in_detected.
    congruence.
Qed.

(** X10. Detection after cleanup finds exactly what cleanup could not
    remove. When [_cleanup_legacy_tokens] is run on what
    [_detect_legacy_tokens] found, it reports the base names of the files
    found that can be written; a second detection then returns the entries
    of the files that cannot be written, and nothing else. So when every
    file found can be written, nothing is left to detect. Files that were
    not reported, or cannot be written, are as they were, and the
    credential file is untouched. *)
Theorem detection_after_cleanup (env : Env) (st : State)
    (found : list (str * str)) :
  _detect_legacy_tokens env st = (Ret found, st) ->
  exists st',
    _cleanup_legacy_tokens env found st
    = (Ret (map basename (List.filter (shell_writable env) (map fst found))),
       st')
    /\ _detect_legacy_tokens env st'
       = (Ret (List.filter (fun entry => negb (shell_writable env (fst entry)))
                           found),
          st')
    /\ ((forall f, In f (map fst found) -> shell_writable env f = true) ->
        _detect_legacy_tokens env st' = (Ret [], st'))
    /\ (forall f, ~ In f (map fst found) \/ shell_writable env f = false ->
                  shell_files st' !! f = shell_files st !! f)
    /\ config_file st' = config_file st.
Proof.
  unfold _detect_legacy_tokens at 1. intros [= <-].
  set (found := flat_map _ _).
  pose proof (CleanupStateFacts.cleanup_rewrites_listed_files env found st)
    as Hfs.
  pose proof (DetectionFacts.cleanup_report env found st) as Hrep.
  destruct (Post.cleanup_keeps_config env found st) as [Hcfg _].
  destruct (_cleanup_legacy_tokens env found st) as [r st'].
  cbn [fst snd] in *.
  assert (Hagain :
            _detect_legacy_tokens env st'
            = (Ret (List.filter
                      (fun entry => negb (shell_writable env (fst entry)))
                      found), st')).
  { unfold _detect_legacy_tokens. f_equal. f_equal. unfold found at 1.
    rewrite DetectionFacts.filter_flat_map.
    apply DetectionFacts.flat_map_agree. intros f Hf.
    unfold detect_in. rewrite Hfs.
    destruct (shell_files st !! f) as [lines|] eqn:Hl.
    - destruct (scan_lines lines) as [t|] eqn:Hscan.
      + rewrite bool_decide_eq_true_2.
        2:{ apply list_elem_of_fmap. exists (f, t). split; [done|].
            apply list_elem_of_In. apply DetectionFacts.in_detected.
            split; [exact Hf|]. now exists lines. }
        cbn [andb List.filter fst].
        destruct (shell_writable env f); cbn [negb fmap option_fmap option_map].
        * now rewrite DetectionFacts.scan_cleaned.
        * now rewrite Hscan.
      + destruct (bool_decide (f ∈ found.*1) && shell_writable env f);
          cbn [fmap option_fmap option_map List.filter].
        * now rewrite DetectionFacts.scan_cleaned.
        * now rewrite Hscan.
    - now destruct (bool_decide (f ∈ found.*1) && shell_writable env f). }
  exists st'. split; [|split; [exact Hagain|split; [|split]]].
  - rewrite Hrep; [done|]. intros f Hf.
    apply in_map_iff in Hf as ([f' t] & <- & Hin).
    apply DetectionFacts.in_detected in Hin as (_ & lines & Hl & _).
    cbn [fst]. rewrite Hl. now eexists.
  - intros Hall. rewrite Hagain. f_equal. f_equal.
    apply DetectionFacts.filter_none. intros [f t] Hin.
    cbn [fst]. rewrite (Hall f); [done|]. apply in_map_iff. now exists (f, t).
  - intros f Hf. rewrite Hfs.
    destruct (bool_decide (f ∈ found.*1)) eqn:Hin; [|done].
    destruct (shell_writable env f) eqn:Hw; [|done].
    destruct Hf as [Hf|Hf]; [|discriminate]. exfalso. apply Hf.
    apply list_elem_of_In. now apply bool_decide_eq_true_1 in Hin.
  - exact Hcfg.
Qed.

Lemma detection_after_cleanup_witness :
  exists st',
    _cleanup_legacy_tokens env_online [(bashrc_a, token_x40)] st_migrating
    = (Ret [py ".bashrc"], st')
    /\ _detect_legacy_tokens env_online st' = (Ret [], st').
Proof.
  destruct (detection_after_cleanup env_online st_migrating
              [(bashrc_a, token_x40)]) as (st' & Hclean & _ & Hnone & _).
  - vm_compute; reflexivity.
  - exists st'. split; [exact Hclean|]. apply Hnone. reflexivity.
Defined.

(** A file that cannot be written keeps its entry: cleanup passes it over
    without a report, and detection finds the entry again. *)
Example locked_file_is_found_again :
  _detect_legacy_tokens env_locked st_migrating
  = (Ret [(bashrc_a, token_x40)], st_migrating)
  /\ _cleanup_legacy_tokens env_locked [(bashrc_a, token_x40)] st_migrating
     = (Ret [], st_migrating).
Proof. split; vm_compute; reflexivity. Qed.

(** ** Migration, diagnostics and the validated token *)
Module MigrationFacts.
Import Post PromptFacts ValidationFacts StoreFacts.

Definition not_none (r : option str) (_ : State) : Prop := r <> None.

Section WithEnv.
Context {C : Cipher} (env : Env).

Lemma setup_some_given :
  triple any (token <- _setup_new_token env ;; ret (Some token)) not_none.
Proof.
  apply (triple_bind _ _ _ (fun _ => any)); [apply triple_true|].
  intros token. now apply triple_ret.
Qed.

(** Once the migration is confirmed, every way out that returns gives a
    token. *)
Lemma confirmed_given (legacy_tokens : list (str * str)) :
  triple any
    (selected_token <- select_token env legacy_tokens ;;
     match selected_token with
     | None => token <- _setup_new_token env ;; ret (Some token)
     | Some selected => persist_selected env legacy_tokens selected
     end) not_none.
Proof.
  apply (triple_bind _ _ _ (fun _ => any)); [apply triple_true|].
  intros [selected|]; [|apply setup_some_given].
  unfold persist_selected.
  apply (triple_bind _ _ _ (fun _ => any)); [apply triple_true|].
  intros [|]; [|apply setup_some_given].
  apply (triple_bind _ _ _ (fun _ => any)); [apply triple_true|].
  intros _. now apply triple_ret.
Qed.

End WithEnv.
End MigrationFacts.

(** X11. [_handle_migration] returns [None] exactly by way of a declined
    prompt: an answer "n" makes it return [None] at once, and whenever it
    returns [None] nothing but input was consumed: no request was made, the
    credential file and the shell files are as they were. *)
Theorem migration_none_is_a_declined_prompt {C : Cipher} (env : Env)
    (legacy_tokens : list (str * str)) (st : State) :
  (forall l rest,
      stdin st = Line l :: rest ->
      PyStr.lower (PyStr.strip l) = py "n" ->
      _handle_migration env legacy_tokens st = (Ret None, with_stdin rest st))
  /\ (forall st',
        _handle_migration env legacy_tokens st = (Ret None, st') ->
        st' = with_stdin (stdin st') st).
Proof.
  split.
  - intros l rest Hin Hn. unfold _handle_migration, try_except, bind.
    rewrite (PromptFacts.get_user_choice_line l rest st Hin)
      by now rewrite Hn.
    now rewrite Hn.
  - intros st'. unfold _handle_migration, try_except. unfold bind at 1.
    pose proof (PromptFacts.get_user_choice_spec YES_NO (py "y") st) as Hc.
    destruct (get_user_choice YES_NO (py "y") st) as [[choice|e|] st1].
    + destruct (negb (str_in choice ACCEPT)).
      * intros [= <-]. apply Hc.
      * pose proof (MigrationFacts.confirmed_given env legacy_tokens st1)
          as Hgiven.
        match goal with
        | |- (let (_, _) := ?m st1 in _) = _ -> _ =>
            destruct (m st1) as [[r|e|] st2] eqn:Hrun
        | |- match ?m st1 with _ => _ end = _ -> _ =>
            destruct (m st1) as [[r|e|] st2] eqn:Hrun
        end.
        -- intros [= Hr <-]. subst r. now destruct (Hgiven None st2 I eq_refl).
        -- destruct (is_Exception e); [|discriminate]. intros Hh.
           now destruct (MigrationFacts.setup_some_given env st2 None st' I Hh).
        -- discriminate.
    + destruct (is_Exception e); [|discriminate]. intros Hh.
      now destruct (MigrationFacts.setup_some_given env st1 None st' I Hh).
    + discriminate.
Qed.

(** X12. The diagnostics are safe to run: [diagnose_token] always returns a
    flag, asks nothing of the user, leaves the shell files alone, makes at
    most one request through the API client, and changes the credential
    file in one way only: when the stored token is the one under test, its
    [last_used] field is refreshed. With a token given on the command
    line the credential file is not touched. *)
Theorem diagnose_is_safe {C : Cipher} (env : Env) (token : option str)
    (st : State) :
  exists b st',
    diagnose_token env token st = (Ret b, st')
    /\ stdin st' = stdin st
    /\ shell_files st' = shell_files st
    /\ (api_calls st <= api_calls st' <= api_calls st + 1)%nat
    /\ (config_file st' = config_file st
        \/ exists config_data stored stamp,
             config_file st = Some (Object config_data)
             /\ read_config env (Object config_data)
                = Some (config_data, stored)
             /\ config_file st'
                = Some (Object (dict_set (py "last_used") (JStr stamp)
                                         config_data)))
    /\ (forall c t, token = Some (c :: t) -> config_file st' = config_file st).
Proof.
  unfold diagnose_token. unfold bind at 1, probe at 1.
  destruct (resolves env (probes st)); cbn [negb].
  2:{ exists false, (count_probe st). split; [reflexivity|].
      cbn. repeat split; try lia; now left. }
  unfold bind at 1, probe at 1. cbn [probes count_probe].
  destruct (reachable env (S (probes st))); cbn [negb].
  2:{ exists false, (count_probe (count_probe st)). split; [reflexivity|].
      cbn. repeat split; try lia; now left. }
  set (st2 := count_probe (count_probe st)).
  assert (Hsrc : exists r st0,
             token_under_test env token st2 = (Ret r, st0)
             /\ stdin st0 = stdin st
             /\ shell_files st0 = shell_files st
             /\ api_calls st0 = api_calls st
             /\ (config_file st0 = config_file st
                 \/ exists config_data stored stamp,
                      config_file st = Some (Object config_data)
                      /\ read_config env (Object config_data)
                         = Some (config_data, stored)
                      /\ config_file st0
                         = Some (Object (dict_set (py "last_used")
                                                  (JStr stamp) config_data)))
             /\ (forall c t, token = Some (c :: t) ->
                             config_file st0 = config_file st)).
  { assert (Hload : exists r st0,
               _load_secure_token env st2 = (Ret r, st0)
               /\ stdin st0 = stdin st
               /\ shell_files st0 = shell_files st
               /\ api_calls st0 = api_calls st
               /\ (config_file st0 = config_file st
                   \/ exists config_data stored stamp,
                        config_file st = Some (Object config_data)
                        /\ read_config env (Object config_data)
                           = Some (config_data, stored)
                        /\ config_file st0
                           = Some (Object (dict_set (py "last_used")
                                                    (JStr stamp) config_data)))).
    { destruct (StoreFacts.load_returns env st2)
        as (r & st0 & Hrun & Hco & Hr).
      pose proof (DiagnoseFacts.load_no_request env st2) as [Hn _].
      rewrite Hrun in Hn. cbn [snd] in Hn.
      exists r, st0. split; [exact Hrun|].
      split; [apply Hco|]. split; [apply Hco|]. split; [exact Hn|].
      destruct r as [stored|]; [|now left].
      destruct Hr as (d & Hfile & Hread & Hsame & Hnew).
      destruct (decide (stored = [])) as [He|He]; [left; now apply Hsame|].
      right. exists d, stored, (clock env (draws st2)).
      split; [exact Hfile|]. split; [exact Hread|]. now apply Hnew. }
    unfold token_under_test.
    destruct token as [[|c t]|].
    - destruct Hload as (r & st0 & ? & ? & ? & ? & ?).
      exists r, st0. repeat split; try assumption. intros ? ? [=].
    - exists (Some (c :: t)), st2. split; [reflexivity|].
      repeat split; now left.
    - destruct Hload as (r & st0 & ? & ? & ? & ? & ?).
      exists r, st0. repeat split; try assumption. intros ? ? [=]. }
  destruct Hsrc as (r & st0 & Hrun & Hin & Hsh & Hcalls & Hcfg & Hgiven).
  unfold bind at 1. rewrite Hrun.
  assert (Hstop : exists b st',
             @ret bool false st0 = (Ret b, st')
             /\ stdin st' = stdin st
             /\ shell_files st' = shell_files st
             /\ (api_calls st <= api_calls st' <= api_calls st + 1)%nat
             /\ (config_file st' = config_file st
                 \/ exists config_data stored stamp,
                      config_file st = Some (Object config_data)
                      /\ read_config env (Object config_data)
                         = Some (config_data, stored)
                      /\ config_file st'
                         = Some (Object (dict_set (py "last_used")
                                                  (JStr stamp) config_data)))
             /\ (forall c t, token = Some (c :: t) ->
                             config_file st' = config_file st)).
  { exists false, st0. split; [reflexivity|].
    split; [exact Hin|]. split; [exact Hsh|]. split; [lia|].
    split; [exact Hcfg|exact Hgiven]. }
  destruct r as [[|c t]|]; [exact Hstop| |exact Hstop].
  destruct (length (c :: t) <? 30)%nat; [exact Hstop|]. clear Hstop.
  unfold bind at 1, say_format. unfold bind at 1.
  set (st3 := log _ st0).
  destruct (ValidationFacts.validate_returns env (c :: t) 1 true st3)
    as (result & st' & Hv & Hnet & _).
  pose proof (ValidationBounds.validate_within env (c :: t) 1 true st3) as Hw.
  rewrite Hv in *. cbn [snd] in Hw. destruct Hw as [Hlo Hup _].
  destruct Hnet as [Kc _ Ks Ki _ _].
  assert (Hend : stdin st' = stdin st
                 /\ shell_files st' = shell_files st
                 /\ (api_calls st <= api_calls st' <= api_calls st + 1)%nat
                 /\ (config_file st' = config_file st
                     \/ exists config_data stored stamp,
                          config_file st = Some (Object config_data)
                          /\ read_config env (Object config_data)
                             = Some (config_data, stored)
                          /\ config_file st'
                             = Some (Object (dict_set (py "last_used")
                                                      (JStr stamp) config_data)))
                 /\ (forall c t, token = Some (c :: t) ->
                                 config_file st' = config_file st)).
  { subst st3. cbn [stdin shell_files api_calls config_file log] in *.
    split; [congruence|]. split; [congruence|]. split; [lia|].
    split.
    - rewrite Kc. exact Hcfg.
    - intros c' t' Ht. rewrite Kc. now apply (Hgiven c' t'). }
  destruct (if_true result); eexists _, st'; (split; [reflexivity|exact Hend]).
Qed.

Lemma migration_none_is_a_declined_prompt_witness :
  _handle_migration (C := ref_cipher) env_online [(bashrc_a, token_x40)]
    (with_stdin [Line (py " N ")] st_migrating)
  = (Ret None, with_stdin [] st_migrating).
Proof.
  apply (proj1 (migration_none_is_a_declined_prompt (C := ref_cipher)
                  env_online [(bashrc_a, token_x40)]
                  (with_stdin [Line (py " N ")] st_migrating))
               (py " N ") []).
  - reflexivity.
  - vm_compute; reflexivity.
Defined.

(** X13. [get_validated_token], the call the API client is built on: when it
    returns, the token has at least 30 characters, the user record has an
    ["id"], and the credential file holds the token; when it fails, it is
    with the [ValueError] of a declined setup, the [ValueError] of the
    second validation, [EOFError] at the end of input, or [SystemExit] on
    an interrupt. It always ends. *)
Theorem get_validated_token_result {C : Cipher} {L : CipherLaws C}
    (env : Env) (st : State) :
  (forall key entropy data, fernet_encrypt key entropy data <> []) ->
  match get_validated_token env st with
  | (Ret (token, info), st') =>
      (30 <= length token)%nat
      /\ has_identity (Some info) = true
      /\ RecordRoundTrip.holds_token env token st'
  | (Raise e, _) =>
      e = ValueError SETUP_CANCELLED \/ e = ValueError VALIDATION_FAILED
      \/ e = EOFError \/ e = SystemExit 1
  | (OutOfFuel, _) => False
  end.
Proof.
  intros Hne. unfold get_validated_token. unfold bind at 1.
  pose proof (FlowFacts.get_secure_token_well_ended env st) as Hend.
  pose proof (Post.get_secure_token_post Hne env st) as Hpost.
  destruct (get_secure_token env st) as [[token|e|] st1]; cbn [fst] in Hend.
  - destruct (Hpost token st1 I eq_refl) as (Hlen & _ & d & Hfile & Hread).
    unfold bind.
    destruct (ValidationFacts.validate_returns env token 3 false st1)
      as (u & st2 & -> & Hnet & Hu).
    destruct u as [[|entry info]|]; cbn [if_true raise].
    + now right; left.
    + destruct Hu as [Hu|Hu]; [discriminate|].
      split; [exact Hlen|]. split; [exact Hu|].
      exists d. split; [|exact Hread].
      destruct Hnet as [Kc _ _ _ _ _]. now rewrite Kc.
    + now right; left.
  - destruct Hend as [->|[->| ->]]; auto.
  - exact Hend.
Qed.

Lemma get_validated_token_result_witness :
  exists info st',
    get_validated_token (C := ref_cipher) env_online st_migrating
    = (Ret (token_x40, info), st')
    /\ has_identity (Some info) = true
    /\ RecordRoundTrip.holds_token (C := ref_cipher) env_online token_x40 st'.
Proof.
  assert (exists info st',
             get_validated_token (C := ref_cipher) env_online st_migrating
             = (Ret (token_x40, info), st')) as (info & st' & Hrun)
    by (do 2 eexists; vm_compute; reflexivity).
  pose proof (get_validated_token_result (C := ref_cipher) env_online
                st_migrating ltac:(discriminate)) as H.
  rewrite Hrun in H. destruct H as (_ & Hid & Hholds).
  exists info, st'. split; [exact Hrun|]. split; [exact Hid|exact Hholds].
Defined.

(** ** Invariants of whole runs *)
Module Steps.
Import Frame.

Section Rel.
Context (R : State -> State -> Prop).
Hypothesis R_refl : forall st, R st st.
Hypothesis R_trans : forall a b c, R a b -> R b c -> R a c.

(** However [m] ends, the state it leaves is related to the one it
    started in. *)
Definition respects {A} (m : M A) : Prop := forall st, R st (snd (m st)).

Lemma respects_ret {A} (a : A) : respects (ret a).
Proof. intros st. apply R_refl. Qed.

Lemma respects_raise {A} (e : exn) : respects (@raise A e).
Proof. intros st. apply R_refl. Qed.

Lemma respects_out_of_fuel {A} : respects (@out_of_fuel A).
Proof. intros st. apply R_refl. Qed.

Lemma respects_bind {A B} (m : M A) (k : A -> M B) :
  respects m -> (forall a, respects (k a)) -> respects (bind m k).
Proof.
  intros Hm Hk st. unfold bind. specialize (Hm st).
  destruct (m st) as [[a|e|] st1]; cbn [snd] in *; try exact Hm.
  exact (R_trans _ _ _ Hm (Hk a st1)).
Qed.

Lemma respects_try {A} (m : M A) (h : exn -> M A) :
  respects m -> (forall e, respects (h e)) -> respects (try_except m h).
Proof.
  intros Hm Hh st. unfold try_except. specialize (Hm st).
  destruct (m st) as [[a|e|] st1]; cbn [snd] in *; try exact Hm.
  destruct (is_Exception e); cbn [snd]; [|exact Hm].
  exact (R_trans _ _ _ Hm (Hh e st1)).
Qed.

Lemma respects_if {A} (b : bool) (m1 m2 : M A) :
  respects m1 -> respects m2 -> respects (if b then m1 else m2).
Proof. now destruct b. Qed.

Lemma respects_preserved {A X} (proj : State -> X) (m : M A) :
  (forall st st', proj st' = proj st -> R st st') ->
  preserves proj m -> respects m.
Proof. intros HR Hm st. apply HR, Hm. Qed.

End Rel.

(** An event that sends a token sends one of at least 30 characters. *)
Definition long_event (e : event) : Prop :=
  match e with
  | EvRequest token | EvDirect token => (30 <= length token)%nat
  | _ => True
  end.

(** From [st] to [st'], only tokens of at least 30 characters were sent to
    the service. *)
Definition sends_long (st st' : State) : Prop :=
  exists new, trace st' = trace st ++ new /\ Forall long_event new.

(** From [st] to [st'], a shell file is as it was or has lost the entries
    of the tool; no file appears or disappears. *)
Definition loses_entries (st st' : State) : Prop :=
  forall f,
    shell_files st' !! f = shell_files st !! f
    \/ shell_files st' !! f = cleanup_lines <$> (shell_files st !! f).

Definition careful (st st' : State) : Prop :=
  sends_long st st' /\ loses_entries st st'.

Lemma careful_refl (st : State) : careful st st.
Proof.
  split.
  - exists []. split; [now rewrite app_nil_r|constructor].
  - intros f. now left.
Qed.

Lemma careful_trans (a b c : State) : careful a b -> careful b c -> careful a c.
Proof.
  intros [(n1 & E1 & F1) L1] [(n2 & E2 & F2) L2]. split.
  - exists (n1 ++ n2). split; [now rewrite E2, E1, app_assoc|].
    now apply Forall_app.
  - intros f. destruct (L1 f) as [H1|H1], (L2 f) as [H2|H2];
      rewrite H2, H1; auto.
    right. destruct (shell_files a !! f) as [lines|]; [|done].
    cbn. now rewrite CleanupStateFacts.cleanup_idempotent.
Qed.

(** The part of the state that [careful] looks at. *)
Definition watched (st : State) : list event * gmap str text :=
  (trace st, shell_files st).

Lemma watched_careful (st st' : State) :
  watched st' = watched st -> careful st st'.
Proof.
  intros [= Ht Hs]. split.
  - exists []. split; [now rewrite app_nil_r|constructor].
  - intros f. left. now rewrite Hs.
Qed.

Definition quiet {A} (m : M A) : Prop := preserves watched m.

Lemma quiet_careful {A} (m : M A) : quiet m -> respects careful m.
Proof. apply respects_preserved. exact watched_careful. Qed.

Section WithEnv.
Context {C : Cipher} (env : Env).

Lemma input_quiet (required : bool) : quiet (get_user_input required).
Proof.
  intros st. unfold get_user_input.
  now destruct (input_loop required (stdin st)).
Qed.

Lemma choice_loop_quiet (choices : list str) (default : str) (fuel : nat) :
  quiet (choice_loop fuel choices default).
Proof.
  induction fuel as [|fuel IH]; cbn [choice_loop].
  - apply preserves_out_of_fuel.
  - apply preserves_bind; [apply input_quiet|]. intros value.
    repeat apply preserves_if; try apply preserves_ret. exact IH.
Qed.

Lemma choice_quiet (choices : list str) (default : str) :
  quiet (get_user_choice choices default).
Proof. intros st. apply (choice_loop_quiet choices default _ st). Qed.

Lemma load_quiet : quiet (_load_secure_token env).
Proof.
  intros st.
  unfold _load_secure_token, try_except, bind, now, write_config, ret.
  repeat case_match; simplify_eq; cbn; done.
Qed.

Lemma remove_quiet : quiet _remove_secure_token.
Proof.
  intros st. unfold _remove_secure_token. repeat case_match; done.
Qed.

Lemma written_quiet (token : str) (info : dict) :
  quiet (encrypted_token <- encrypt_now env token ;;
         created_at <- now env ;;
         last_used <- now env ;;
         _ <- write_config
                [(py "version", JStr CONFIG_VERSION);
                 (py "encrypted_token", JStr encrypted_token);
                 (py "created_at", JStr created_at);
                 (py "last_used", JStr last_used);
                 (py "user_name", user_name info)] ;;
         ret true).
Proof.
  intros st. unfold bind, encrypt_now, now, write_config, ret.
  repeat case_match; simplify_eq; cbn; done.
Qed.

Lemma validate_careful (token : str) (n : nat) (d : bool) :
  respects careful (_validate_token env token n d).
Proof.
  intros st. split.
  - unfold _validate_token.
    destruct (PyStr.eqb token [] || (length token <? 30)%nat) eqn:Hs.
    + exists []. split; [now rewrite app_nil_r|constructor].
    + apply orb_false_iff in Hs as [_ Hlen]. apply Nat.ltb_ge in Hlen.
      destruct (ValidationBounds.validate_attempts_within env token n d n 0 st)
        as [_ _ (new & Hnew & Habout)].
      exists new. split; [exact Hnew|].
      eapply Forall_impl; [exact Habout|].
      intros e [->|[->|[s ->]]]; cbn; done.
  - intros f. left. now rewrite (ShellFrame.validate_keeps env token n d st).
Qed.

Lemma store_careful (token : str) :
  respects careful (store_token_securely env token).
Proof.
  unfold store_token_securely.
  apply (respects_try _ careful_trans);
    [|intros; apply (respects_ret _ careful_refl)].
  apply (respects_bind _ careful_trans);
    [apply validate_careful|].
  intros user_info. destruct (if_true user_info) as [info|].
  - apply quiet_careful, written_quiet.
  - apply (respects_ret _ careful_refl).
Qed.

Lemma cleanup_careful (legacy_tokens : list (str * str)) :
  respects careful (_cleanup_legacy_tokens env legacy_tokens).
Proof.
  intros st. split.
  - exists []. split; [|constructor]. rewrite app_nil_r.
    revert st. induction legacy_tokens as [|[f t] rest IH]; intros st; [done|].
    cbn [_cleanup_legacy_tokens].
    destruct (shell_files st !! f) as [lines|]; [|apply IH].
    destruct (shell_writable env f); [|apply IH].
    unfold bind.
    specialize (IH (with_shell_files
                      (<[f:=cleanup_lines lines]> (shell_files st)) st)).
    destruct (_cleanup_legacy_tokens env rest _) as [[c|e|] st1]; exact IH.
  - intros f.
    rewrite (CleanupStateFacts.cleanup_rewrites_listed_files env
               legacy_tokens st f).
    destruct (bool_decide (f ∈ legacy_tokens.*1) && shell_writable env f);
      auto.
Qed.

Lemma setup_loop_careful (fuel : nat) :
  respects careful (setup_loop env fuel).
Proof.
  induction fuel as [|fuel IH]; cbn [setup_loop].
  - apply (respects_out_of_fuel _ careful_refl).
  - apply (respects_bind _ careful_trans);
      [apply quiet_careful, input_quiet|].
    intros new_token. apply respects_if; [exact IH|].
    apply (respects_bind _ careful_trans);
      [apply validate_careful|].
    intros user_info. destruct (if_true user_info); [|exact IH].
    apply (respects_bind _ careful_trans);
      [apply store_careful|].
    intros stored. apply respects_if; [|exact IH].
    apply (respects_ret _ careful_refl).
Qed.

Lemma setup_careful : respects careful (_setup_new_token env).
Proof.
  unfold _setup_new_token.
  apply (respects_bind _ careful_trans);
    [apply quiet_careful, choice_quiet|].
  intros choice. apply respects_if;
    [apply (respects_raise _ careful_refl)|].
  intros st. apply (setup_loop_careful _ st).
Qed.

Lemma setup_some_careful :
  respects careful (token <- _setup_new_token env ;; ret (Some token)).
Proof.
  apply (respects_bind _ careful_trans); [apply setup_careful|].
  intros. apply (respects_ret _ careful_refl).
Qed.

Lemma select_careful (legacy_tokens : list (str * str)) :
  respects careful (select_token env legacy_tokens).
Proof.
  induction legacy_tokens as [|[f token] rest IH]; cbn [select_token].
  - apply (respects_ret _ careful_refl).
  - apply (respects_bind _ careful_trans);
      [apply validate_careful|].
    intros user_info.
    destruct (if_true user_info); [apply (respects_ret _ careful_refl)|exact IH].
Qed.

Lemma migration_careful (legacy_tokens : list (str * str)) :
  respects careful (_handle_migration env legacy_tokens).
Proof.
  unfold _handle_migration.
  apply (respects_try _ careful_trans);
    [|intros; apply setup_some_careful].
  apply (respects_bind _ careful_trans);
    [apply quiet_careful, choice_quiet|].
  intros choice. apply respects_if; [apply (respects_ret _ careful_refl)|].
  apply (respects_bind _ careful_trans);
    [apply select_careful|].
  intros [selected|]; [|apply setup_some_careful].
  unfold persist_selected.
  apply (respects_bind _ careful_trans); [apply store_careful|].
  intros stored. apply respects_if; [|apply setup_some_careful].
  apply (respects_bind _ careful_trans);
    [apply cleanup_careful|].
  intros. apply (respects_ret _ careful_refl).
Qed.

Lemma stored_careful : respects careful (stored_token env).
Proof.
  unfold stored_token.
  apply (respects_bind _ careful_trans);
    [apply quiet_careful, load_quiet|].
  intros [t|]; [|apply (respects_ret _ careful_refl)].
  apply respects_if; [|apply (respects_ret _ careful_refl)].
  apply (respects_bind _ careful_trans);
    [apply validate_careful|].
  intros user_info.
  destruct (if_true user_info); [apply (respects_ret _ careful_refl)|].
  apply (respects_bind _ careful_trans);
    [apply quiet_careful, remove_quiet|].
  intros. apply (respects_ret _ careful_refl).
Qed.

Lemma migrated_careful : respects careful (migrated_token env).
Proof.
  unfold migrated_token.
  apply (respects_bind _ careful_trans).
  { apply quiet_careful. now intros st. }
  intros [|entry rest]; [apply (respects_ret _ careful_refl)|].
  apply (respects_bind _ careful_trans);
    [apply migration_careful|].
  intros [t|]; [apply respects_if|]; apply (respects_ret _ careful_refl).
Qed.

Lemma get_secure_token_careful : respects careful (get_secure_token env).
Proof.
  unfold get_secure_token.
  apply (respects_bind _ careful_trans); [apply stored_careful|].
  intros [t|]; [apply (respects_ret _ careful_refl)|].
  apply (respects_bind _ careful_trans);
    [apply migrated_careful|].
  intros [t|]; [apply (respects_ret _ careful_refl)|apply setup_careful].
Qed.

Lemma get_validated_token_careful :
  respects careful (get_validated_token env).
Proof.
  unfold get_validated_token.
  apply (respects_bind _ careful_trans);
    [apply get_secure_token_careful|].
  intros token.
  apply (respects_bind _ careful_trans);
    [apply validate_careful|].
  intros user_info. destruct (if_true user_info);
    [apply (respects_ret _ careful_refl)|apply (respects_raise _ careful_refl)].
Qed.

Lemma diagnose_careful (token : option str) :
  respects careful (diagnose_token env token).
Proof.
  unfold diagnose_token.
  apply (respects_bind _ careful_trans).
  { apply quiet_careful. now intros st. }
  intros dns. apply respects_if; [apply (respects_ret _ careful_refl)|].
  apply (respects_bind _ careful_trans).
  { apply quiet_careful. now intros st. }
  intros https. apply respects_if; [apply (respects_ret _ careful_refl)|].
  apply (respects_bind _ careful_trans).
  { apply quiet_careful. unfold token_under_test.
    destruct token as [[|c t]|]; try apply load_quiet. now intros st. }
  intros [[|c t]|]; try apply (respects_ret _ careful_refl).
  apply respects_if; [apply (respects_ret _ careful_refl)|].
  apply (respects_bind _ careful_trans).
  { intros st. split.
    - eexists [_]. split; [reflexivity|]. now repeat constructor.
    - intros f. now left. }
  intros _.
  apply (respects_bind _ careful_trans);
    [apply validate_careful|].
  intros result.
  destruct (if_true result); apply (respects_ret _ careful_refl).
Qed.

End WithEnv.
End Steps.

(** X14. Nothing shorter than 30 characters is ever sent to the service as
    a token: whatever the stored record, the shell files, the user's input
    and the network's answers, every request that [get_secure_token],
    [get_validated_token], [store_token_securely] and [diagnose_token] add
    to the trace, through the API client or directly, carries a token of
    at least 30 characters. *)
Theorem only_long_tokens_are_sent {C : Cipher} (env : Env) (st : State) :
  Steps.sends_long st (snd (get_secure_token env st))
  /\ Steps.sends_long st (snd (get_validated_token env st))
  /\ (forall token,
        Steps.sends_long st (snd (store_token_securely env token st)))
  /\ (forall token, Steps.sends_long st (snd (diagnose_token env token st))).
Proof.
  split; [apply (Steps.get_secure_token_careful env st)|].
  split; [apply (Steps.get_validated_token_careful env st)|].
  split; intros token.
  - apply (Steps.store_careful env token st).
  - apply (Steps.diagnose_careful env token st).
Qed.

(** X15. The token subsystem only ever takes its own entries out of the
    shell configuration files: after [get_secure_token] or
    [get_validated_token], however they end, every file is exactly as it
    was or is its former content without the sentinel lines and their
    export lines; no file is created and none is deleted. *)
Theorem shell_files_only_lose_entries {C : Cipher} (env : Env) (st : State)
    (f : str) :
  (shell_files (snd (get_secure_token env st)) !! f = shell_files st !! f
   \/ shell_files (snd (get_secure_token env st)) !! f
      = cleanup_lines <$> (shell_files st !! f))
  /\ (shell_files (snd (get_validated_token env st)) !! f = shell_files st !! f
      \/ shell_files (snd (get_validated_token env st)) !! f
         = cleanup_lines <$> (shell_files st !! f))
  /\ (is_Some (shell_files (snd (get_validated_token env st)) !! f)
      <-> is_Some (shell_files st !! f)).
Proof.
  pose proof (proj2 (Steps.get_secure_token_careful env st) f) as H1.
  pose proof (proj2 (Steps.get_validated_token_careful env st) f) as H2.
  split; [exact H1|]. split; [exact H2|].
  destruct H2 as [-> | ->]; [done|]. apply fmap_is_Some.
Qed.

(** ** What the prompts return *)
Module PromptPost.
Import PyStr PromptFacts.

Lemma lstrip_head (s : str) :
  match lstrip s with
  | [] => True
  | c :: _ => isspace c = false
  end.
Proof.
  induction s as [|c s IH]; cbn [lstrip]; [done|].
  destruct (isspace c) eqn:Hc; [exact IH|exact Hc].
Qed.

Lemma lstrip_fixed (c : char) (s : str) :
  isspace c = false -> lstrip (c :: s) = c :: s.
Proof. intros H. cbn [lstrip]. now rewrite H. Qed.

Lemma lstrip_idem (s : str) : lstrip (lstrip s) = lstrip s.
Proof.
  pose proof (lstrip_head s) as H.
  destruct (lstrip s) as [|c r]; [done|]. now apply lstrip_fixed.
Qed.

Lemma lstrip_snoc (s : str) (c : char) :
  isspace c = false -> lstrip (s ++ [c]) = lstrip s ++ [c].
Proof.
  intros Hc. induction s as [|d s IH]; cbn [app lstrip].
  - now rewrite Hc.
  - destruct (isspace d); [exact IH|reflexivity].
Qed.

Lemma rstrip_cons (c : char) (s : str) :
  isspace c = false -> rstrip (c :: s) = c :: rstrip s.
Proof.
  intros Hc. unfold rstrip. cbn [rev].
  now rewrite (lstrip_snoc _ _ Hc), rev_app_distr.
Qed.

Lemma rstrip_idem (s : str) : rstrip (rstrip s) = rstrip s.
Proof. unfold rstrip. now rewrite rev_involutive, lstrip_idem. Qed.

(** [strip] leaves nothing to strip. *)
Lemma strip_idem (s : str) : strip (strip s) = strip s.
Proof.
  unfold strip. pose proof (lstrip_head s) as H.
  destruct (lstrip s) as [|c r]; [reflexivity|].
  rewrite (rstrip_cons _ _ H), (lstrip_fixed _ _ H), <- (rstrip_cons _ _ H).
  apply rstrip_idem.
Qed.

Definition blank (l : str) : Prop := strip l = [].

(** The lines read by one call of [get_user_input]: blank lines that were
    turned down, then the line that was taken, the interrupt, or the end
    of input. *)
Lemma input_loop_result (required : bool) (inp : list stdin_event) :
  match input_loop required inp with
  | (Ret v, rest) =>
      exists skipped l,
        inp = map Line skipped ++ Line l :: rest
        /\ Forall blank skipped
        /\ v = strip l
        /\ (required = true -> v <> [])
  | (Raise e, rest) =>
      exists skipped,
        Forall blank skipped
        /\ ((e = EOFError /\ rest = [] /\ inp = map Line skipped)
            \/ (e = SystemExit 1 /\ inp = map Line skipped ++ Interrupt :: rest))
  | (OutOfFuel, _) => False
  end.
Proof.
  induction inp as [|[l|] inp IH]; cbn [input_loop].
  - exists []. split; [constructor|]. now left.
  - destruct (negb (eqb (strip l) []) || negb required) eqn:Hgo.
    + exists [], l. split; [reflexivity|]. split; [constructor|].
      split; [reflexivity|]. intros ->. rewrite orb_false_r in Hgo.
      apply negb_true_iff, bool_decide_eq_false_1 in Hgo. exact Hgo.
    + apply orb_false_iff in Hgo as [Hblank _].
      apply negb_false_iff, bool_decide_eq_true_1 in Hblank.
      destruct (input_loop required inp) as [[v|e|] rest]; [| |done].
      * destruct IH as (skipped & l' & -> & Hsk & Hv & Hreq).
        exists (l :: skipped), l'. split; [reflexivity|].
        split; [now constructor|]. now split.
      * destruct IH as (skipped & Hsk & [(-> & -> & ->)|(-> & ->)]);
          exists (l :: skipped); (split; [now constructor|]);
          [left|right]; now repeat split.
  - exists []. split; [constructor|]. now right.
Qed.

Lemma in_str_in (x : str) (l : list str) : str_in x l = true -> In x l.
Proof.
  unfold str_in. intros (y & Hy & He)%existsb_exists.
  apply bool_decide_eq_true_1 in He. now subst.
Qed.

Lemma choice_loop_result (choices : list str) (default : str) :
  forall (fuel : nat) (st : State),
    (length (stdin st) < fuel)%nat ->
    match choice_loop fuel choices default st with
    | (Ret c, st') =>
        (In c (map lower choices) \/ (default <> [] /\ c = lower default))
        /\ reads_only st st'
        /\ (length (stdin st') < length (stdin st))%nat
    | (Raise e, st') =>
        ((e = EOFError /\ stdin st' = []) \/ e = SystemExit 1)
        /\ reads_only st st'
    | (OutOfFuel, _) => False
    end.
Proof.
  induction fuel as [|fuel IH]; intros st Hfuel; [lia|].
  cbn [choice_loop]. unfold bind.
  pose proof (get_user_input_spec (eqb default []) st) as Hin.
  pose proof (input_loop_result (eqb default []) (stdin st)) as Hres.
  unfold get_user_input in *.
  destruct (input_loop (eqb default []) (stdin st)) as [[v|e|] rest];
    [| |done].
  - destruct Hin as [Hro Hlt].
    destruct (eqb (lower v) [] && negb (eqb default [])) eqn:Hdef.
    { split; [|now split]. right. split; [|reflexivity].
      apply andb_true_iff in Hdef as [_ Hd].
      now apply negb_true_iff, bool_decide_eq_false_1 in Hd. }
    destruct (str_in (lower v) (map lower choices)) eqn:Hc.
    { split; [|now split]. left. now apply in_str_in. }
    specialize (IH (with_stdin rest st) ltac:(cbn in *; lia)).
    destruct (choice_loop fuel choices default (with_stdin rest st))
      as [[c|e|] st2]; [| |done].
    + destruct IH as (Hc' & Hro' & Hlt'). split; [exact Hc'|].
      split; [eapply reads_only_trans; eassumption|lia].
    + destruct IH as [He Hro']. split; [exact He|].
      eapply reads_only_trans; eassumption.
  - destruct Hin as [_ Hro]. split; [|exact Hro].
    destruct Hres as (skipped & _ & [(-> & -> & _)|(-> & _)]);
      [left; now split|now right].
Qed.

End PromptPost.

(** X16. What [get_user_input] returns: the first line of the input, after
    the blank lines that a required field turns down, with the white space
    around it removed (stripping it again changes nothing); a required
    field never returns the empty string. It fails with [EOFError] only
    when the input is exhausted, and with [SystemExit(1)] only at an
    interrupt; nothing but the input is touched. *)
Theorem get_user_input_result (required : bool) (st : State) :
  match get_user_input required st with
  | (Ret v, st') =>
      st' = with_stdin (stdin st') st
      /\ PyStr.strip v = v
      /\ (required = true -> v <> [])
      /\ exists skipped l,
           stdin st = map Line skipped ++ Line l :: stdin st'
           /\ Forall PromptPost.blank skipped
           /\ v = PyStr.strip l
  | (Raise e, st') =>
      st' = with_stdin (stdin st') st
      /\ exists skipped,
           Forall PromptPost.blank skipped
           /\ ((e = EOFError /\ stdin st' = []
                /\ stdin st = map Line skipped)
               \/ (e = SystemExit 1
                   /\ stdin st = map Line skipped ++ Interrupt :: stdin st'))
  | (OutOfFuel, _) => False
  end.
Proof.
  unfold get_user_input.
  pose proof (PromptPost.input_loop_result required (stdin st)) as H.
  destruct (input_loop required (stdin st)) as [[v|e|] rest]; [| |done].
  - destruct H as (skipped & l & Hin & Hsk & -> & Hreq).
    split; [reflexivity|]. split; [apply PromptPost.strip_idem|].
    split; [exact Hreq|]. now exists skipped, l.
  - split; [reflexivity|exact H].
Qed.

(** X17. What [get_user_choice] returns when the choices and the default
    are ASCII text, as they are at every call of the program: one of the
    choices in lower case, or, when there is a default, the default in
    lower case; so the yes/no prompts of the token subsystem return ["y"]
    or ["n"] and nothing else. Every answer costs at least one line of
    input, and nothing but the input is touched; the call fails with
    [EOFError] only when the input is exhausted and otherwise only with
    [SystemExit(1)]. *)
Theorem get_user_choice_result (choices : list str) (default : str)
    (st : State) :
  forallb PyStr.isascii choices = true ->
  PyStr.isascii default = true ->
  match get_user_choice choices default st with
  | (Ret c, st') =>
      (In c (map PyStr.lower choices)
       \/ (default <> [] /\ c = PyStr.lower default))
      /\ (choices = YES_NO -> default = py "y" -> c = py "y" \/ c = py "n")
      /\ st' = with_stdin (stdin st') st
      /\ (length (stdin st') < length (stdin st))%nat
  | (Raise e, st') =>
      ((e = EOFError /\ stdin st' = []) \/ e = SystemExit 1)
      /\ st' = with_stdin (stdin st') st
  | (OutOfFuel, _) => False
  end.
Proof.
  intros _ _. unfold get_user_choice.
  pose proof (PromptPost.choice_loop_result choices default
                (S (length (stdin st))) st ltac:(lia)) as H.
  destruct (choice_loop _ choices default st) as [[c|e|] st']; [| |done].
  - destruct H as (Hc & [Hro _] & Hlt). split; [exact Hc|].
    split; [|now split]. intros -> ->.
    destruct Hc as [[<-|[<-|[]]]|[_ ->]]; auto.
  - destruct H as [He [Hro _]]. now split.
Qed.

Lemma get_user_choice_result_witness :
  exists st',
    get_user_choice YES_NO (py "y")
      (with_stdin [Line (py "maybe"); Line (py " N ")] st_stale)
    = (Ret (py "n"), st')
    /\ stdin st' = [].
Proof.
  pose proof (get_user_choice_result YES_NO (py "y")
                (with_stdin [Line (py "maybe"); Line (py " N ")] st_stale)
                eq_refl eq_refl) as H.
  assert (exists st1,
            get_user_choice YES_NO (py "y")
              (with_stdin [Line (py "maybe"); Line (py " N ")] st_stale)
            = (Ret (py "n"), st1)) as [st1 Hrun]
    by (eexists; vm_compute; reflexivity).
  rewrite Hrun in H. destruct H as (_ & _ & _ & Hlt).
  exists st1. split; [exact Hrun|].
  injection Hrun as <-. reflexivity.
Defined.

(** ** Where a returned token comes from *)
Module Provenance.
Import Frame Steps PromptFacts PromptPost ValidationFacts StoreFacts.

(** [st'] has read some of the input of [st], or none of it. *)
Definition reads (st st' : State) : Prop :=
  exists taken, stdin st = taken ++ stdin st'.

Lemma reads_refl (st : State) : reads st st.
Proof. now exists []. Qed.

Lemma reads_trans (a b c : State) : reads a b -> reads b c -> reads a c.
Proof.
  intros [t1 H1] [t2 H2]. exists (t1 ++ t2). now rewrite H1, H2, app_assoc.
Qed.

Lemma kept_reads {A} (m : M A) : preserves stdin m -> respects reads m.
Proof.
  apply respects_preserved. intros st st' H. exists []. now rewrite H.
Qed.

(** [t] is a line of the input, stripped. *)
Definition typed (inp : list stdin_event) (t : str) : Prop :=
  exists l, In (Line l) inp /\ t = PyStr.strip l.

Lemma typed_earlier (st st' : State) (t : str) :
  reads st st' -> typed (stdin st') t -> typed (stdin st) t.
Proof.
  intros [taken ->] (l & Hin & ->). exists l. split; [|reflexivity].
  apply in_or_app. now right.
Qed.

Section WithEnv.
Context {C : Cipher} (env : Env).

Lemma input_reads (required : bool) :
  respects reads (get_user_input required).
Proof.
  intros st. unfold get_user_input, reads.
  pose proof (input_loop_result required (stdin st)) as H.
  destruct (input_loop required (stdin st)) as [[v|e|] rest];
    cbn [snd stdin with_stdin]; [| |done].
  - destruct H as (skipped & l & Hin & _).
    exists (map Line skipped ++ [Line l]). rewrite Hin.
    now rewrite <- app_assoc.
  - destruct H as (skipped & _ & [(_ & -> & Hin)|(_ & Hin)]); rewrite Hin.
    + exists (map Line skipped). now rewrite app_nil_r.
    + exists (map Line skipped ++ [Interrupt]). now rewrite <- app_assoc.
Qed.

Lemma input_typed (required : bool) (st st' : State) (v : str) :
  get_user_input required st = (Ret v, st') -> typed (stdin st) v.
Proof.
  unfold get_user_input.
  pose proof (input_loop_result required (stdin st)) as H.
  destruct (input_loop required (stdin st)) as [[v'|e|] rest];
    intros [= <- <-].
  destruct H as (skipped & l & Hin & _ & -> & _). exists l.
  split; [|reflexivity]. rewrite Hin. apply in_or_app. right. now left.
Qed.

Lemma choice_loop_reads (choices : list str) (default : str) (fuel : nat) :
  respects reads (choice_loop fuel choices default).
Proof.
  induction fuel as [|fuel IH]; cbn [choice_loop].
  - apply (respects_out_of_fuel _ reads_refl).
  - apply (respects_bind _ reads_trans); [apply input_reads|].
    intros value.
    repeat apply respects_if; try apply (respects_ret _ reads_refl).
    exact IH.
Qed.

Lemma choice_reads (choices : list str) (default : str) :
  respects reads (get_user_choice choices default).
Proof. intros st. apply (choice_loop_reads choices default _ st). Qed.

Lemma validate_calm (token : str) (n : nat) (d : bool) :
  preserves stdin (_validate_token env token n d).
Proof.
  intros st.
  destruct (validate_returns env token n d st) as (r & st' & -> & H & _).
  apply H.
Qed.

Lemma store_calm (token : str) :
  preserves stdin (store_token_securely env token).
Proof.
  intros st. destruct (store_returns env token st) as (b & st' & -> & H & _).
  apply H.
Qed.

Lemma load_calm : preserves stdin (_load_secure_token env).
Proof.
  intros st. destruct (load_returns env st) as (r & st' & -> & H & _).
  apply H.
Qed.

Lemma remove_calm : preserves stdin _remove_secure_token.
Proof.
  intros st. destruct (remove_returns st) as (st' & -> & H & _). apply H.
Qed.

Lemma cleanup_calm (legacy_tokens : list (str * str)) :
  preserves stdin (_cleanup_legacy_tokens env legacy_tokens).
Proof.
  induction legacy_tokens as [|[f t] rest IH]; intros st; [done|].
  cbn [_cleanup_legacy_tokens].
  destruct (shell_files st !! f) as [lines|]; [|apply IH].
  destruct (shell_writable env f); [|apply IH].
  unfold bind.
  specialize (IH (with_shell_files
                    (<[f:=cleanup_lines lines]> (shell_files st)) st)).
  destruct (_cleanup_legacy_tokens env rest _) as [[c|e|] st1]; exact IH.
Qed.

Lemma setup_loop_reads (fuel : nat) : respects reads (setup_loop env fuel).
Proof.
  induction fuel as [|fuel IH]; cbn [setup_loop].
  - apply (respects_out_of_fuel _ reads_refl).
  - apply (respects_bind _ reads_trans); [apply input_reads|].
    intros new_token. apply respects_if; [exact IH|].
    apply (respects_bind _ reads_trans);
      [apply kept_reads, validate_calm|].
    intros user_info. destruct (if_true user_info); [|exact IH].
    apply (respects_bind _ reads_trans); [apply kept_reads, store_calm|].
    intros stored. apply respects_if; [|exact IH].
    apply (respects_ret _ reads_refl).
Qed.

Lemma setup_reads : respects reads (_setup_new_token env).
Proof.
  unfold _setup_new_token.
  apply (respects_bind _ reads_trans); [apply choice_reads|].
  intros choice. apply respects_if; [apply (respects_raise _ reads_refl)|].
  intros st. apply (setup_loop_reads _ st).
Qed.

Lemma setup_some_reads :
  respects reads (token <- _setup_new_token env ;; ret (Some token)).
Proof.
  apply (respects_bind _ reads_trans); [apply setup_reads|].
  intros. apply (respects_ret _ reads_refl).
Qed.

Lemma select_calm (legacy_tokens : list (str * str)) :
  preserves stdin (select_token env legacy_tokens).
Proof.
  induction legacy_tokens as [|[f token] rest IH]; cbn [select_token].
  - apply preserves_ret.
  - apply preserves_bind; [apply validate_calm|]. intros user_info.
    destruct (if_true user_info); [apply preserves_ret|exact IH].
Qed.

(** The migration after its prompt. *)
Definition confirmed (legacy_tokens : list (str * str)) : M (option str) :=
  selected_token <- select_token env legacy_tokens ;;
  match selected_token with
  | None => token <- _setup_new_token env ;; ret (Some token)
  | Some selected => persist_selected env legacy_tokens selected
  end.

Lemma confirmed_reads (legacy_tokens : list (str * str)) :
  respects reads (confirmed legacy_tokens).
Proof.
  unfold confirmed.
  apply (respects_bind _ reads_trans); [apply kept_reads, select_calm|].
  intros [selected|]; [|apply setup_some_reads].
  unfold persist_selected.
  apply (respects_bind _ reads_trans); [apply kept_reads, store_calm|].
  intros stored. apply respects_if; [|apply setup_some_reads].
  apply (respects_bind _ reads_trans); [apply kept_reads, cleanup_calm|].
  intros. apply (respects_ret _ reads_refl).
Qed.

(** A token that leaves the setup was typed. *)
Lemma setup_loop_typed (fuel : nat) :
  forall st t st', setup_loop env fuel st = (Ret t, st') -> typed (stdin st) t.
Proof.
  induction fuel as [|fuel IH]; intros st t st'; [discriminate|].
  cbn [setup_loop]. unfold bind at 1.
  pose proof (input_reads true st) as Hr.
  pose proof (input_typed true st) as Ht.
  destruct (get_user_input true st) as [[new_token|e|] st1];
    try discriminate.
  cbn [snd] in Hr. specialize (Ht st1 new_token eq_refl).
  assert (Hagain : forall st2,
             stdin st2 = stdin st1 ->
             setup_loop env fuel st2 = (Ret t, st') -> typed (stdin st) t).
  { intros st2 Hsame Hrun. apply (typed_earlier st st1); [exact Hr|].
    rewrite <- Hsame. exact (IH st2 t st' Hrun). }
  destruct (PyStr.eqb new_token [] || (length new_token <? 30)%nat);
    [now apply Hagain|].
  unfold bind at 1. pose proof (validate_calm new_token 3 false st1) as Hv.
  destruct (_validate_token env new_token 3 false st1) as [[u|e|] st2];
    try discriminate.
  cbn [snd] in Hv. destruct (if_true u); [|now apply Hagain].
  unfold bind at 1. pose proof (store_calm new_token st2) as Hs.
  destruct (store_token_securely env new_token st2) as [[[|]|e|] st3];
    try discriminate; cbn [snd] in Hs.
  - now intros [= <- _].
  - apply Hagain. congruence.
Qed.

Lemma setup_typed (st st' : State) (t : str) :
  _setup_new_token env st = (Ret t, st') -> typed (stdin st) t.
Proof.
  unfold _setup_new_token. unfold bind at 1.
  pose proof (choice_reads YES_NO (py "y") st) as Hr.
  destruct (get_user_choice YES_NO (py "y") st) as [[choice|e|] st1];
    try discriminate.
  cbn [snd] in Hr. destruct (negb (str_in choice ACCEPT)); [discriminate|].
  intros H. apply (typed_earlier st st1 t Hr).
  exact (setup_loop_typed _ st1 t st' H).
Qed.

Lemma setup_some_typed (st st' : State) (t : str) :
  (token <- _setup_new_token env ;; ret (Some token)) st = (Ret (Some t), st') ->
  typed (stdin st) t.
Proof.
  unfold bind. pose proof (setup_typed st) as H.
  destruct (_setup_new_token env st) as [[token|e|] st1]; try discriminate.
  intros [= <- _]. exact (H st1 token eq_refl).
Qed.

Lemma select_listed (legacy_tokens : list (str * str)) :
  forall st t st',
    select_token env legacy_tokens st = (Ret (Some t), st') ->
    In t (map snd legacy_tokens).
Proof.
  induction legacy_tokens as [|[f token] rest IH]; intros st t st';
    cbn [select_token]; [discriminate|].
  unfold bind.
  destruct (_validate_token env token 3 false st) as [[u|e|] st1];
    try discriminate.
  destruct (if_true u).
  - intros [= <- _]. now left.
  - intros H. right. exact (IH st1 t st' H).
Qed.

Lemma confirmed_source (legacy_tokens : list (str * str))
    (st st' : State) (t : str) :
  confirmed legacy_tokens st = (Ret (Some t), st') ->
  In t (map snd legacy_tokens) \/ typed (stdin st) t.
Proof.
  unfold confirmed. unfold bind at 1.
  pose proof (select_calm legacy_tokens st) as Hsel.
  pose proof (select_listed legacy_tokens st) as Hin.
  destruct (select_token env legacy_tokens st) as [[[selected|]|e|] st1];
    try discriminate; cbn [snd] in Hsel.
  - specialize (Hin selected st1 eq_refl).
    unfold persist_selected. unfold bind at 1.
    pose proof (store_calm selected st1) as Hs.
    destruct (store_token_securely env selected st1) as [[[|]|e|] st2];
      try discriminate; cbn [snd] in Hs.
    + unfold bind.
      destruct (_cleanup_legacy_tokens env legacy_tokens st2) as [[c|e|] st3];
        try discriminate.
      intros [= <- _]. now left.
    + intros H. right. apply setup_some_typed in H. congruence.
  - intros H. right. apply setup_some_typed in H. congruence.
Qed.

Lemma migration_source (legacy_tokens : list (str * str))
    (st st' : State) (t : str) :
  _handle_migration env legacy_tokens st = (Ret (Some t), st') ->
  In t (map snd legacy_tokens) \/ typed (stdin st) t.
Proof.
  unfold _handle_migration, try_except. unfold bind at 1.
  pose proof (choice_reads YES_NO (py "y") st) as Hr.
  destruct (get_user_choice YES_NO (py "y") st) as [[choice|e|] st1];
    cbn [snd] in Hr.
  - destruct (negb (str_in choice ACCEPT)); [discriminate|].
    fold (confirmed legacy_tokens).
    pose proof (confirmed_reads legacy_tokens st1) as Hc.
    pose proof (confirmed_source legacy_tokens st1) as Hsrc.
    destruct (confirmed legacy_tokens st1) as [[r|e|] st2]; cbn [snd] in Hc.
    + intros [= -> <-].
      destruct (Hsrc st2 t eq_refl) as [H|H]; [now left|right].
      exact (typed_earlier _ _ _ Hr H).
    + destruct (is_Exception e); [|discriminate].
      intros H%setup_some_typed. right.
      exact (typed_earlier _ _ _ (reads_trans _ _ _ Hr Hc) H).
    + discriminate.
  - destruct (is_Exception e); [|discriminate].
    intros H%setup_some_typed. right. exact (typed_earlier _ _ _ Hr H).
  - discriminate.
Qed.

Lemma migration_reads (legacy_tokens : list (str * str)) :
  respects reads (_handle_migration env legacy_tokens).
Proof.
  unfold _handle_migration.
  apply (respects_try _ reads_trans); [|intros; apply setup_some_reads].
  apply (respects_bind _ reads_trans); [apply choice_reads|].
  intros choice. apply respects_if; [apply (respects_ret _ reads_refl)|].
  apply confirmed_reads.
Qed.

(** The first two steps of [get_secure_token] read no input and leave the
    shell files alone. *)
Lemma stored_still :
  preserves (fun st => (stdin st, shell_files st)) (stored_token env).
Proof.
  assert (Hv : forall t, preserves (fun st => (stdin st, shell_files st))
                                   (_validate_token env t 3 false)).
  { intros t st.
    destruct (validate_returns env t 3 false st) as (r & st' & -> & H & _).
    cbn [snd]. f_equal; apply H. }
  unfold stored_token.
  apply preserves_bind.
  { intros st. destruct (load_returns env st) as (r & st' & -> & H & _).
    cbn [snd]. f_equal; apply H. }
  intros [t|]; [|apply preserves_ret].
  apply preserves_if; [|apply preserves_ret].
  apply preserves_bind; [apply Hv|]. intros user_info.
  destruct (if_true user_info); [apply preserves_ret|].
  apply preserves_bind; [|intros; apply preserves_ret].
  intros st. destruct (remove_returns st) as (st' & -> & H & _).
  cbn [snd]. f_equal; apply H.
Qed.

End WithEnv.
End Provenance.

(** X18. [get_secure_token] does not invent a token: what it returns is the
    token of the record that was on disk, or a token that detection finds
    in the shell files, or a line of the input with the white space around
    it removed. *)
Theorem returned_token_has_a_source {C : Cipher} (env : Env)
    (st st' : State) (token : str) :
  get_secure_token env st = (Ret token, st') ->
  (exists config_data,
      config_file st = Some (Object config_data)
      /\ read_config env (Object config_data) = Some (config_data, token))
  \/ (exists found f,
         _detect_legacy_tokens env st = (Ret found, st) /\ In (f, token) found)
  \/ (exists l, In (Line l) (stdin st) /\ token = PyStr.strip l).
Proof.
  unfold get_secure_token. unfold bind at 1.
  pose proof (Provenance.stored_still env st) as Hstill.
  destruct (StoreFacts.load_returns env st) as (r & st0 & Hload & _ & Hr).
  destruct (stored_token env st) as [[[t|]|e|] st1] eqn:Hstored;
    try discriminate; cbn [snd] in Hstill.
  - intros [= <- _]. left.
    unfold stored_token, bind in Hstored. rewrite Hload in Hstored.
    destruct r as [t'|]; [|discriminate].
    destruct (negb (PyStr.eqb t' [])); [|discriminate].
    destruct (_validate_token env t' 3 false st0) as [[u|e|] st2];
      try discriminate.
    destruct (if_true u) as [info|].
    + injection Hstored as <- _.
      destruct Hr as (record & Hfile & Hread & _). now exists record.
    + destruct (_remove_secure_token st2) as [[[]|e|] st3]; discriminate.
  - injection Hstill as Hin Hsh. intros Hrun. right. revert Hrun.
    unfold bind at 1.
    unfold migrated_token. unfold bind at 1. unfold _detect_legacy_tokens at 1.
    set (found := flat_map _ _).
    assert (Hfound : _detect_legacy_tokens env st = (Ret found, st)).
    { unfold _detect_legacy_tokens, found. now rewrite Hsh. }
    assert (Htyped : forall st2 st3,
               Provenance.reads st1 st2 ->
               _setup_new_token env st2 = (Ret token, st3) ->
               exists l, In (Line l) (stdin st) /\ token = PyStr.strip l).
    { intros st2 st3 Hreads Hrun. rewrite <- Hin.
      apply (Provenance.typed_earlier st1 st2 token Hreads).
      exact (Provenance.setup_typed env st2 st3 token Hrun). }
    destruct found as [|entry rest] eqn:Hlist.
    { unfold ret at 1. intros H. right.
      exact (Htyped st1 st' (Provenance.reads_refl st1) H). }
    rewrite <- Hlist in *. clear Hlist. unfold bind at 1.
    pose proof (Provenance.migration_reads env found st1) as Hreads.
    pose proof (Provenance.migration_source env found st1) as Hsrc.
    destruct (_handle_migration env found st1) as [[[t|]|e|] st2];
      try discriminate; cbn [snd] in Hreads.
    + specialize (Hsrc st2 t eq_refl).
      destruct (negb (PyStr.eqb t [])).
      * unfold ret. intros [= <- _]. destruct Hsrc as [Hl|Ht].
        -- left. apply in_map_iff in Hl as ([f t'] & Ht' & Hl).
           cbn [snd] in Ht'. subst t'. now exists found, f.
        -- right. rewrite <- Hin. exact Ht.
      * unfold ret. intros H. right. exact (Htyped st2 st' Hreads H).
    + unfold ret. intros H. right. exact (Htyped st2 st' Hreads H).
Qed.

Lemma returned_token_has_a_source_witness :
  exists found f,
    _detect_legacy_tokens env_online st_migrating = (Ret found, st_migrating)
    /\ In (f, token_x40) found.
Proof.
  assert (exists st',
             get_secure_token (C := ref_cipher) env_online st_migrating
             = (Ret token_x40, st')) as [st' Hrun]
    by (eexists; vm_compute; reflexivity).
  destruct (returned_token_has_a_source (C := ref_cipher) env_online
              st_migrating st' token_x40 Hrun)
    as [(record & Hfile & _)|[Hfound|(l & Hin & Heq)]].
  - discriminate Hfile.
  - exact Hfound.
  - destruct Hin as [Hin|[]]. injection Hin as <-.
    vm_compute in Heq. discriminate Heq.
Defined.

(** ** The identifier tuple *)

(** X19. Different machines, users or home directories give different key
    material: for node and user names that are not empty and hold no
    colon, two different identifier tuples give different identifier
    strings, from which [_generate_encryption_key] derives salt and key. *)
Theorem distinct_hosts_have_distinct_identifiers (h1 h2 : Host) :
  node h1 <> [] -> user h1 <> [] -> node h2 <> [] -> user h2 <> [] ->
  Forall (fun c => c <> 58) (node h1 ++ user h1 ++ node h2 ++ user h2) ->
  h1 <> h2 ->
  identifier h1 <> identifier h2.
Proof.
  destruct h1 as [n1 u1 d1], h2 as [n2 u2 d2]. cbn [node user home].
  intros Hn1 Hu1 Hn2 Hu2 Hc Hne. unfold identifier. cbn [node user home].
  apply Forall_app in Hc as [Hc1 Hc]. apply Forall_app in Hc as [Hc2 Hc].
  apply Forall_app in Hc as [Hc3 Hc4].
  assert (Hor : forall x dflt : str, x <> [] -> str_or x dflt = x)
    by (intros [|c x] dflt H; [congruence|reflexivity]).
  rewrite !Hor by assumption.
  change (py ":") with [58]. cbn [app]. intros H. apply Hne.
  set (tail := py ":cdp-runbooker-v1") in *.
  pose proof (f_equal (PyStr.split1 58) H) as S1.
  rewrite !(LegacyFacts.split1_first 58) in S1 by assumption.
  injection S1 as <- H1.
  pose proof (f_equal (PyStr.split1 58) H1) as S2.
  rewrite !(LegacyFacts.split1_first 58) in S2 by assumption.
  injection S2 as <- H2.
  apply app_inv_tail in H2. now subst.
Qed.

Lemma distinct_hosts_have_distinct_identifiers_witness :
  identifier host_a <> identifier host_b.
Proof.
  apply (distinct_hosts_have_distinct_identifiers host_a host_b);
    try (vm_compute; discriminate).
  apply (bool_decide_eq_true_1 _). vm_compute. reflexivity.
Defined.

(** ** The fallback messenger *)
Module FallbackFacts.
Import PyStr PromptFacts PromptPost.

Lemma isspace_spec (c : char) :
  isspace c = true
  <-> (9 <= c <= 13 \/ 28 <= c <= 32 \/ c = 0x85 \/ c = 0xA0 \/ c = 0x1680
       \/ 0x2000 <= c <= 0x200A \/ c = 0x2028 \/ c = 0x2029 \/ c = 0x202F
       \/ c = 0x205F \/ c = 0x3000).
Proof.
  unfold isspace.
  rewrite !orb_true_iff, !andb_true_iff, !N.leb_le, !N.eqb_eq. lia.
Qed.

Lemma not_space (c : char) :
  ~ (9 <= c <= 13 \/ 28 <= c <= 32 \/ c = 0x85 \/ c = 0xA0 \/ c = 0x1680
     \/ 0x2000 <= c <= 0x200A \/ c = 0x2028 \/ c = 0x2029 \/ c = 0x202F
     \/ c = 0x205F \/ c = 0x3000)
  <-> isspace c = false.
Proof. rewrite <- isspace_spec. apply not_true_iff_false. Qed.

(** White space has no other lower case, and the lower case of anything
    else holds no white space. *)
Lemma lower_space (c : char) : isspace c = true -> lower_char c = [c].
Proof.
  intros H%isspace_spec. unfold lower_char.
  destruct ((0x41 <=? c) && (c <=? 0x5A)) eqn:E1.
  { apply andb_true_iff in E1 as [?%N.leb_le ?%N.leb_le]. lia. }
  destruct (c =? 0x130) eqn:E2; [apply N.eqb_eq in E2; lia|].
  destruct (c =? 0x212A) eqn:E3; [apply N.eqb_eq in E3; lia|]. reflexivity.
Qed.

Lemma lower_no_space (c : char) :
  isspace c = false ->
  exists body final,
    lower_char c = body ++ [final]
    /\ isspace final = false
    /\ match body ++ [final] with
       | first :: _ => isspace first = false
       | [] => True
       end.
Proof.
  intros H. pose proof (proj2 (not_space c) H) as Hc. unfold lower_char.
  destruct ((0x41 <=? c) && (c <=? 0x5A)) eqn:E1.
  { apply andb_true_iff in E1 as [?%N.leb_le ?%N.leb_le].
    exists [], (c + 32). split; [reflexivity|].
    assert (isspace (c + 32) = false) by (apply not_space; lia). now split. }
  destruct (c =? 0x130).
  { exists [0x69], 0x307. now repeat split. }
  destruct (c =? 0x212A).
  { exists [], 0x6B. now repeat split. }
  exists [], c. now repeat split.
Qed.

Lemma lower_app (a b : str) : lower (a ++ b) = lower a ++ lower b.
Proof. apply flat_map_app. Qed.

Lemma lower_lstrip (s : str) : lstrip (lower s) = lower (lstrip s).
Proof.
  induction s as [|c s IH]; [reflexivity|].
  change (lower (c :: s)) with (lower_char c ++ lower s). cbn [lstrip].
  destruct (isspace c) eqn:Hc.
  - rewrite (lower_space c Hc). cbn [app lstrip]. now rewrite Hc.
  - change (lower (c :: s)) with (lower_char c ++ lower s).
    destruct (lower_no_space c Hc) as (body & final & -> & _ & Hfirst).
    destruct (body ++ [final]) as [|first more] eqn:E; [now destruct body|].
    cbn [app lstrip]. now rewrite Hfirst.
Qed.

Lemma rstrip_snoc (s : str) (c : char) :
  rstrip (s ++ [c]) = if isspace c then rstrip s else s ++ [c].
Proof.
  unfold rstrip. rewrite rev_app_distr. cbn [rev app lstrip].
  destruct (isspace c); [reflexivity|].
  cbn [rev]. now rewrite rev_involutive.
Qed.

Lemma lower_rstrip (s : str) : rstrip (lower s) = lower (rstrip s).
Proof.
  induction s as [|c s IH] using rev_ind; [reflexivity|].
  rewrite lower_app, (rstrip_snoc _ _).
  change (lower [c]) with (lower_char c ++ []). rewrite app_nil_r.
  destruct (isspace c) eqn:Hc.
  - rewrite (lower_space c Hc), rstrip_snoc, Hc. exact IH.
  - destruct (lower_no_space c Hc) as (body & final & E & Hfinal & _).
    rewrite lower_app.
    change (lower [c]) with (lower_char c ++ []). rewrite app_nil_r, E.
    now rewrite app_assoc, rstrip_snoc, Hfinal.
Qed.

(** Lower-casing and stripping can be done in either order. *)
Lemma lower_strip (s : str) : strip (lower s) = lower (strip s).
Proof. unfold strip. now rewrite lower_lstrip, lower_rstrip. Qed.

Lemma input_agrees (required : bool) (st : State) :
  MinimalMsg.get_user_input required (stdin st)
  = as_fallback (get_user_input required st).
Proof.
  unfold get_user_input.
  induction (stdin st) as [|[l|] inp IH];
    cbn [MinimalMsg.get_user_input input_loop]; [reflexivity| |reflexivity].
  destruct (negb (eqb (strip l) []) || negb required); [reflexivity|].
  rewrite IH. now destruct (input_loop required inp).
Qed.

Lemma choice_loop_agrees (choices : list str) (default : str) :
  (default <> [] \/ ~ In [] (map lower choices)) ->
  forall (inp : list stdin_event) (fuel : nat) (st : State),
    stdin st = inp ->
    (length inp < fuel)%nat ->
    MinimalMsg.get_user_choice choices default inp
    = as_fallback (choice_loop fuel choices default st).
Proof.
  intros Hok. induction inp as [|[l|] inp IH]; intros fuel st Hin Hfuel;
    (destruct fuel as [|fuel]; [cbn [length] in Hfuel; lia|]);
    cbn [MinimalMsg.get_user_choice choice_loop]; unfold bind, get_user_input;
    rewrite Hin; cbn [input_loop].
  - reflexivity.
  - rewrite lower_strip.
    destruct (negb (eqb (strip l) []) || negb (eqb default [])) eqn:Htake.
    + destruct (eqb (lower (strip l)) [] && negb (eqb default []));
        [reflexivity|].
      destruct (str_in (lower (strip l)) (map lower choices)); [reflexivity|].
      apply IH; [reflexivity|cbn [length] in Hfuel; lia].
    + apply orb_false_iff in Htake as [Hblank Hdef].
      apply negb_false_iff, bool_decide_eq_true_1 in Hblank.
      apply negb_false_iff, bool_decide_eq_true_1 in Hdef. subst default.
      rewrite Hblank. rewrite andb_false_r.
      match goal with
      | |- (if ?b then _ else _) = _ => destruct b eqn:E
      end.
      { destruct Hok as [Hd|Hc]; [congruence|].
        exfalso. apply Hc. exact (in_str_in _ _ E). }
      rewrite (IH (S fuel) (with_stdin inp st) eq_refl)
        by (cbn [length] in Hfuel; lia).
      cbn [choice_loop]. unfold bind, get_user_input. cbn [stdin with_stdin].
      destruct (input_loop (eqb [] []) inp) as [[v|e|] rest]; reflexivity.
  - reflexivity.
Qed.

End FallbackFacts.

(** X20. The fallback messenger prompts like [UserMessenger]: on every
    input, [MinimalMsg.get_user_input] and [MinimalMsg.get_user_choice]
    return the same value (or raise the same [EOFError]) and leave the
    same input behind as the prompts of [UserMessenger], except that an
    interrupt, which [UserMessenger] turns into [sys.exit(1)], leaves the
    fallback as [KeyboardInterrupt]. For [get_user_choice] this needs a
    default, or that the empty string is not among the choices. *)
Theorem fallback_prompts_agree (st : State) :
  (forall required,
      MinimalMsg.get_user_input required (stdin st)
      = as_fallback (get_user_input required st))
  /\ (forall choices default,
        default <> [] \/ ~ In [] (map PyStr.lower choices) ->
        MinimalMsg.get_user_choice choices default (stdin st)
        = as_fallback (get_user_choice choices default st)).
Proof.
  split.
  - intros required. apply FallbackFacts.input_agrees.
  - intros choices default Hok. unfold get_user_choice.
    apply FallbackFacts.choice_loop_agrees; [exact Hok|reflexivity|lia].
Qed.

(** ** The life of the record on disk *)
Module RecordLife.
Import Frame Steps PromptFacts ValidationFacts StoreFacts.

(** What was on disk has not gone. *)
Definition never_deletes (st st' : State) : Prop :=
  config_file st <> None -> config_file st' <> None.

Lemma never_deletes_refl (st : State) : never_deletes st st.
Proof. now intros H. Qed.

Lemma never_deletes_trans (a b c : State) :
  never_deletes a b -> never_deletes b c -> never_deletes a c.
Proof. intros Hab Hbc H. now apply Hbc, Hab. Qed.

Lemma kept_never_deletes {A} (m : M A) :
  preserves config_file m -> respects never_deletes m.
Proof.
  apply respects_preserved. intros st st' H. unfold never_deletes.
  now rewrite H.
Qed.

(** The stored token of [st] decrypted and was then turned down by the
    service. *)
Definition decrypted_then_rejected {C : Cipher} (env : Env) (st : State)
  : Prop :=
  exists before token st1 st2 user_info,
    config_file st = Some (Object before)
    /\ read_config env (Object before) = Some (before, token)
    /\ token <> []
    /\ _load_secure_token env st = (Ret (Some token), st1)
    /\ _validate_token env token 3 false st1 = (Ret user_info, st2)
    /\ if_true user_info = None.

Section WithEnv.
Context {C : Cipher} (env : Env).

Lemma input_kept (required : bool) :
  preserves config_file (get_user_input required).
Proof.
  intros st. unfold get_user_input.
  now destruct (input_loop required (stdin st)).
Qed.

Lemma choice_loop_kept (choices : list str) (default : str) (fuel : nat) :
  preserves config_file (choice_loop fuel choices default).
Proof.
  induction fuel as [|fuel IH]; cbn [choice_loop].
  - apply preserves_out_of_fuel.
  - apply preserves_bind; [apply input_kept|]. intros value.
    repeat apply preserves_if; try apply preserves_ret. exact IH.
Qed.

Lemma choice_kept (choices : list str) (default : str) :
  preserves config_file (get_user_choice choices default).
Proof. intros st. apply (choice_loop_kept choices default _ st). Qed.

Lemma validate_kept (token : str) (n : nat) (d : bool) :
  preserves config_file (_validate_token env token n d).
Proof.
  intros st.
  destruct (validate_returns env token n d st) as (r & st' & -> & H & _).
  apply H.
Qed.

Lemma cleanup_keeps_record (legacy_tokens : list (str * str)) :
  preserves config_file (_cleanup_legacy_tokens env legacy_tokens).
Proof. intros st. apply (Post.cleanup_keeps_config env legacy_tokens st). Qed.

(** A store writes a record or leaves the file alone. *)
Lemma store_safe (token : str) :
  respects never_deletes (store_token_securely env token).
Proof.
  intros st.
  destruct (store_returns env token st) as (b & st' & -> & _ & Hf & Ht).
  cbn [snd]. intros Hsome. destruct b.
  - destruct (Ht eq_refl) as (d & -> & _). discriminate.
  - now rewrite (Hf eq_refl).
Qed.

Lemma setup_loop_safe (fuel : nat) :
  respects never_deletes (setup_loop env fuel).
Proof.
  induction fuel as [|fuel IH]; cbn [setup_loop].
  - apply (respects_out_of_fuel _ never_deletes_refl).
  - apply (respects_bind _ never_deletes_trans);
      [apply kept_never_deletes, input_kept|].
    intros new_token. apply respects_if; [exact IH|].
    apply (respects_bind _ never_deletes_trans);
      [apply kept_never_deletes, validate_kept|].
    intros user_info. destruct (if_true user_info); [|exact IH].
    apply (respects_bind _ never_deletes_trans); [apply store_safe|].
    intros stored. apply respects_if; [|exact IH].
    apply (respects_ret _ never_deletes_refl).
Qed.

Lemma setup_safe : respects never_deletes (_setup_new_token env).
Proof.
  unfold _setup_new_token.
  apply (respects_bind _ never_deletes_trans);
    [apply kept_never_deletes, choice_kept|].
  intros choice.
  apply respects_if; [apply (respects_raise _ never_deletes_refl)|].
  intros st. apply (setup_loop_safe _ st).
Qed.

Lemma setup_some_safe :
  respects never_deletes (token <- _setup_new_token env ;; ret (Some token)).
Proof.
  apply (respects_bind _ never_deletes_trans); [apply setup_safe|].
  intros. apply (respects_ret _ never_deletes_refl).
Qed.

Lemma select_kept (legacy_tokens : list (str * str)) :
  preserves config_file (select_token env legacy_tokens).
Proof.
  induction legacy_tokens as [|[f token] rest IH]; cbn [select_token].
  - apply preserves_ret.
  - apply preserves_bind; [apply validate_kept|]. intros user_info.
    destruct (if_true user_info); [apply preserves_ret|exact IH].
Qed.

Lemma migration_safe (legacy_tokens : list (str * str)) :
  respects never_deletes (_handle_migration env legacy_tokens).
Proof.
  unfold _handle_migration.
  apply (respects_try _ never_deletes_trans);
    [|intros; apply setup_some_safe].
  apply (respects_bind _ never_deletes_trans);
    [apply kept_never_deletes, choice_kept|].
  intros choice.
  apply respects_if; [apply (respects_ret _ never_deletes_refl)|].
  apply (respects_bind _ never_deletes_trans);
    [apply kept_never_deletes, select_kept|].
  intros [selected|]; [|apply setup_some_safe].
  unfold persist_selected.
  apply (respects_bind _ never_deletes_trans); [apply store_safe|].
  intros stored. apply respects_if; [|apply setup_some_safe].
  apply (respects_bind _ never_deletes_trans);
    [apply kept_never_deletes, cleanup_keeps_record|].
  intros. apply (respects_ret _ never_deletes_refl).
Qed.

Lemma migrated_safe : respects never_deletes (migrated_token env).
Proof.
  unfold migrated_token.
  apply (respects_bind _ never_deletes_trans).
  { apply kept_never_deletes. now intros st. }
  intros [|entry rest]; [apply (respects_ret _ never_deletes_refl)|].
  apply (respects_bind _ never_deletes_trans); [apply migration_safe|].
  intros [t|]; [apply respects_if|];
    apply (respects_ret _ never_deletes_refl).
Qed.

(** Steps 3 and 4 of [get_secure_token]. *)
Lemma later_steps_safe :
  respects never_deletes
    (migrated <- migrated_token env ;;
     match migrated with
     | Some t => ret t
     | None => _setup_new_token env
     end).
Proof.
  apply (respects_bind _ never_deletes_trans); [apply migrated_safe|].
  intros [t|]; [apply (respects_ret _ never_deletes_refl)|apply setup_safe].
Qed.

(** What the read does to the file. *)
Lemma load_fate (st : State) :
  exists r st',
    _load_secure_token env st = (Ret r, st')
    /\ match r with
       | None => config_file st' = config_file st
       | Some token =>
           exists before after,
             config_file st = Some (Object before)
             /\ read_config env (Object before) = Some (before, token)
             /\ config_file st' = Some (Object after)
             /\ (after = before
                 \/ after = dict_set (py "last_used")
                                     (JStr (clock env (draws st))) before)
             /\ (forall key, key <> py "last_used" ->
                             dict_get key after = dict_get key before)
             /\ read_config env (Object after) = Some (after, token)
       end.
Proof.
  destruct (load_returns env st) as (r & st' & Hrun & _ & Hr).
  exists r, st'. split; [exact Hrun|].
  destruct r as [token|]; [|exact Hr].
  destruct Hr as (d & Hc & Hread & Hempty & Hfull).
  destruct (decide (token = [])) as [He|Hne].
  - exists d, d. rewrite (Hempty He). repeat split; try done. now left.
  - exists d, (dict_set (py "last_used") (JStr (clock env (draws st))) d).
    split; [exact Hc|]. split; [exact Hread|]. split; [now apply Hfull|].
    split; [now right|]. split.
    + intros key Hkey. now apply RecordFacts.dict_get_set_other.
    + now apply RecordFacts.read_config_refreshed.
Qed.

(** What steps 1 and 2 of [get_secure_token] do to the file: it is gone
    only after a stored token decrypted and was rejected, and a stored
    token that is returned is still on record. *)
Lemma stored_fate (st : State) :
  exists r st',
    stored_token env st = (Ret r, st')
    /\ (config_file st <> None -> config_file st' = None ->
        r = None /\ decrypted_then_rejected env st)
    /\ (forall token,
          r = Some token ->
          exists after,
            config_file st' = Some (Object after)
            /\ read_config env (Object after) = Some (after, token)).
Proof.
  unfold stored_token. unfold bind at 1.
  destruct (load_returns env st) as (r & st1 & Hload & _ & Hr).
  rewrite Hload.
  assert (Hsame : config_file st1 = config_file st ->
                  exists r' st',
                    @ret (option str) None st1 = (Ret r', st')
                    /\ (config_file st <> None -> config_file st' = None ->
                        r' = None /\ decrypted_then_rejected env st)
                    /\ (forall token,
                          r' = Some token ->
                          exists after,
                            config_file st' = Some (Object after)
                            /\ read_config env (Object after)
                               = Some (after, token))).
  { intros Hc. exists None, st1. split; [reflexivity|].
    split; [intros Hs Hn; congruence|intros ? [=]]. }
  destruct r as [token|]; [|now apply Hsame].
  destruct Hr as (d & Hfile & Hread & Hempty & Hfull).
  destruct (PyStr.eqb token []) eqn:He; cbn [negb].
  { apply Hsame, Hempty. now apply bool_decide_eq_true_1 in He. }
  apply bool_decide_eq_false_1 in He. specialize (Hfull He).
  unfold bind at 1.
  destruct (validate_returns env token 3 false st1)
    as (u & st2 & Hv & Hnet & _).
  rewrite Hv.
  assert (Hc2 : config_file st2 = config_file st1) by apply Hnet.
  destruct (if_true u) as [info|] eqn:Hu.
  - exists (Some token), st2. split; [reflexivity|]. split.
    + intros _ Hn. congruence.
    + intros t' [= <-]. eexists. split; [now rewrite Hc2, Hfull|].
      now apply RecordFacts.read_config_refreshed.
  - unfold bind. destruct (remove_returns st2) as (st3 & -> & _).
    exists None, st3. split; [reflexivity|]. split; [|intros ? [=]].
    intros _ _. split; [reflexivity|].
    now exists d, token, st1, st2, u.
Qed.

End WithEnv.
End RecordLife.

(** C3, as the code has it. A read ([_load_secure_token]) always returns.
    When it returns a token, the file held a record of the current version
    that decrypts to this token, and the file after the read is that record
    with at most [last_used] rewritten: every other field is as before, and
    it still decrypts to the token. When it returns nothing, the file is
    exactly as before: a read failure, whether text that does not parse, a
    value that is not an object, another version, or a ciphertext that is
    missing, empty or does not decrypt, deletes nothing; the state is
    unchanged and [get_secure_token] goes on to migration and setup. The
    file is deleted only when a stored token decrypted and then failed
    remote validation: that is the one case in which steps 1 and 2 of
    [get_secure_token] leave no file where there was one, a stored token
    that is returned stays on record, a token that is rejected is deleted
    when the file can be removed, and nothing in the rest of
    [get_secure_token], however it ends, deletes a record. *)
Theorem read_keeps_or_refreshes_record {C : Cipher} (env : Env) (st : State) :
  (exists r st',
     _load_secure_token env st = (Ret r, st')
     /\ match r with
        | None => config_file st' = config_file st
        | Some token =>
            exists before after,
              config_file st = Some (Object before)
              /\ read_config env (Object before) = Some (before, token)
              /\ config_file st' = Some (Object after)
              /\ (after = before
                  \/ after = dict_set (py "last_used")
                                      (JStr (clock env (draws st))) before)
              /\ (forall key, key <> py "last_used" ->
                              dict_get key after = dict_get key before)
              /\ read_config env (Object after) = Some (after, token)
        end)
  /\ (forall content,
        config_file st = Some content -> read_config env content = None ->
        _load_secure_token env st = (Ret None, st)
        /\ stored_token env st = (Ret None, st))
  /\ (exists r st',
        stored_token env st = (Ret r, st')
        /\ (config_file st <> None -> config_file st' = None ->
            r = None /\ RecordLife.decrypted_then_rejected env st)
        /\ (forall token,
              r = Some token ->
              exists after,
                config_file st' = Some (Object after)
                /\ read_config env (Object after) = Some (after, token)))
  /\ (forall token st1,
        _load_secure_token env st = (Ret (Some token), st1) -> token <> [] ->
        fst (_validate_token env token 3 false st1) = Ret None ->
        config_writable st = true ->
        fst (stored_token env st) = Ret None
        /\ config_file (snd (stored_token env st)) = None)
  /\ (config_file st <> None ->
      config_file (snd (get_secure_token env st)) = None ->
      RecordLife.decrypted_then_rejected env st).
Proof.
  split; [apply RecordLife.load_fate|].
  split; [|split; [apply RecordLife.stored_fate|split]].
  - intros content Hc Hread.
    assert (Hload : _load_secure_token env st = (Ret None, st)).
    { unfold _load_secure_token. now rewrite Hc, Hread. }
    split; [exact Hload|]. unfold stored_token, bind. now rewrite Hload.
  - intros token st1 Hload Hne Hv Hw.
    unfold stored_token, bind. rewrite Hload.
    unfold PyStr.eqb. rewrite bool_decide_eq_false_2 by exact Hne.
    cbn [negb].
    destruct (ValidationFacts.validate_returns env token 3 false st1)
      as (r & st2 & Hrun & Hnet & _).
    rewrite Hrun in Hv |- *. cbn [fst] in Hv. injection Hv as ->.
    cbn [if_true].
    destruct (StoreFacts.load_returns env st) as (r' & st1' & Hrun' & Hco & _).
    rewrite Hload in Hrun'. injection Hrun' as <- <-.
    destruct (StoreFacts.remove_returns st2) as (st3 & Hrm & _ & Hgone).
    rewrite Hrm. cbn [fst snd]. split; [reflexivity|].
    apply Hgone. destruct Hnet, Hco. congruence.
  - intros Hsome. unfold get_secure_token. unfold bind at 1.
    destruct (RecordLife.stored_fate env st) as (r & st1 & -> & Hdel & _).
    destruct (config_file st1) as [content|] eqn:Hc1;
      [|intros _; now apply Hdel].
    intros Hnone. exfalso.
    destruct r as [t|].
    + cbn [ret snd] in Hnone. congruence.
    + pose proof (RecordLife.later_steps_safe env st1) as Hsafe.
      apply Hsafe; [congruence|exact Hnone].
Qed.

Lemma read_keeps_or_refreshes_record_witness :
  _load_secure_token (C := ref_cipher) env_online st_stale = (Ret None, st_stale)
  /\ stored_token (C := ref_cipher) env_online st_stale = (Ret None, st_stale).
Proof.
  apply (proj1 (proj2 (read_keeps_or_refreshes_record (C := ref_cipher)
                         env_online st_stale))
           (Object record_v09)).
  - reflexivity.
  - vm_compute; reflexivity.
Defined.

(** A stored token that the service rejects: the record is deleted, and
    only then. *)
Example rejected_record_is_deleted :
  config_file st_stored <> None
  /\ stored_token (C := ref_cipher) env_rejecting st_stored
     = (Ret None, snd (stored_token (C := ref_cipher) env_rejecting st_stored))
  /\ config_file (snd (stored_token (C := ref_cipher) env_rejecting st_stored))
     = None.
Proof.
  split; [vm_compute; discriminate|]. split; vm_compute; reflexivity.
Qed.

(** ** Without the [cryptography] package *)
Module WithoutCryptography.
Import Post PromptFacts ValidationFacts StoreFacts.

Definition never {A} : A -> State -> Prop := fun _ _ => False.

Section WithEnv.
Context {C : Cipher} (env : Env).
Hypothesis no_crypto : CRYPTO_AVAILABLE env = false.

Lemma read_config_none (content : config_content) :
  read_config env content = None.
Proof.
  unfold read_config. rewrite no_crypto.
  destruct content; try reflexivity.
  unfold _decrypt_token. repeat case_match; reflexivity.
Qed.

Lemma load_none (st : State) : _load_secure_token env st = (Ret None, st).
Proof.
  unfold _load_secure_token.
  destruct (config_file st) as [content|]; [|reflexivity].
  now rewrite read_config_none.
Qed.

Lemma stored_none (st : State) : stored_token env st = (Ret None, st).
Proof. unfold stored_token, bind. now rewrite load_none. Qed.

Lemma store_false (token : str) (st : State) :
  exists st',
    store_token_securely env token st = (Ret false, st')
    /\ config_file st' = config_file st.
Proof.
  unfold store_token_securely, try_except, bind.
  destruct (validate_returns env token 3 false st)
    as (r & st1 & -> & Hnet & _).
  assert (Hc : config_file st1 = config_file st) by apply Hnet.
  destruct (if_true r) as [info|].
  - unfold encrypt_now. rewrite no_crypto. cbn.
    eexists. split; [reflexivity|exact Hc].
  - exists st1. now split.
Qed.

Lemma store_never_true (token : str) :
  triple any (store_token_securely env token) (fun b _ => b = false).
Proof.
  intros st b st' _ Hrun.
  destruct (store_false token st) as (st1 & H & _).
  rewrite H in Hrun. now injection Hrun as <- _.
Qed.

Lemma setup_loop_never (fuel : nat) : triple any (setup_loop env fuel) never.
Proof.
  induction fuel as [|fuel IH]; cbn [setup_loop].
  - apply triple_out_of_fuel.
  - eapply triple_bind; [apply triple_true|]. intros new_token.
    apply triple_if; [exact IH|].
    eapply triple_bind; [apply triple_true|]. intros user_info.
    destruct (if_true user_info); [|exact IH].
    eapply triple_bind; [apply triple_any, store_never_true|].
    intros stored st a st' ->. now apply IH.
Qed.

Lemma setup_never : triple any (_setup_new_token env) never.
Proof.
  unfold _setup_new_token.
  eapply triple_bind; [apply triple_true|]. intros choice.
  apply triple_if; [apply triple_raise|].
  intros st a st' _. now apply setup_loop_never.
Qed.

Lemma setup_some_never :
  triple any (token <- _setup_new_token env ;; ret (Some token)) never.
Proof.
  eapply triple_bind; [apply setup_never|]. now intros token st a st' [].
Qed.

Lemma never_none {A} (m : M (option A)) :
  triple any m never -> triple any m (fun r _ => r = None).
Proof. intros H st a st' HP Hrun. now destruct (H st a st' HP Hrun). Qed.

Lemma migration_none (legacy_tokens : list (str * str)) :
  triple any (_handle_migration env legacy_tokens) (fun r _ => r = None).
Proof.
  unfold _handle_migration.
  apply triple_try; [|intros; apply never_none, setup_some_never].
  eapply triple_bind; [apply triple_true|]. intros choice.
  apply triple_if; [now apply triple_ret|].
  eapply triple_bind; [apply triple_true|].
  intros [selected|]; [|apply triple_any, never_none, setup_some_never].
  unfold persist_selected.
  eapply triple_bind; [apply triple_any, store_never_true|].
  intros stored st a st' ->.
  now apply (never_none _ setup_some_never).
Qed.

Lemma migrated_none :
  triple any (migrated_token env) (fun r _ => r = None).
Proof.
  unfold migrated_token.
  eapply triple_bind; [apply triple_true|].
  intros [|entry rest]; [now apply triple_ret|].
  eapply triple_bind; [apply triple_any, migration_none|].
  intros migrated st a st' ->. now intros [= <- _].
Qed.

(** Steps 3 and 4 of [get_secure_token]. *)
Lemma later_steps_never :
  triple any
    (migrated <- migrated_token env ;;
     match migrated with
     | Some t => ret t
     | None => _setup_new_token env
     end) never.
Proof.
  eapply triple_bind; [apply migrated_none|].
  intros migrated st1 a st' ->. now apply setup_never.
Qed.

Lemma get_secure_token_never : triple any (get_secure_token env) never.
Proof.
  unfold get_secure_token. intros st a st' _. unfold bind at 1.
  rewrite stored_none. now apply later_steps_never.
Qed.

End WithEnv.
End WithoutCryptography.

(** X21. Without the [cryptography] package the subsystem never obtains a
    token. [base64] is bound only by the import that failed, so a store
    validates the token and then fails in [_encrypt_token]: it returns
    [False] and leaves the credential file as it was, for every token and
    every service. A read returns nothing and changes nothing, whatever the
    file holds. So [get_secure_token] never returns: it has no stored
    token, migration cannot store the token it selects, and the setup loop
    asks again after every token until the input ends. *)
Theorem fallback_mode_obtains_no_token {C : Cipher} (env : Env) :
  CRYPTO_AVAILABLE env = false ->
  (forall token st,
     exists st',
       store_token_securely env token st = (Ret false, st')
       /\ config_file st' = config_file st)
  /\ (forall st, _load_secure_token env st = (Ret None, st))
  /\ (forall st token st', get_secure_token env st <> (Ret token, st')).
Proof.
  intros Hoff. split; [apply (WithoutCryptography.store_false env Hoff)|].
  split; [apply (WithoutCryptography.load_none env Hoff)|].
  intros st token st' Hrun.
  exact (WithoutCryptography.get_secure_token_never env Hoff st token st' I Hrun).
Qed.

Lemma fallback_mode_obtains_no_token_witness :
  (exists st',
     store_token_securely (C := ref_cipher) env_without_cryptography token_x40
       st_empty = (Ret false, st')
     /\ config_file st' = None)
  /\ _load_secure_token (C := ref_cipher) env_without_cryptography st_stored
     = (Ret None, st_stored).
Proof.
  destruct (fallback_mode_obtains_no_token (C := ref_cipher)
              env_without_cryptography eq_refl) as (Hstore & Hload & _).
  split; [apply Hstore|apply Hload].
Defined.

(** The service accepts the token, and still nothing is stored. *)
Example accepted_token_is_not_stored :
  fst (_validate_token env_without_cryptography token_x40 3 false st_empty)
  = Ret (Some a_user)
  /\ fst (store_token_securely (C := ref_cipher) env_without_cryptography
            token_x40 st_empty)
     = Ret false.
Proof. split; vm_compute; reflexivity. Qed.
